(** * Auto-framing filter (source/filters/filter-autoframing.cpp)

    A shallow embedding of the tracking and frame-composition core of
    [autoframing_instance]: the settings that [update] parses, the ageing,
    prediction and composition phases of [tracking_tick], the association of
    detections in [nvar_facedetection_process] and the provider switch task.

    Numbers.  The source computes on [float].  Stored quantities are
    embedded as exact rationals ([float := Q]): rounding and overflow are
    not modelled.  Quotients whose divisor can be zero, and the values that
    are derived from them, are embedded in [fval], which adds the IEEE
    results of such divisions (the two infinities and NaN) to the rationals;
    signed zeros are identified.  The aspect-ratio blocks of
    [tracking_tick], where the rounding decides whether a side grows or
    shrinks, are embedded a second time on IEEE 754 binary32 values
    ([binary32]). *)

From Stdlib Require Import QArith Qminmax Lqa ZArith NArith List Bool String Ascii Lia.
From Stdlib Require Import FMapList FMapFacts OrderedTypeEx.
From Stdlib Require Floats.SpecFloat.
Import ListNotations.
Local Open Scope Q_scope.

(** ** Numbers *)

Definition float := Q.

Definition Qltb (a b : Q) : bool := negb (Qle_bool b a).

(** [static_cast<float>] of a [uint32_t]. *)
Definition uint_to_float (n : N) : float := inject_Z (Z.of_N n).

(** [uint32_t] multiplication. *)
Definition uint32_mul (a b : N) : N := ((a * b) mod 2 ^ 32)%N.

Inductive fval : Type :=
| Fin (q : Q)
| PInf
| NInf
| NaN.

Definition fdiv (a b : fval) : fval :=
  match a, b with
  | NaN, _ | _, NaN => NaN
  | Fin p, Fin q =>
      if Qeq_bool q 0
      then (if Qltb 0 p then PInf else if Qltb p 0 then NInf else NaN)
      else Fin (p / q)
  | Fin _, (PInf | NInf) => Fin 0
  | PInf, Fin q => if Qltb q 0 then NInf else PInf
  | NInf, Fin q => if Qltb q 0 then PInf else NInf
  | (PInf | NInf), (PInf | NInf) => NaN
  end.

Definition fmul (a b : fval) : fval :=
  match a, b with
  | NaN, _ | _, NaN => NaN
  | Fin p, Fin q => Fin (p * q)
  | Fin p, PInf | PInf, Fin p =>
      if Qltb 0 p then PInf else if Qltb p 0 then NInf else NaN
  | Fin p, NInf | NInf, Fin p =>
      if Qltb 0 p then NInf else if Qltb p 0 then PInf else NaN
  | PInf, PInf | NInf, NInf => PInf
  | PInf, NInf | NInf, PInf => NInf
  end.

Definition fsub (a b : fval) : fval :=
  match a, b with
  | NaN, _ | _, NaN => NaN
  | Fin p, Fin q => Fin (p - q)
  | Fin _, PInf => NInf
  | Fin _, NInf => PInf
  | PInf, (Fin _ | NInf) => PInf
  | NInf, (Fin _ | PInf) => NInf
  | PInf, PInf | NInf, NInf => NaN
  end.

(** [a < b] on floats: false as soon as one side is NaN. *)
Definition flt (a b : fval) : bool :=
  match a, b with
  | NaN, _ | _, NaN => false
  | Fin p, Fin q => Qltb p q
  | NInf, (Fin _ | PInf) => true
  | Fin _, PInf => true
  | _, _ => false
  end.

(** [a >= b] on floats: false as soon as one side is NaN. *)
Definition fge (a b : fval) : bool :=
  match a, b with
  | NaN, _ | _, NaN => false
  | Fin p, Fin q => Qle_bool q p
  | PInf, _ => true
  | _, NInf => true
  | _, _ => false
  end.

Arguments fdiv : simpl never.
Arguments fmul : simpl never.
Arguments fsub : simpl never.
Arguments flt : simpl never.
Arguments fge : simpl never.

(** [std::clamp<float>(v, lo, hi)]. *)
Definition clamp (v lo hi : float) : float :=
  if Qltb v lo then lo else if Qltb hi v then hi else v.

(** ** libobs [vec2] *)

Record vec2 : Type := Vec2 { x : float; y : float }.

Definition vec2_set (a b : float) : vec2 := {| x := a; y := b |}.
Definition vec2_add (a b : vec2) : vec2 := {| x := x a + x b; y := y a + y b |}.
Definition vec2_sub (a b : vec2) : vec2 := {| x := x a - x b; y := y a - y b |}.
Definition vec2_mulf (a : vec2) (f : float) : vec2 := {| x := x a * f; y := y a * f |}.
Definition vec2_divf (a : vec2) (f : float) : vec2 := {| x := x a / f; y := y a / f |}.

(** ** The aspect-ratio blocks of [tracking_tick] *)

(** The blocks are given on rationals first: what they compute when no
    operation rounds and the configured ratio is a number. *)

(** "Adjust to match aspect ratio (width / height)": the per-element
    correction of the padded size. *)
Definition aspect_padded (_frame_aspect_ratio : float) (pad_size : vec2) : vec2 :=
  let aspected_size := pad_size in
  if Qltb 0 _frame_aspect_ratio then
    if fge (fdiv (Fin (x aspected_size)) (Fin (y aspected_size))) (Fin _frame_aspect_ratio)
    then {| x := x aspected_size; y := x aspected_size / _frame_aspect_ratio |}
    else {| x := y aspected_size * _frame_aspect_ratio; y := y aspected_size |}
  else aspected_size.

(** The aspect the final frame is corrected to. *)
Definition frame_aspect (_size : N * N) (_frame_aspect_ratio : float) : float :=
  if Qltb 0 _frame_aspect_ratio
  then _frame_aspect_ratio
  else uint_to_float (fst _size) / uint_to_float (snd _size).

(** "1. Adjust aspect ratio so that all elements end up contained." *)
Definition aspect_contain (aspect : float) (_frame_size : vec2) : vec2 :=
  let frame_aspect := fdiv (Fin (x _frame_size)) (Fin (y _frame_size)) in
  if flt (Fin aspect) frame_aspect
  then {| x := x _frame_size; y := x _frame_size / aspect |}
  else {| x := y _frame_size * aspect; y := y _frame_size |}.

(** "2. Limit the size of the frame to the allowed region, and adjust it so
    it's inside the frame."  The result is the new position and size. *)
Definition clamp_to_frame (_size : N * N) (_frame_pos _frame_size : vec2) : vec2 * vec2 :=
  let rect_x := clamp (x _frame_pos - x _frame_size / 2) 0 (uint_to_float (fst _size)) in
  let rect_z := clamp (x _frame_pos + x _frame_size / 2) 0 (uint_to_float (fst _size)) in
  let rect_y := clamp (y _frame_pos - y _frame_size / 2) 0 (uint_to_float (snd _size)) in
  let rect_w := clamp (y _frame_pos + y _frame_size / 2) 0 (uint_to_float (snd _size)) in
  ({| x := (rect_x + rect_z) / 2; y := (rect_y + rect_w) / 2 |},
   {| x := rect_z - rect_x; y := rect_w - rect_y |}).

(** "3. Adjust the aspect ratio so that it matches the expected output
    aspect ratio." *)
Definition aspect_match (aspect : float) (_frame_size : vec2) : vec2 :=
  let frame_aspect := fdiv (Fin (x _frame_size)) (Fin (y _frame_size)) in
  if flt (Fin aspect) frame_aspect
  then {| x := y _frame_size * aspect; y := y _frame_size |}
  else {| x := x _frame_size; y := x _frame_size / aspect |}.

(** "Aspect Ratio correction is a three step process". *)
Definition aspect_correction (_size : N * N) (_frame_aspect_ratio : float)
    (_frame_pos _frame_size : vec2) : vec2 * vec2 :=
  let aspect := frame_aspect _size _frame_aspect_ratio in
  let _frame_size := aspect_contain aspect _frame_size in
  let '(_frame_pos, _frame_size) := clamp_to_frame _size _frame_pos _frame_size in
  (_frame_pos, aspect_match aspect _frame_size).

(** The four edges of a rectangle given by centre and size lie in the frame. *)
Definition edges_in_frame (_size : N * N) (pos size : vec2) : Prop :=
  (0 <= x pos - x size / 2 <= uint_to_float (fst _size)) /\
  (0 <= x pos + x size / 2 <= uint_to_float (fst _size)) /\
  (0 <= y pos - y size / 2 <= uint_to_float (snd _size)) /\
  (0 <= y pos + y size / 2 <= uint_to_float (snd _size)).

(** ** The aspect-ratio blocks on binary32 *)

(** [float] as the machine has it: the values of IEEE 754 binary32 (24
    bits of precision, exponents below 128), every operation rounded to
    nearest, ties to even. *)
Definition binary32 : Type := SpecFloat.spec_float.

Definition b32_add : binary32 -> binary32 -> binary32 := SpecFloat.SFadd 24 128.
Definition b32_sub : binary32 -> binary32 -> binary32 := SpecFloat.SFsub 24 128.
Definition b32_mul : binary32 -> binary32 -> binary32 := SpecFloat.SFmul 24 128.
Definition b32_div : binary32 -> binary32 -> binary32 := SpecFloat.SFdiv 24 128.

(** [a < b] and [a <= b]: false when an operand is NaN. *)
Definition b32_lt : binary32 -> binary32 -> bool := SpecFloat.SFltb.
Definition b32_le : binary32 -> binary32 -> bool := SpecFloat.SFleb.

Definition b32_is_nan (v : binary32) : bool :=
  match v with
  | SpecFloat.S754_nan => true
  | _ => false
  end.

(** [static_cast<float>] of a [uint32_t]. *)
Definition b32_of_uint (n : N) : binary32 :=
  SpecFloat.binary_normalize 24 128 (Z.of_N n) 0 false.

(** [0.f] and [2.f]. *)
Definition b32_zero : binary32 := SpecFloat.S754_zero false.
Definition b32_two : binary32 := SpecFloat.S754_finite false 8388608 (-22).

(** [std::clamp<float>]. *)
Definition clamp32 (v lo hi : binary32) : binary32 :=
  if b32_lt v lo then lo else if b32_lt hi v then hi else v.

Record vec2_32 : Type := Vec2_32 { x32 : binary32; y32 : binary32 }.

(** "Adjust to match aspect ratio (width / height)." *)
Definition aspect_padded32 (_frame_aspect_ratio : binary32) (pad_size : vec2_32) : vec2_32 :=
  let aspected_size := pad_size in
  if b32_lt b32_zero _frame_aspect_ratio then
    if b32_le _frame_aspect_ratio (b32_div (x32 aspected_size) (y32 aspected_size))
    then {| x32 := x32 aspected_size;
            y32 := b32_div (x32 aspected_size) _frame_aspect_ratio |}
    else {| x32 := b32_mul (y32 aspected_size) _frame_aspect_ratio;
            y32 := y32 aspected_size |}
  else aspected_size.

Definition frame_aspect32 (_size : N * N) (_frame_aspect_ratio : binary32) : binary32 :=
  if b32_lt b32_zero _frame_aspect_ratio
  then _frame_aspect_ratio
  else b32_div (b32_of_uint (fst _size)) (b32_of_uint (snd _size)).

(** "1. Adjust aspect ratio so that all elements end up contained." *)
Definition aspect_contain32 (aspect : binary32) (_frame_size : vec2_32) : vec2_32 :=
  let frame_aspect := b32_div (x32 _frame_size) (y32 _frame_size) in
  if b32_lt aspect frame_aspect
  then {| x32 := x32 _frame_size; y32 := b32_div (x32 _frame_size) aspect |}
  else {| x32 := b32_mul (y32 _frame_size) aspect; y32 := y32 _frame_size |}.

(** The rectangle [rect] of step 2: the edges [x], [z] (left, right) and
    [y], [w] (top, bottom), each clamped to the frame. *)
Record vec4_32 : Type := Vec4_32 {
  rect32_x : binary32; rect32_y : binary32; rect32_z : binary32; rect32_w : binary32
}.

Definition frame_rect32 (_size : N * N) (_frame_pos _frame_size : vec2_32) : vec4_32 :=
  {| rect32_x := clamp32 (b32_sub (x32 _frame_pos) (b32_div (x32 _frame_size) b32_two))
                   b32_zero (b32_of_uint (fst _size));
     rect32_z := clamp32 (b32_add (x32 _frame_pos) (b32_div (x32 _frame_size) b32_two))
                   b32_zero (b32_of_uint (fst _size));
     rect32_y := clamp32 (b32_sub (y32 _frame_pos) (b32_div (y32 _frame_size) b32_two))
                   b32_zero (b32_of_uint (snd _size));
     rect32_w := clamp32 (b32_add (y32 _frame_pos) (b32_div (y32 _frame_size) b32_two))
                   b32_zero (b32_of_uint (snd _size)) |}.

(** "2. Limit the size of the frame to the allowed region, and adjust it so
    it's inside the frame." *)
Definition clamp_to_frame32 (_size : N * N) (_frame_pos _frame_size : vec2_32)
    : vec2_32 * vec2_32 :=
  let rect := frame_rect32 _size _frame_pos _frame_size in
  ({| x32 := b32_div (b32_add (rect32_x rect) (rect32_z rect)) b32_two;
      y32 := b32_div (b32_add (rect32_y rect) (rect32_w rect)) b32_two |},
   {| x32 := b32_sub (rect32_z rect) (rect32_x rect);
      y32 := b32_sub (rect32_w rect) (rect32_y rect) |}).

(** "3. Adjust the aspect ratio so that it matches the expected output
    aspect ratio." *)
Definition aspect_match32 (aspect : binary32) (_frame_size : vec2_32) : vec2_32 :=
  let frame_aspect := b32_div (x32 _frame_size) (y32 _frame_size) in
  if b32_lt aspect frame_aspect
  then {| x32 := b32_mul (y32 _frame_size) aspect; y32 := y32 _frame_size |}
  else {| x32 := x32 _frame_size; y32 := b32_div (x32 _frame_size) aspect |}.

(** "Aspect Ratio correction is a three step process". *)
Definition aspect_correction32 (_size : N * N) (_frame_aspect_ratio : binary32)
    (_frame_pos _frame_size : vec2_32) : vec2_32 * vec2_32 :=
  let aspect := frame_aspect32 _size _frame_aspect_ratio in
  let _frame_size := aspect_contain32 aspect _frame_size in
  let '(_frame_pos, _frame_size) := clamp_to_frame32 _size _frame_pos _frame_size in
  (_frame_pos, aspect_match32 aspect _frame_size).

(** A value that is a number lies between [lo] and [hi]. *)
Definition within32 (lo hi r : binary32) : Prop :=
  b32_is_nan r = true \/ (b32_le lo r = true /\ b32_le r hi = true).

(** The four edges of [rect] lie in the frame, unless they are NaN. *)
Definition rect_in_frame32 (_size : N * N) (rect : vec4_32) : Prop :=
  within32 b32_zero (b32_of_uint (fst _size)) (rect32_x rect) /\
  within32 b32_zero (b32_of_uint (fst _size)) (rect32_z rect) /\
  within32 b32_zero (b32_of_uint (snd _size)) (rect32_y rect) /\
  within32 b32_zero (b32_of_uint (snd _size)) (rect32_w rect).

(** ** The smoothing filter *)

(** Modelled from the spec: [util::math::kalman1D<float>], whose declaration
    is not among the sources.  The spec gives its state ([estimate],
    [errorCovariance]), its parameters, the constructor
    [construct(processNoise, measurementNoise, initialErrorCovariance,
    initialEstimate)], the recursion of [filter] and [get] as a pure read.
    The gain is a quotient of rationals here: a zero divisor is outside the
    caller's contract. *)
Record kalman1D : Type := Kalman1D {
  processNoiseCovariance : float;
  measurementNoiseCovariance : float;
  errorCovariance : float;
  estimate : float
}.

(** Modelled from the spec: the constructor of [kalman1D], in the argument
    order of the source's brace initialisers. *)
Definition construct (processNoise measurementNoise initialErrorCovariance
    initialEstimate : float) : kalman1D :=
  {| processNoiseCovariance := processNoise;
     measurementNoiseCovariance := measurementNoise;
     errorCovariance := initialErrorCovariance;
     estimate := initialEstimate |}.

(** Modelled from the spec: [filter], the scalar recursion
    [P' = P + Q], [K = P' / (P' + R)], [x = x + K (measurement - x)],
    [P = (1 - K) P']. *)
Definition filter (k : kalman1D) (measurement : float) : kalman1D :=
  let P' := errorCovariance k + processNoiseCovariance k in
  let K := P' / (P' + measurementNoiseCovariance k) in
  {| processNoiseCovariance := processNoiseCovariance k;
     measurementNoiseCovariance := measurementNoiseCovariance k;
     errorCovariance := (1 - K) * P';
     estimate := estimate k + K * (measurement - estimate k) |}.

(** Modelled from the spec: [get], a pure read of the estimate. *)
Definition get (k : kalman1D) : float := estimate k.

Definition ST_KALMAN_EEC : float := 1.

(** ** Tracked and predicted elements *)

Record track_el : Type := TrackEl {
  pos : vec2;
  size : vec2;
  vel : vec2;
  age : float;
  confidence : float
}.

Record pred_el : Type := PredEl {
  filter_pos_x : kalman1D;
  filter_pos_y : kalman1D;
  filter_size_x : kalman1D;
  filter_size_y : kalman1D;
  mp_pos : vec2;
  offset_pos : vec2;
  pad_size : vec2;
  aspected_size : vec2
}.

(** A [std::shared_ptr<track_el>] is embedded as the address it holds.
    [_tracked_elements] (a [std::list] of such pointers) is the list of the
    addresses paired with the objects they point to; no address occurs twice
    in it, since every element comes from a [std::make_shared] of its own.

    [_predicted_elements] is declared in the header, which is not among the
    sources.  It is used through [find], [insert_or_assign], [erase] by key,
    [size], forward iteration and [rbegin]: the interface of [std::map]
    keyed by the track pointer, whose iteration order is the order of the
    keys.  It is embedded as the ordered finite map [PtrMap] over addresses;
    the map owns its [pred_el] objects and nothing else refers to them. *)
Definition ptr := N.

Module PtrMap := FMapList.Make(N_as_OT).
Module PtrMapFacts := FMapFacts.WFacts_fun N_as_OT PtrMap.
Module PtrMapOrd := FMapFacts.OrdProperties PtrMap.

Definition tracked_list := list (ptr * track_el).
Definition predicted_map := PtrMap.t pred_el.

(** [rbegin()] of a non-empty map: the entry with the greatest key. *)
Definition rbegin (m : predicted_map) : option (ptr * pred_el) :=
  PtrMapOrd.max_elt m.

Inductive tracking_mode : Type := SOLO | GROUP.

Inductive tracking_provider : Type := INVALID | AUTOMATIC | NVIDIA_FACEDETECTION.

(** Modelled from the spec: the detection backend (the class
    [nvidia::ar::facedetection], not among the sources) as far as the filter
    drives it, through [setTrackingLimit], [trackingLimitRange] and
    [isTemporal]: the limit it was given, its limit range and whether it
    tracks temporally. *)
Record facedetection : Type := FaceDetection {
  tracking_limit : N;
  tracking_limit_range : N * N;
  is_temporal : bool
}.

(** Lines written with [D_LOG_INFO] and [D_LOG_ERROR]. *)
Inductive log_line : Type :=
| LOG_INFO (message : string)
| LOG_ERROR (message : string).

(** ** The filter instance *)

Record autoframing_instance : Type := Instance {
  _size : N * N;
  _provider : tracking_provider;
  _provider_ready : bool;
  _nvidia_fx : option facedetection;
  _track_mode : tracking_mode;
  _track_frequency : fval;
  _motion_smoothing : float;
  _motion_smoothing_kalman_pnc : float;
  _motion_smoothing_kalman_mnc : float;
  _motion_prediction : float;
  _frame_stability : float;
  _frame_stability_kalman : float;
  _frame_padding_prc : bool * bool;
  _frame_padding : vec2;
  _frame_offset_prc : bool * bool;
  _frame_offset : vec2;
  _frame_aspect_ratio : float;
  _track_frequency_counter : float;
  _tracked_elements : tracked_list;
  _predicted_elements : predicted_map;
  _frame_pos_x : kalman1D;
  _frame_pos_y : kalman1D;
  _frame_size_x : kalman1D;
  _frame_size_y : kalman1D;
  _frame_pos : vec2;
  _frame_size : vec2;
  log : list log_line
}.

(** The members as the constructor initialises them.  [_frame_size_x] and
    [_frame_size_y] have no initialiser there: they are default-constructed,
    by a constructor of [kalman1D] that is not among the sources and that
    zeroes every member. *)
Definition initial_instance : autoframing_instance :=
  {| _size := (1, 1)%N;
     _provider := INVALID;
     _provider_ready := false;
     _nvidia_fx := None;
     _track_mode := SOLO;
     _track_frequency := Fin 1;
     _motion_smoothing := 0;
     _motion_smoothing_kalman_pnc := 1;
     _motion_smoothing_kalman_mnc := 1;
     _motion_prediction := 0;
     _frame_stability := 0;
     _frame_stability_kalman := 1;
     _frame_padding_prc := (false, false);
     _frame_padding := vec2_set 0 0;
     _frame_offset_prc := (false, false);
     _frame_offset := vec2_set 0 0;
     _frame_aspect_ratio := 0;
     _track_frequency_counter := 0;
     _tracked_elements := [];
     _predicted_elements := PtrMap.empty pred_el;
     _frame_pos_x := construct 1 1 1 1;
     _frame_pos_y := construct 1 1 1 1;
     _frame_size_x := construct 0 0 0 0;
     _frame_size_y := construct 0 0 0 0;
     _frame_pos := vec2_set 0 0;
     _frame_size := vec2_set 1 1;
     log := [] |}.

Definition set_tracking (s : autoframing_instance) (tracked : tracked_list)
    (predicted : predicted_map) : autoframing_instance :=
  {| _size := _size s; _provider := _provider s; _provider_ready := _provider_ready s;
     _nvidia_fx := _nvidia_fx s; _track_mode := _track_mode s;
     _track_frequency := _track_frequency s; _motion_smoothing := _motion_smoothing s;
     _motion_smoothing_kalman_pnc := _motion_smoothing_kalman_pnc s;
     _motion_smoothing_kalman_mnc := _motion_smoothing_kalman_mnc s;
     _motion_prediction := _motion_prediction s; _frame_stability := _frame_stability s;
     _frame_stability_kalman := _frame_stability_kalman s;
     _frame_padding_prc := _frame_padding_prc s; _frame_padding := _frame_padding s;
     _frame_offset_prc := _frame_offset_prc s; _frame_offset := _frame_offset s;
     _frame_aspect_ratio := _frame_aspect_ratio s;
     _track_frequency_counter := _track_frequency_counter s;
     _tracked_elements := tracked; _predicted_elements := predicted;
     _frame_pos_x := _frame_pos_x s; _frame_pos_y := _frame_pos_y s;
     _frame_size_x := _frame_size_x s; _frame_size_y := _frame_size_y s;
     _frame_pos := _frame_pos s; _frame_size := _frame_size s; log := log s |}.

(** The frame-level filters with the frame rectangle. *)
Record frame_state : Type := FrameState {
  fs_pos_x : kalman1D;
  fs_pos_y : kalman1D;
  fs_size_x : kalman1D;
  fs_size_y : kalman1D;
  fs_pos : vec2;
  fs_size : vec2
}.

Definition frame_of (s : autoframing_instance) : frame_state :=
  {| fs_pos_x := _frame_pos_x s; fs_pos_y := _frame_pos_y s;
     fs_size_x := _frame_size_x s; fs_size_y := _frame_size_y s;
     fs_pos := _frame_pos s; fs_size := _frame_size s |}.

Definition set_frame (s : autoframing_instance) (f : frame_state) (counter : float)
    : autoframing_instance :=
  {| _size := _size s; _provider := _provider s; _provider_ready := _provider_ready s;
     _nvidia_fx := _nvidia_fx s; _track_mode := _track_mode s;
     _track_frequency := _track_frequency s; _motion_smoothing := _motion_smoothing s;
     _motion_smoothing_kalman_pnc := _motion_smoothing_kalman_pnc s;
     _motion_smoothing_kalman_mnc := _motion_smoothing_kalman_mnc s;
     _motion_prediction := _motion_prediction s; _frame_stability := _frame_stability s;
     _frame_stability_kalman := _frame_stability_kalman s;
     _frame_padding_prc := _frame_padding_prc s; _frame_padding := _frame_padding s;
     _frame_offset_prc := _frame_offset_prc s; _frame_offset := _frame_offset s;
     _frame_aspect_ratio := _frame_aspect_ratio s;
     _track_frequency_counter := counter;
     _tracked_elements := _tracked_elements s;
     _predicted_elements := _predicted_elements s;
     _frame_pos_x := fs_pos_x f; _frame_pos_y := fs_pos_y f;
     _frame_size_x := fs_size_x f; _frame_size_y := fs_size_y f;
     _frame_pos := fs_pos f; _frame_size := fs_size f; log := log s |}.

(** ** [tracking_tick] *)

(** The eviction threshold, [0.5f * (1.f / (1.f - _track_frequency))]. *)
Definition age_threshold (_track_frequency : fval) : fval :=
  fmul (Fin (1 # 2)) (fdiv (Fin 1) (fsub (Fin 1) _track_frequency)).

Definition add_age (el : track_el) (seconds : float) : track_el :=
  {| pos := pos el; size := size el; vel := vel el;
     age := age el + seconds; confidence := confidence el |}.

(** "Increase the age of all elements, and kill off any that are too old."
    The iterator visits every element once; the two erasing branches of the
    source (at the head of the list, elsewhere) differ only in how the
    iterator is advanced. *)
Fixpoint age_and_evict (seconds : float) (threshold : fval)
    (tracked : tracked_list) (predicted : predicted_map)
    : tracked_list * predicted_map :=
  match tracked with
  | [] => ([], predicted)
  | (p, el) :: rest =>
      let el := add_age el seconds in
      if fge (Fin (age el)) threshold
      then age_and_evict seconds threshold rest (PtrMap.remove p predicted)
      else
        let '(rest, predicted) := age_and_evict seconds threshold rest predicted in
        ((p, el) :: rest, predicted)
  end.

(** The companion made by [std::make_shared<pred_el>()] for a track that
    has none: the four filters start at the track's position and size, the
    vectors are value-initialised. *)
Definition new_pred_el (pnc mnc : float) (trck : track_el) : pred_el :=
  {| filter_pos_x := construct pnc mnc ST_KALMAN_EEC (x (pos trck));
     filter_pos_y := construct pnc mnc ST_KALMAN_EEC (y (pos trck));
     filter_size_x := construct pnc mnc ST_KALMAN_EEC (x (size trck));
     filter_size_y := construct pnc mnc ST_KALMAN_EEC (y (size trck));
     mp_pos := vec2_set 0 0;
     offset_pos := vec2_set 0 0;
     pad_size := vec2_set 0 0;
     aspected_size := vec2_set 0 0 |}.

(** "Calculate predicted position." *)
Definition motion_predicted (_motion_prediction seconds : float) (trck : track_el)
    (pred : pred_el) : vec2 :=
  let vel := vec2_mulf (vec2_mulf (vel trck) _motion_prediction) seconds in
  let pos := if Qltb seconds (age trck) then mp_pos pred else pos trck in
  vec2_add pos vel.

(** The body of the loop "Updated predicted elements" for one track;
    [found] is what [_predicted_elements.find(trck)] gave. *)
Definition predict_element (s : autoframing_instance) (seconds : float)
    (trck : track_el) (found : option pred_el) : pred_el :=
  let pred :=
    match found with
    | None => new_pred_el (_motion_smoothing_kalman_pnc s) (_motion_smoothing_kalman_mnc s) trck
    | Some pred => pred
    end in
  let mp_pos := motion_predicted (_motion_prediction s) seconds trck pred in
  let filter_pos_x := filter (filter_pos_x pred) (x mp_pos) in
  let filter_pos_y := filter (filter_pos_y pred) (y mp_pos) in
  let filter_size_x := filter (filter_size_x pred) (x (size trck)) in
  let filter_size_y := filter (filter_size_y pred) (y (size trck)) in
  let offset_pos :=
    {| x := if fst (_frame_offset_prc s)
            then get filter_pos_x + get filter_size_x * (- x (_frame_offset s))
            else get filter_pos_x + x (_frame_offset s);
       y := if snd (_frame_offset_prc s)
            then get filter_pos_y + get filter_size_y * (- y (_frame_offset s))
            else get filter_pos_y + y (_frame_offset s) |} in
  let pad_size :=
    {| x := if fst (_frame_padding_prc s)
            then x (size trck) + get filter_size_x * (- x (_frame_padding s)) * 2
            else x (size trck) + x (_frame_padding s) * 2;
       y := if snd (_frame_padding_prc s)
            then y (size trck) + get filter_size_y * (- y (_frame_padding s)) * 2
            else y (size trck) + y (_frame_padding s) * 2 |} in
  {| filter_pos_x := filter_pos_x;
     filter_pos_y := filter_pos_y;
     filter_size_x := filter_size_x;
     filter_size_y := filter_size_y;
     mp_pos := mp_pos;
     offset_pos := offset_pos;
     pad_size := pad_size;
     aspected_size := aspect_padded (_frame_aspect_ratio s) pad_size |}.

(** The loop over [_tracked_elements]: find or create the companion, update
    it and store it under the track's pointer. *)
Definition update_predicted (s : autoframing_instance) (seconds : float)
    (tracked : tracked_list) (predicted : predicted_map) : predicted_map :=
  fold_left
    (fun m (pt : ptr * track_el) =>
       PtrMap.add (fst pt) (predict_element s seconds (snd pt) (PtrMap.find (fst pt) m)) m)
    tracked predicted.

Definition FLT_MAX : float := inject_Z (2 ^ 128 - 2 ^ 104).

(** One iteration of the union loop of Group mode on the pair (min, max). *)
Definition grow_bounds (mm : vec2 * vec2) (pred : pred_el) : vec2 * vec2 :=
  let '(min, max) := mm in
  let size := vec2_mulf (aspected_size pred) (1 # 2) in
  let low := vec2_sub (offset_pos pred) size in
  let high := vec2_add (offset_pos pred) size in
  ({| x := if Qltb (x low) (x min) then x low else x min;
      y := if Qltb (y low) (y min) then y low else y min |},
   {| x := if Qltb (x max) (x high) then x high else x max;
      y := if Qltb (y max) (y high) then y high else y max |}).

Definition group_bounds (predicted : predicted_map) : vec2 * vec2 :=
  fold_left (fun mm (kv : ptr * pred_el) => grow_bounds mm (snd kv))
    (PtrMap.elements predicted)
    (vec2_set FLT_MAX FLT_MAX, vec2_set 0 0).

(** "Find final frame", up to and including "Grab filtered data if needed":
    the candidate rectangle that enters the aspect-ratio correction. *)
Definition frame_candidate (_size : N * N) (_track_mode : tracking_mode)
    (predicted : predicted_map) (f : frame_state) : frame_state :=
  if (0 <? PtrMap.cardinal predicted)%nat then
    match _track_mode with
    | SOLO =>
        match rbegin predicted with
        | Some kv =>
            let px := filter (fs_pos_x f) (x (offset_pos (snd kv))) in
            let py := filter (fs_pos_y f) (y (offset_pos (snd kv))) in
            {| fs_pos_x := px; fs_pos_y := py;
               fs_size_x := fs_size_x f; fs_size_y := fs_size_y f;
               fs_pos := vec2_set (get px) (get py);
               fs_size := aspected_size (snd kv) |}
        | None => f (* not reached: the map is not empty *)
        end
    | GROUP =>
        let '(min, max) := group_bounds predicted in
        let center := vec2_divf (vec2_add min max) 2 in
        let px := filter (fs_pos_x f) (x center) in
        let py := filter (fs_pos_y f) (y center) in
        let size := vec2_sub max min in
        let sx := filter (fs_size_x f) (x size) in
        let sy := filter (fs_size_y f) (y size) in
        {| fs_pos_x := px; fs_pos_y := py; fs_size_x := sx; fs_size_y := sy;
           fs_pos := vec2_set (get px) (get py);
           fs_size := vec2_set (get sx) (get sy) |}
    end
  else
    let px := filter (fs_pos_x f) (uint_to_float (fst _size) / 2) in
    let py := filter (fs_pos_y f) (uint_to_float (snd _size) / 2) in
    let sx := filter (fs_size_x f) (uint_to_float (fst _size)) in
    let sy := filter (fs_size_y f) (uint_to_float (snd _size)) in
    {| fs_pos_x := px; fs_pos_y := py; fs_size_x := sx; fs_size_y := sy;
       fs_pos := vec2_set (get px) (get py);
       fs_size := vec2_set (get sx) (get sy) |}.

Definition corrected_frame (_size : N * N) (_frame_aspect_ratio : float)
    (f : frame_state) : frame_state :=
  let '(p, sz) := aspect_correction _size _frame_aspect_ratio (fs_pos f) (fs_size f) in
  {| fs_pos_x := fs_pos_x f; fs_pos_y := fs_pos_y f;
     fs_size_x := fs_size_x f; fs_size_y := fs_size_y f;
     fs_pos := p; fs_size := sz |}.

(** The state after the first two blocks of [tracking_tick]: ageing, then
    the update of the predicted elements of the tracks that are left. *)
Definition predicted_tick (s : autoframing_instance) (seconds : float) : autoframing_instance :=
  let '(tracked, predicted) :=
    age_and_evict seconds (age_threshold (_track_frequency s))
      (_tracked_elements s) (_predicted_elements s) in
  set_tracking s tracked (update_predicted s seconds tracked predicted).

Definition tracking_tick (s : autoframing_instance) (seconds : float) : autoframing_instance :=
  let s := predicted_tick s seconds in
  let f := frame_candidate (_size s) (_track_mode s) (_predicted_elements s) (frame_of s) in
  let f := corrected_frame (_size s) (_frame_aspect_ratio s) f in
  set_frame s f (_track_frequency_counter s + seconds).

(** ** [nvar_facedetection_process] *)

Record vec4 : Type := Vec4 { rect_x : float; rect_y : float; rect_z : float; rect_w : float }.

(** One box of the detector, as [_nvidia_fx->at(idx, confidence)] gives it,
    with the address that [std::make_shared<track_el>()] returns for its
    potential match. *)
Record detection : Type := Detection {
  det_rect : vec4;
  det_confidence : float;
  det_addr : ptr
}.

Section Detection.

(** [sqrtf] of the C library. *)
Variable sqrtf : float -> float.

(** libobs [vec2_dist]: the length of the difference. *)
Definition vec2_dist (v1 v2 : vec2) : float :=
  let temp := vec2_sub v1 v2 in
  sqrtf (x temp * x temp + y temp * y temp).

(** "Frames may not move more than this distance." *)
Definition max_distance (_size : N * N) (_track_frequency : fval) : fval :=
  let max_dst :=
    sqrtf (uint_to_float (uint32_mul (fst _size) (fst _size))
           + uint_to_float (uint32_mul (snd _size) (snd _size))) * (667 # 1000) in
  fmul (Fin max_dst) (fdiv (Fin 1) (fsub (Fin 1) _track_frequency)).

(** "Create potential match". *)
Definition potential_match (d : detection) : ptr * track_el :=
  let rect := det_rect d in
  let confidence := det_confidence d in
  (det_addr d,
   {| pos := {| x := rect_x rect + rect_z rect / 2; y := rect_y rect + rect_w rect / 2 |};
      size := vec2_set (rect_z rect) (rect_w rect);
      vel := vec2_set 0 0;
      age := 0;
      confidence := if Qltb 1 confidence then 1 else confidence |}).

(** The first loop: the boxes with enough confidence, in detector order. *)
Fixpoint collect_boxes (detections : list detection) : tracked_list :=
  match detections with
  | [] => []
  | d :: rest =>
      if Qltb (det_confidence d) (1 # 2)
      then collect_boxes rest
      else potential_match d :: collect_boxes rest
  end.

(** The inner [while] loop over [boxes]: [m] is the pair
    ([match_dst], [match_iter]), [idx] the position of the iterator. *)
Fixpoint scan_boxes (el : track_el) (max_dst : fval) (boxes : tracked_list)
    (idx : nat) (m : fval * option nat) : fval * option nat :=
  match boxes with
  | [] => m
  | box :: rest =>
      let dst := vec2_dist (pos (snd box)) (pos el) in
      let m := if flt (Fin dst) (fst m) && flt (Fin dst) max_dst
               then (Fin dst, Some idx) else m in
      scan_boxes el max_dst rest (S idx) m
  end.

(** [boxes.erase(match_iter)]. *)
Fixpoint erase_at {A : Type} (idx : nat) (l : list A) : list A :=
  match l, idx with
  | [], _ => []
  | _ :: rest, O => rest
  | a :: rest, S idx => a :: erase_at idx rest
  end.

(** "Update information." *)
Definition matched (el match_ : track_el) : track_el :=
  {| pos := pos match_;
     size := size match_;
     vel := vec2_sub (pos el) (pos match_);
     age := 0;
     confidence := confidence match_ |}.

(** The body of the loop over [_tracked_elements] for one element. *)
Definition match_element (max_dst : fval) (el : track_el) (boxes : tracked_list)
    : track_el * tracked_list :=
  match snd (scan_boxes el max_dst boxes 0 (max_dst, None)) with
  | Some idx =>
      match nth_error boxes idx with
      | Some match_ => (matched el (snd match_), erase_at idx boxes)
      | None => (el, boxes)
      end
  | None => (el, boxes)
  end.

(** The loop over [_tracked_elements]: the elements are updated in place
    and in order, the unmatched boxes are handed on. *)
Fixpoint associate (max_dst : fval) (tracked boxes : tracked_list)
    : tracked_list * tracked_list :=
  match tracked with
  | [] => ([], boxes)
  | (p, el) :: rest =>
      let '(el, boxes) := match_element max_dst el boxes in
      let '(rest, boxes) := associate max_dst rest boxes in
      ((p, el) :: rest, boxes)
  end.

(** [detections] lists [at(0)], ..., [at(count() - 1)] after
    [_nvidia_fx->process]. *)
Definition nvar_facedetection_process (s : autoframing_instance)
    (detections : list detection) : autoframing_instance :=
  match _nvidia_fx s with
  | None => s
  | Some _ =>
      let max_dst := max_distance (_size s) (_track_frequency s) in
      if (0 <? length detections)%nat then
        let boxes := collect_boxes detections in
        let '(tracked, boxes) := associate max_dst (_tracked_elements s) boxes in
        set_tracking s (tracked ++ boxes) (_predicted_elements s)
      else s
  end.

(** What the inner loop has established after the boxes [done]: either
    no box was within [max_dst], or the box at [match_iter] is within
    [max_dst] and nearest among [done]. *)
Definition scan_invariant (el : track_el) (max_dst : fval) (done : tracked_list)
    (m : fval * option nat) : Prop :=
  match snd m with
  | None =>
      fst m = max_dst /\
      forall b, In b done -> flt (Fin (vec2_dist (pos (snd b)) (pos el))) max_dst = false
  | Some idx =>
      exists box,
        nth_error done idx = Some box /\
        fst m = Fin (vec2_dist (pos (snd box)) (pos el)) /\
        flt (Fin (vec2_dist (pos (snd box)) (pos el))) max_dst = true /\
        forall b, In b done ->
          vec2_dist (pos (snd box)) (pos el) <= vec2_dist (pos (snd b)) (pos el)
  end.

(** What the loop over [_tracked_elements] establishes on the list
    [boxes]: the tracks are taken in order; a track takes the box of the
    pool at the smallest distance when that distance is below [max_dst],
    and the pool goes on without the box at that position; otherwise the
    track and the pool stay as they are. *)
Inductive associated (max_dst : fval)
    : tracked_list -> tracked_list -> tracked_list -> tracked_list -> Prop :=
| associated_done (pool : tracked_list) :
    associated max_dst [] pool [] pool
| associated_accept (p : ptr) (el : track_el) (rest pool : tracked_list)
    (idx : nat) (box : ptr * track_el) (rest' pool' : tracked_list) :
    nth_error pool idx = Some box ->
    flt (Fin (vec2_dist (pos (snd box)) (pos el))) max_dst = true ->
    (forall b, In b pool ->
       vec2_dist (pos (snd box)) (pos el) <= vec2_dist (pos (snd b)) (pos el)) ->
    associated max_dst rest (erase_at idx pool) rest' pool' ->
    associated max_dst ((p, el) :: rest) pool
      ((p, {| pos := pos (snd box);
              size := size (snd box);
              vel := vec2_sub (pos el) (pos (snd box));
              age := 0;
              confidence := confidence (snd box) |}) :: rest')
      pool'
| associated_keep (p : ptr) (el : track_el) (rest pool rest' pool' : tracked_list) :
    (forall b, In b pool ->
       flt (Fin (vec2_dist (pos (snd b)) (pos el))) max_dst = false) ->
    associated max_dst rest pool rest' pool' ->
    associated max_dst ((p, el) :: rest) pool ((p, el) :: rest') pool'.

(** Modelled from the spec: the centroid of a detection, the centre of its
    rectangle (corner [x], [y], extent [z], [w]); its size; and its
    confidence, which is limited to 1. *)
Definition centroid (d : detection) : vec2 :=
  {| x := rect_x (det_rect d) + rect_z (det_rect d) / 2;
     y := rect_y (det_rect d) + rect_w (det_rect d) / 2 |}.

Definition extent (d : detection) : vec2 :=
  {| x := rect_z (det_rect d); y := rect_w (det_rect d) |}.

Definition limited_confidence (d : detection) : float :=
  if Qltb 1 (det_confidence d) then 1 else det_confidence d.

(** Modelled from the spec: the centroid distance of a detection and a
    track, the Euclidean distance of the centroid and the track's
    position. *)
Definition centroid_distance (d : detection) (el : track_el) : float :=
  sqrtf ((x (centroid d) - x (pos el)) * (x (centroid d) - x (pos el))
         + (y (centroid d) - y (pos el)) * (y (centroid d) - y (pos el))).

(** Modelled from the spec: the detections that enter the unmatched pool,
    those with a confidence of at least one half, in detector order. *)
Definition confident (detections : list detection) : list detection :=
  List.filter (fun d => Qle_bool (1 # 2) (det_confidence d)) detections.

(** Modelled from the spec: the assignment of detections to tracks.  The
    tracks are taken in order, each against the pool of the detections
    that no earlier track has taken.  A track takes a detection [d] of the
    pool whose centroid distance is the smallest of the pool when that
    distance is strictly below [max_dst]: position and size become the
    detection's, the velocity the old position minus the new one, the age
    0, the confidence the detection's, and the pool goes on without [d].
    When no detection of the pool is strictly below [max_dst], the track
    and the pool stay as they are. *)
Inductive assigned (max_dst : fval)
    : tracked_list -> list detection -> tracked_list -> list detection -> Prop :=
| assigned_done (pool : list detection) :
    assigned max_dst [] pool [] pool
| assigned_accept (p : ptr) (el : track_el) (rest : tracked_list)
    (before : list detection) (d : detection) (after : list detection)
    (rest' : tracked_list) (pool' : list detection) :
    flt (Fin (centroid_distance d el)) max_dst = true ->
    (forall d', In d' (before ++ d :: after) ->
       centroid_distance d el <= centroid_distance d' el) ->
    assigned max_dst rest (before ++ after) rest' pool' ->
    assigned max_dst ((p, el) :: rest) (before ++ d :: after)
      ((p, {| pos := centroid d;
              size := extent d;
              vel := {| x := x (pos el) - x (centroid d);
                        y := y (pos el) - y (centroid d) |};
              age := 0;
              confidence := limited_confidence d |}) :: rest')
      pool'
| assigned_keep (p : ptr) (el : track_el) (rest : tracked_list)
    (pool : list detection) (rest' : tracked_list) (pool' : list detection) :
    (forall d, In d pool -> flt (Fin (centroid_distance d el)) max_dst = false) ->
    assigned max_dst rest pool rest' pool' ->
    assigned max_dst ((p, el) :: rest) pool ((p, el) :: rest') pool'.

(** Modelled from the spec: the tracked element that a detection left
    unmatched becomes, at the address that the allocator gave it. *)
Definition new_track (d : detection) : ptr * track_el :=
  (det_addr d,
   {| pos := centroid d; size := extent d; vel := {| x := 0; y := 0 |};
      age := 0; confidence := limited_confidence d |}).

End Detection.

(** ** [update] *)

(** [strchr]: the suffix that starts at the first occurrence of [c]. *)
Fixpoint strchr (text : string) (c : ascii) : option string :=
  match text with
  | EmptyString => None
  | String a rest => if Ascii.eqb a c then Some text else strchr rest c
  end.

(** The settings that [update] reads: the tracking mode, the frequency
    text ([None] for a null pointer) and the three percentages; for the
    blocks "Padding", "Offset" and "Aspect Ratio", which parse texts of
    their own, the values that these blocks store. *)
Record obs_data : Type := ObsData {
  Tracking_Mode : tracking_mode;
  Tracking_Frequency : option string;
  Motion_Prediction : float;
  Motion_Smoothing : float;
  Framing_Stability : float;
  Framing_Padding : (bool * bool) * vec2;
  Framing_Offset : (bool * bool) * vec2;
  Framing_AspectRatio : float
}.

Section Settings.

(** [sscanf(text, "%f", &value) == 1] of the C library: the value that was
    converted, if one was. *)
Variable sscanf_f : string -> option fval.

(** [streamfx::util::math::lerp<float>], declared outside the sources. *)
Variable lerp : float -> float -> float -> float.

(** The value stored to [_track_frequency] for a frequency text. *)
Definition parse_frequency (text : string) : fval :=
  let value := Fin 0 in
  match sscanf_f text with
  | Some value =>
      match strchr text "s" with
      | None => fdiv (Fin 1) value (* Hz -> seconds *)
      | Some _ => value
      end
  | None => value
  end.

(** A filter regenerated with new noise parameters. *)
Definition regenerate (pnc mnc : float) (k : kalman1D) : kalman1D :=
  construct pnc mnc ST_KALMAN_EEC (get k).

(** "Regenerate filters." *)
Definition regenerate_pred (pnc mnc : float) (pred : pred_el) : pred_el :=
  {| filter_pos_x := regenerate pnc mnc (filter_pos_x pred);
     filter_pos_y := regenerate pnc mnc (filter_pos_y pred);
     filter_size_x := regenerate pnc mnc (filter_size_x pred);
     filter_size_y := regenerate pnc mnc (filter_size_y pred);
     mp_pos := mp_pos pred;
     offset_pos := offset_pos pred;
     pad_size := pad_size pred;
     aspected_size := aspected_size pred |}.

(** [update].  The blocks "Tracking", "Motion" and "Framing / Smoothing"
    are embedded as they are written; the members of the blocks "Padding",
    "Offset" and "Aspect Ratio" receive the values given in [data], which
    [framing_settings] below computes from the texts of the settings; the
    provider block is [update_provider] below, and [update_all] runs it
    after this part. *)
Definition update (s : autoframing_instance) (data : obs_data) : autoframing_instance :=
  let motion_smoothing := Motion_Smoothing data / 100 in
  let pnc := lerp 1 (1 # 100000) motion_smoothing in
  let mnc := lerp (1 # 1000) 1000 motion_smoothing in
  let frame_stability := Framing_Stability data / 100 in
  let frame_stability_kalman := lerp 1 (1 # 100000) frame_stability in
  {| _size := _size s;
     _provider := _provider s;
     _provider_ready := _provider_ready s;
     _nvidia_fx := _nvidia_fx s;
     _track_mode := Tracking_Mode data;
     _track_frequency :=
       match Tracking_Frequency data with
       | Some text => parse_frequency text
       | None => _track_frequency s
       end;
     _motion_smoothing := motion_smoothing;
     _motion_smoothing_kalman_pnc := pnc;
     _motion_smoothing_kalman_mnc := mnc;
     _motion_prediction := Motion_Prediction data / 100;
     _frame_stability := frame_stability;
     _frame_stability_kalman := frame_stability_kalman;
     _frame_padding_prc := fst (Framing_Padding data);
     _frame_padding := snd (Framing_Padding data);
     _frame_offset_prc := fst (Framing_Offset data);
     _frame_offset := snd (Framing_Offset data);
     _frame_aspect_ratio := Framing_AspectRatio data;
     _track_frequency_counter := 0;
     _tracked_elements := _tracked_elements s;
     _predicted_elements := PtrMap.map (regenerate_pred pnc mnc) (_predicted_elements s);
     _frame_pos_x := regenerate frame_stability_kalman 1 (_frame_pos_x s);
     _frame_pos_y := regenerate frame_stability_kalman 1 (_frame_pos_y s);
     _frame_size_x := regenerate frame_stability_kalman 1 (_frame_size_x s);
     _frame_size_y := regenerate frame_stability_kalman 1 (_frame_size_y s);
     _frame_pos := _frame_pos s;
     _frame_size := _frame_size s;
     log := log s |}.

End Settings.

(** What [get] reads from the four filters of a predicted element, and the
    parameters of those filters. *)
Definition estimates (pred : pred_el) : float * float * float * float :=
  (get (filter_pos_x pred), get (filter_pos_y pred),
   get (filter_size_x pred), get (filter_size_y pred)).

Definition noise_of (k : kalman1D) : float * float * float :=
  (processNoiseCovariance k, measurementNoiseCovariance k, errorCovariance k).

Definition noises (pred : pred_el) : list (float * float * float) :=
  [noise_of (filter_pos_x pred); noise_of (filter_pos_y pred);
   noise_of (filter_size_x pred); noise_of (filter_size_y pred)].

(** ** Switching the provider *)

(** An object of a class derived from [std::exception]. *)
Record std_exception : Type := StdException { what : string }.

(** What a [throw] of the backend carries: the code of the backend is not
    among the sources, so it may be a [std::exception] or an object of any
    other type. *)
Inductive exception : Type :=
| Std (ex : std_exception)
| Other.

(** What the backend does when it is driven: the outcome of constructing a
    [facedetection], of destroying one and of setting its tracking limit. *)
Record backend : Type := Backend {
  make_facedetection : exception + facedetection;
  destroy_facedetection : facedetection -> option exception;
  set_tracking_limit : facedetection -> N -> exception + facedetection
}.

(** Computations on the instance that return or throw; the writes made
    before a throw stay. *)
Definition M (A : Type) : Type :=
  autoframing_instance -> (exception + A) * autoframing_instance.

Definition ret {A : Type} (a : A) : M A := fun s => (inr a, s).

Definition throw {A : Type} (ex : exception) : M A := fun s => (inl ex, s).

Definition bind {A B : Type} (c : M A) (k : A -> M B) : M B :=
  fun s =>
    match c s with
    | (inr a, s) => k a s
    | (inl ex, s) => (inl ex, s)
    end.

Notation "v <- c ;; k" := (bind c (fun v => k))
  (at level 61, c at next level, right associativity).
Notation "c ;;; k" := (bind c (fun _ => k))
  (at level 61, right associativity).

(** [try { body } catch (std::exception const& ex) { handler }]: what is
    thrown and is not a [std::exception] passes through the handler. *)
Definition try_catch (body : M unit) (handler : std_exception -> M unit) : M unit :=
  fun s =>
    match body s with
    | (inr a, s) => (inr a, s)
    | (inl (Std ex), s) => handler ex s
    | (inl Other, s) => (inl Other, s)
    end.

Definition read : M autoframing_instance := fun s => (inr s, s).

Definition modify (f : autoframing_instance -> autoframing_instance) : M unit :=
  fun s => (inr tt, f s).

Definition lift {A : Type} (r : exception + A) : M A :=
  fun s => (r, s).

Definition set_provider_state (s : autoframing_instance) (provider : tracking_provider)
    (ready : bool) (fx : option facedetection) (mode : tracking_mode)
    (lines : list log_line) : autoframing_instance :=
  {| _size := _size s; _provider := provider; _provider_ready := ready;
     _nvidia_fx := fx; _track_mode := mode;
     _track_frequency := _track_frequency s; _motion_smoothing := _motion_smoothing s;
     _motion_smoothing_kalman_pnc := _motion_smoothing_kalman_pnc s;
     _motion_smoothing_kalman_mnc := _motion_smoothing_kalman_mnc s;
     _motion_prediction := _motion_prediction s; _frame_stability := _frame_stability s;
     _frame_stability_kalman := _frame_stability_kalman s;
     _frame_padding_prc := _frame_padding_prc s; _frame_padding := _frame_padding s;
     _frame_offset_prc := _frame_offset_prc s; _frame_offset := _frame_offset s;
     _frame_aspect_ratio := _frame_aspect_ratio s;
     _track_frequency_counter := _track_frequency_counter s;
     _tracked_elements := _tracked_elements s;
     _predicted_elements := _predicted_elements s;
     _frame_pos_x := _frame_pos_x s; _frame_pos_y := _frame_pos_y s;
     _frame_size_x := _frame_size_x s; _frame_size_y := _frame_size_y s;
     _frame_pos := _frame_pos s; _frame_size := _frame_size s; log := lines |}.

Definition set_provider_ready (ready : bool) : M unit :=
  modify (fun s => set_provider_state s (_provider s) ready (_nvidia_fx s) (_track_mode s) (log s)).

Definition set_nvidia_fx (fx : option facedetection) : M unit :=
  modify (fun s => set_provider_state s (_provider s) (_provider_ready s) fx (_track_mode s) (log s)).

Definition set_track_mode (mode : tracking_mode) : M unit :=
  modify (fun s => set_provider_state s (_provider s) (_provider_ready s) (_nvidia_fx s) mode (log s)).

Definition write_log (line : log_line) : M unit :=
  modify (fun s => set_provider_state s (_provider s) (_provider_ready s) (_nvidia_fx s)
                    (_track_mode s) (log s ++ [line])).

Section Provider.

Variable B : backend.

Definition nvar_facedetection_update : M unit :=
  s <- read ;;
  match _nvidia_fx s with
  | None => ret tt
  | Some fx =>
      match _track_mode s with
      | SOLO =>
          fx <- lift (set_tracking_limit B fx 1) ;;
          set_nvidia_fx (Some fx) ;;;
          if negb (is_temporal fx) then set_track_mode GROUP else ret tt
      | GROUP =>
          fx <- lift (set_tracking_limit B fx (snd (tracking_limit_range fx))) ;;
          set_nvidia_fx (Some fx)
      end
  end.

Definition nvar_facedetection_load : M unit :=
  fx <- lift (make_facedetection B) ;;
  set_nvidia_fx (Some fx) ;;;
  nvar_facedetection_update.

(** [_nvidia_fx.reset()]. *)
Definition nvar_facedetection_unload : M unit :=
  s <- read ;;
  match _nvidia_fx s with
  | None => ret tt
  | Some fx =>
      set_nvidia_fx None ;;;
      match destroy_facedetection B fx with
      | Some ex => throw ex
      | None => ret tt
      end
  end.

(** "Unload the previous provider", then "Load the new provider". *)
Definition unload_and_load (spd_provider : tracking_provider) : M unit :=
  match spd_provider with
  | NVIDIA_FACEDETECTION => nvar_facedetection_unload
  | _ => ret tt
  end ;;;
  s <- read ;;
  match _provider s with
  | NVIDIA_FACEDETECTION => nvar_facedetection_load
  | _ => ret tt
  end.

Definition failed_switching (ex : std_exception) : log_line :=
  LOG_ERROR ("failed switching provider with error: " ++ what ex).

(** The task body, run under [_provider_lock]; [spd_provider] is the
    provider recorded in the task data, the one to unload. *)
Definition task_switch_provider (spd_provider : tracking_provider) : M unit :=
  set_provider_ready false ;;;
  try_catch
    (unload_and_load spd_provider ;;;
     write_log (LOG_INFO "switched provider") ;;;
     set_provider_ready true)
    (fun ex => write_log (failed_switching ex)).

(** [switch_provider], with the task run to completion: the threadpool
    and the cancellation of a pending task are not embedded. *)
Definition switch_provider (provider : tracking_provider) : M unit :=
  s <- read ;;
  match provider, _provider s with
  | INVALID, INVALID | AUTOMATIC, AUTOMATIC
  | NVIDIA_FACEDETECTION, NVIDIA_FACEDETECTION => ret tt
  | _, _ =>
      write_log (LOG_INFO "is switching provider") ;;;
      modify (fun s => set_provider_state s provider (_provider_ready s) (_nvidia_fx s)
                        (_track_mode s) (log s)) ;;;
      task_switch_provider (_provider s)
  end.

End Provider.

(** Computations that leave a part [proj] of the instance alone. *)
Definition keeps {A X : Type} (proj : autoframing_instance -> X) (c : M A) : Prop :=
  forall s, proj (snd (c s)) = proj s.

(** The tracked elements with the predicted elements. *)
Definition tracking_of (s : autoframing_instance) : tracked_list * predicted_map :=
  (_tracked_elements s, _predicted_elements s).

(** The guard at the head of [video_render]: "Skip the filter if the
    provider isn't ready yet, we don't have a target, the width/height of
    the next filter in the chain is empty."  [true] stands for
    [obs_source_skip_video_filter] followed by [return]. *)
Definition video_render_skips (s : autoframing_instance) (target : bool)
    (width height : N) : bool :=
  negb (_provider_ready s) || negb target || (width =? 0)%N || (height =? 0)%N.

(** ** The callbacks that drive the instance *)

Definition set_size_counter (s : autoframing_instance) (sz : N * N) (counter : float)
    : autoframing_instance :=
  {| _size := sz; _provider := _provider s; _provider_ready := _provider_ready s;
     _nvidia_fx := _nvidia_fx s; _track_mode := _track_mode s;
     _track_frequency := _track_frequency s; _motion_smoothing := _motion_smoothing s;
     _motion_smoothing_kalman_pnc := _motion_smoothing_kalman_pnc s;
     _motion_smoothing_kalman_mnc := _motion_smoothing_kalman_mnc s;
     _motion_prediction := _motion_prediction s; _frame_stability := _frame_stability s;
     _frame_stability_kalman := _frame_stability_kalman s;
     _frame_padding_prc := _frame_padding_prc s; _frame_padding := _frame_padding s;
     _frame_offset_prc := _frame_offset_prc s; _frame_offset := _frame_offset s;
     _frame_aspect_ratio := _frame_aspect_ratio s;
     _track_frequency_counter := counter;
     _tracked_elements := _tracked_elements s;
     _predicted_elements := _predicted_elements s;
     _frame_pos_x := _frame_pos_x s; _frame_pos_y := _frame_pos_y s;
     _frame_size_x := _frame_size_x s; _frame_size_y := _frame_size_y s;
     _frame_pos := _frame_pos s; _frame_size := _frame_size s; log := log s |}.

(** [video_tick]: the size of the target is stored, then the tracking is
    updated ([_out_size] and [_dirty] are not embedded). *)
Definition video_tick (s : autoframing_instance) (width height : N) (seconds : float)
    : autoframing_instance :=
  tracking_tick (set_size_counter s (width, height) (_track_frequency_counter s)) seconds.

(** The block "Lock & Process the captured input with the provider" of
    [video_render], reached when the filter is not skipped. *)
Definition video_render_track (sqrtf : float -> float) (s : autoframing_instance)
    (detections : list detection) : autoframing_instance :=
  if fge (Fin (_track_frequency_counter s)) (_track_frequency s) then
    let s := set_size_counter s (_size s) 0 in
    match _provider s with
    | NVIDIA_FACEDETECTION => nvar_facedetection_process sqrtf s detections
    | _ => s
    end
  else s.

(** The addresses of new tracks are distinct and not those of live tracks. *)
Definition fresh_addresses (s : autoframing_instance) (detections : list detection) : Prop :=
  NoDup (map det_addr detections) /\
  forall d, In d detections -> ~ In (det_addr d) (map fst (_tracked_elements s)).

Section Run.

Variable sqrtf : float -> float.
Variable sscanf_f : string -> option fval.
Variable lerp : float -> float -> float -> float.

(** One callback of the host on the instance. *)
Inductive step (s : autoframing_instance) : autoframing_instance -> Prop :=
| step_update (data : obs_data) :
    step s (update sscanf_f lerp s data)
| step_switch (B : backend) (provider : tracking_provider) :
    step s (snd (switch_provider B provider s))
| step_tick (width height : N) (seconds : float) :
    step s (video_tick s width height seconds)
| step_render (detections : list detection) :
    fresh_addresses s detections ->
    step s (video_render_track sqrtf s detections).

(** The states the instance can be observed in, between two callbacks. *)
Inductive reachable : autoframing_instance -> Prop :=
| reachable_initial : reachable initial_instance
| reachable_step (s s' : autoframing_instance) :
    reachable s -> step s s' -> reachable s'.

End Run.

(** The keys of the predicted map are exactly the live tracks. *)
Definition companions_exact (s : autoframing_instance) : Prop :=
  forall p : ptr,
    PtrMap.In p (_predicted_elements s) <-> In p (map fst (_tracked_elements s)).

(** Every key of the predicted map is a live track. *)
Definition no_dangling_prediction (s : autoframing_instance) : Prop :=
  forall p : ptr,
    PtrMap.In p (_predicted_elements s) -> In p (map fst (_tracked_elements s)).

(** ** Concrete instances of the library functions, for the examples *)

(** A square root rounded down to a multiple of [1 / (den * 2^16)]. *)
Definition sqrtf_floor (q : float) : float :=
  Qmake (Z.sqrt (Qnum q * Zpos (Qden q) * 2 ^ 32)) (Qden q * 2 ^ 16).

Definition lerp_linear (a b v : float) : float := a * (1 - v) + b * v.

Definition digit_of (c : ascii) : option Z :=
  let n := Z.of_nat (nat_of_ascii c) in
  if (48 <=? n)%Z && (n <=? 57)%Z then Some (n - 48)%Z else None.

(** Leading digits of [text] added to [acc]; the number of digits read. *)
Fixpoint read_digits (text : string) (acc : Z) (count : nat) : Z * nat * string :=
  match text with
  | EmptyString => (acc, count, text)
  | String c rest =>
      match digit_of c with
      | Some d => read_digits rest (acc * 10 + d)%Z (S count)
      | None => (acc, count, text)
      end
  end.

Fixpoint skip_spaces (text : string) : string :=
  match text with
  | String " " rest => skip_spaces rest
  | _ => text
  end.

(** The decimal inputs of [sscanf("%f")]: blanks, a sign, digits with an
    optional fraction. *)
Definition sscanf_decimal (text : string) : option fval :=
  let text := skip_spaces text in
  let '(negative, text) :=
    match text with
    | String "-" rest => (true, rest)
    | String "+" rest => (false, rest)
    | _ => (false, text)
    end in
  let '(int_part, n_int, text) := read_digits text 0 0 in
  let '(num, n_frac) :=
    match text with
    | String "." rest =>
        let '(num, n_frac, _) := read_digits rest int_part 0 in (num, n_frac)
    | _ => (int_part, O)
    end in
  if (n_int + n_frac =? 0)%nat then None
  else
    let q := inject_Z num / inject_Z (10 ^ Z.of_nat n_frac) in
    Some (Fin (if negative then - q else q)).

(** ** Example states *)

(** One track near the top of a 100 x 100 frame, framed alone with a
    padding of -25 pixels and an offset of -130 pixels on the vertical
    axis. *)
Definition shrunk_instance : autoframing_instance :=
  {| _size := (100, 100)%N;
     _provider := NVIDIA_FACEDETECTION;
     _provider_ready := true;
     _nvidia_fx := Some {| tracking_limit := 1; tracking_limit_range := (1, 8)%N;
                           is_temporal := true |};
     _track_mode := SOLO;
     _track_frequency := Fin 1;
     _motion_smoothing := 0;
     _motion_smoothing_kalman_pnc := 1;
     _motion_smoothing_kalman_mnc := 1;
     _motion_prediction := 0;
     _frame_stability := 0;
     _frame_stability_kalman := 1;
     _frame_padding_prc := (false, false);
     _frame_padding := vec2_set (-25) (-25);
     _frame_offset_prc := (false, false);
     _frame_offset := vec2_set 0 (-130);
     _frame_aspect_ratio := 0;
     _track_frequency_counter := 0;
     _tracked_elements :=
       [(1%N, {| pos := vec2_set 50 30; size := vec2_set 40 40;
                 vel := vec2_set 0 0; age := 0; confidence := 1 |})];
     _predicted_elements := PtrMap.empty pred_el;
     _frame_pos_x := construct 1 1 1 1;
     _frame_pos_y := construct 1 1 1 1;
     _frame_size_x := construct 1 1 1 1;
     _frame_size_y := construct 1 1 1 1;
     _frame_pos := vec2_set 0 0;
     _frame_size := vec2_set 1 1;
     log := [] |}.

(** Two tracks at a tracking period of 1/20 s (threshold 10/19 s): one
    last matched 0.52 s ago, with a predicted element, and one just
    matched, moving, without one yet. *)
Definition old_track : track_el :=
  {| pos := vec2_set 300 200; size := vec2_set 80 80;
     vel := vec2_set 0 0; age := 52 # 100; confidence := 9 # 10 |}.

Definition young_track : track_el :=
  {| pos := vec2_set 900 500; size := vec2_set 120 120;
     vel := vec2_set (-6) 3; age := 0; confidence := 1 |}.

Definition two_tracks_instance : autoframing_instance :=
  {| _size := (1920, 1080)%N;
     _provider := NVIDIA_FACEDETECTION;
     _provider_ready := true;
     _nvidia_fx := Some {| tracking_limit := 8; tracking_limit_range := (1, 8)%N;
                           is_temporal := false |};
     _track_mode := GROUP;
     _track_frequency := Fin (1 # 20);
     _motion_smoothing := 1 # 2;
     _motion_smoothing_kalman_pnc := 1 # 2;
     _motion_smoothing_kalman_mnc := 500;
     _motion_prediction := 2;
     _frame_stability := 0;
     _frame_stability_kalman := 1;
     _frame_padding_prc := (true, true);
     _frame_padding := vec2_set (- (1 # 3)) (- (1 # 3));
     _frame_offset_prc := (false, false);
     _frame_offset := vec2_set 0 0;
     _frame_aspect_ratio := 0;
     _track_frequency_counter := 0;
     _tracked_elements := [(7%N, old_track); (3%N, young_track)];
     _predicted_elements :=
       PtrMap.add 7%N (new_pred_el (1 # 2) 500 old_track) (PtrMap.empty pred_el);
     _frame_pos_x := construct 1 1 1 960;
     _frame_pos_y := construct 1 1 1 540;
     _frame_size_x := construct 1 1 1 1920;
     _frame_size_y := construct 1 1 1 1080;
     _frame_pos := vec2_set 960 540;
     _frame_size := vec2_set 1920 1080;
     log := [] |}.

(** Two tracks framed alone, without padding, offset or configured aspect
    ratio; the track first in the list lives at the greater address. *)
Definition left_track : track_el :=
  {| pos := vec2_set 400 300; size := vec2_set 100 100;
     vel := vec2_set 0 0; age := 0; confidence := 1 |}.

Definition right_track : track_el :=
  {| pos := vec2_set 1200 600; size := vec2_set 200 200;
     vel := vec2_set 0 0; age := 0; confidence := 1 |}.

Definition solo_pair_instance : autoframing_instance :=
  {| _size := (1920, 1080)%N;
     _provider := NVIDIA_FACEDETECTION;
     _provider_ready := true;
     _nvidia_fx := Some {| tracking_limit := 1; tracking_limit_range := (1, 8)%N;
                           is_temporal := true |};
     _track_mode := SOLO;
     _track_frequency := Fin (1 # 20);
     _motion_smoothing := 0;
     _motion_smoothing_kalman_pnc := 1;
     _motion_smoothing_kalman_mnc := 1;
     _motion_prediction := 0;
     _frame_stability := 0;
     _frame_stability_kalman := 1;
     _frame_padding_prc := (false, false);
     _frame_padding := vec2_set 0 0;
     _frame_offset_prc := (false, false);
     _frame_offset := vec2_set 0 0;
     _frame_aspect_ratio := 0;
     _track_frequency_counter := 0;
     _tracked_elements := [(5%N, left_track); (3%N, right_track)];
     _predicted_elements := PtrMap.empty pred_el;
     _frame_pos_x := construct 1 1 1 960;
     _frame_pos_y := construct 1 1 1 540;
     _frame_size_x := construct 1 1 1 1920;
     _frame_size_y := construct 1 1 1 1080;
     _frame_pos := vec2_set 960 540;
     _frame_size := vec2_set 1920 1080;
     log := [] |}.

(** The settings of [get_defaults2]. *)
Definition default_settings : obs_data :=
  {| Tracking_Mode := SOLO;
     Tracking_Frequency := Some "20 Hz"%string;
     Motion_Prediction := 200;
     Motion_Smoothing := 33333 # 1000;
     Framing_Stability := 10;
     Framing_Padding := ((true, true), vec2_set (- (33333 # 100000)) (- (33333 # 100000)));
     Framing_Offset := ((true, true), vec2_set 0 (75 # 1000));
     Framing_AspectRatio := 0 |}.

(** A backend that loads, one whose construction throws, and the state
    after a switch to the first, a tick of one second and a detection pass
    that finds one face. *)
Definition working_backend : backend :=
  {| make_facedetection :=
       inr {| tracking_limit := 1; tracking_limit_range := (1, 8)%N; is_temporal := true |};
     destroy_facedetection := fun _ => None;
     set_tracking_limit := fun fx n =>
       inr {| tracking_limit := n;
              tracking_limit_range := tracking_limit_range fx;
              is_temporal := is_temporal fx |} |}.

Definition failing_backend : backend :=
  {| make_facedetection := inl (Std {| what := "Failed to create feature." |});
     destroy_facedetection := fun _ => None;
     set_tracking_limit := fun fx n => inr fx |}.


Definition one_face : list detection :=
  [{| det_rect := {| rect_x := 100; rect_y := 100; rect_z := 50; rect_w := 50 |};
      det_confidence := 9 # 10;
      det_addr := 4096%N |}].

Definition first_detection_state : autoframing_instance :=
  video_render_track sqrtf_floor
    (video_tick (snd (switch_provider working_backend NVIDIA_FACEDETECTION initial_instance))
       1920 1080 1)
    one_face.

(** Faces for [two_tracks_instance]: one at the right of the frame, one at
    the place of the old track, one at the bottom, and a box with too
    little confidence. *)
Definition two_faces : list detection :=
  [{| det_rect := {| rect_x := 1500; rect_y := 100; rect_z := 60; rect_w := 60 |};
      det_confidence := 8 # 10;
      det_addr := 8192%N |};
   {| det_rect := {| rect_x := 262; rect_y := 160; rect_z := 80; rect_w := 80 |};
      det_confidence := 12 # 10;
      det_addr := 8200%N |};
   {| det_rect := {| rect_x := 40; rect_y := 900; rect_z := 100; rect_w := 100 |};
      det_confidence := 7 # 10;
      det_addr := 8208%N |};
   {| det_rect := {| rect_x := 10; rect_y := 10; rect_z := 20; rect_w := 20 |};
      det_confidence := 4 # 10;
      det_addr := 8216%N |}].

(** The ratio 21:9 as the block "Aspect Ratio" of [update] stores it, and
    a padded box of height 7 whose width 16.333332 (8563370 * 2^-19) lies
    one unit in the last place below the float nearest to 49/3. *)
Definition ratio_21_9 : binary32 := b32_div (b32_of_uint 21) (b32_of_uint 9).

Definition narrow_pad : vec2_32 :=
  {| x32 := SpecFloat.S754_finite false 8563370 (-19); y32 := b32_of_uint 7 |}.

(** The whole of a source of 1680 x 800 as the candidate frame. *)
Definition full_frame_pos : vec2_32 := {| x32 := b32_of_uint 840; y32 := b32_of_uint 400 |}.
Definition full_frame_size : vec2_32 := {| x32 := b32_of_uint 1680; y32 := b32_of_uint 800 |}.

(** ** Further parts of the source *)

Definition fneg (a : fval) : fval :=
  match a with
  | Fin q => Fin (- q)
  | PInf => NInf
  | NInf => PInf
  | NaN => NaN
  end.

(** [text + 1] for a text that is not empty. *)
Definition string_tail (text : string) : string :=
  match text with
  | String _ rest => rest
  | EmptyString => text
  end.

Section FramingTexts.

Variable sscanf_f : string -> option fval.

(** One of the four blocks "Padding" and "Offset" of [update], for a text
    that is not null: the new percent flag ([prc] is the old one) and the
    value stored. *)
Definition parse_framing_value (prc : bool) (text : string) : bool * fval :=
  let value := Fin 0 in
  match sscanf_f text with
  | Some value =>
      match strchr text "%" with
      | Some _ => (true, fneg (fdiv value (Fin 100))) (* Flip sign, percent is negative. *)
      | None => (false, value)
      end
  | None => (prc, value)
  end.

(** The block "Aspect Ratio" of [update]: the value stored to
    [_frame_aspect_ratio]. *)
Definition parse_aspect_ratio (_size : N * N) (text : option string) : fval :=
  match text with
  | None => fdiv (Fin (uint_to_float (fst _size))) (Fin (uint_to_float (snd _size)))
  | Some text =>
      match strchr text ":" with
      | Some percent =>
          match sscanf_f text, sscanf_f (string_tail percent) with
          | Some left_, Some right_ => fdiv left_ right_
          | _, _ => Fin 0
          end
      | None =>
          match sscanf_f text with
          | Some value => value
          | None => Fin 0
          end
      end
  end.

End FramingTexts.

(** [provider_priority], [is_provider_available] and [find_ideal_provider]
    of the factory; [_nvidia_available] is the factory's flag. *)
Definition provider_priority : list tracking_provider := [NVIDIA_FACEDETECTION].

Definition is_provider_available (_nvidia_available : bool) (provider : tracking_provider)
    : bool :=
  match provider with
  | NVIDIA_FACEDETECTION => _nvidia_available
  | _ => false
  end.

(** The loop of [find_ideal_provider] over a priority list. *)
Fixpoint first_available (_nvidia_available : bool) (priority : list tracking_provider)
    : tracking_provider :=
  match priority with
  | [] => INVALID
  | v :: rest =>
      if is_provider_available _nvidia_available v then v
      else first_available _nvidia_available rest
  end.

Definition find_ideal_provider (_nvidia_available : bool) : tracking_provider :=
  first_available _nvidia_available provider_priority.

Definition provider_eqb (a b : tracking_provider) : bool :=
  match a, b with
  | INVALID, INVALID | AUTOMATIC, AUTOMATIC
  | NVIDIA_FACEDETECTION, NVIDIA_FACEDETECTION => true
  | _, _ => false
  end.

(** The block "Advanced / Provider" of [update], in a build with the
    NVIDIA code compiled in (the guards around the calls of this file name
    several macros; all are taken as defined).  [requested] is the provider
    of the settings; [_provider_ui] is not embedded.  The block has no
    handler: what [nvar_facedetection_update] throws leaves [update]. *)
Definition update_provider (B : backend) (_nvidia_available : bool)
    (requested : tracking_provider) : M unit :=
  let provider :=
    match requested with
    | AUTOMATIC => find_ideal_provider _nvidia_available
    | _ => requested
    end in
  s <- read ;;
  (if provider_eqb provider (_provider s) then ret tt else switch_provider B provider) ;;;
  s <- read ;;
  if _provider_ready s then
    match _provider s with
    | NVIDIA_FACEDETECTION => nvar_facedetection_update B
    | _ => ret tt
    end
  else ret tt.

(** The texts that the blocks "Padding", "Offset" and "Aspect Ratio" of
    [update] read ([None] for a null pointer). *)
Record framing_texts : Type := FramingTexts {
  Padding_X : option string;
  Padding_Y : option string;
  Offset_X : option string;
  Offset_Y : option string;
  AspectRatio : option string
}.

(** The number that a member of the embedding can hold. *)
Definition finite (v : fval) : option float :=
  match v with
  | Fin q => Some q
  | _ => None
  end.

Section Update.

Variable sscanf_f : string -> option fval.
Variable lerp : float -> float -> float -> float.

(** One of the four blocks "Padding" and "Offset" for one text: a null
    text leaves the flag and the member as they are. *)
Definition framing_block (prc : bool) (member : float) (text : option string)
    : bool * fval :=
  match text with
  | Some text => parse_framing_value sscanf_f prc text
  | None => (prc, Fin member)
  end.

(** The settings with what the blocks "Padding", "Offset" and "Aspect
    Ratio" store for the texts: [None] when a text converts to an infinity
    or to NaN, or when the quotient of the aspect ratio has the divisor 0,
    values that the members of the embedding, rationals, do not hold. *)
Definition framing_settings (s : autoframing_instance) (data : obs_data)
    (texts : framing_texts) : option obs_data :=
  let padding_x :=
    framing_block (fst (_frame_padding_prc s)) (x (_frame_padding s)) (Padding_X texts) in
  let padding_y :=
    framing_block (snd (_frame_padding_prc s)) (y (_frame_padding s)) (Padding_Y texts) in
  let offset_x :=
    framing_block (fst (_frame_offset_prc s)) (x (_frame_offset s)) (Offset_X texts) in
  let offset_y :=
    framing_block (snd (_frame_offset_prc s)) (y (_frame_offset s)) (Offset_Y texts) in
  match finite (snd padding_x), finite (snd padding_y),
        finite (snd offset_x), finite (snd offset_y),
        finite (parse_aspect_ratio sscanf_f (_size s) (AspectRatio texts)) with
  | Some px, Some py, Some ox, Some oy, Some ratio =>
      Some {| Tracking_Mode := Tracking_Mode data;
              Tracking_Frequency := Tracking_Frequency data;
              Motion_Prediction := Motion_Prediction data;
              Motion_Smoothing := Motion_Smoothing data;
              Framing_Stability := Framing_Stability data;
              Framing_Padding := ((fst padding_x, fst padding_y), {| x := px; y := py |});
              Framing_Offset := ((fst offset_x, fst offset_y), {| x := ox; y := oy |});
              Framing_AspectRatio := ratio |}
  | _, _, _, _, _ => None
  end.

(** [update] up to the provider block, from the texts of the settings. *)
Definition update_texts (s : autoframing_instance) (data : obs_data)
    (texts : framing_texts) : option autoframing_instance :=
  option_map (update sscanf_f lerp s) (framing_settings s data texts).

(** [update] with its provider block: the settings are stored, then the
    block "Advanced / Provider" runs. *)
Definition update_all (B : backend) (_nvidia_available : bool) (data : obs_data)
    (requested : tracking_provider) : M unit :=
  modify (fun s => update sscanf_f lerp s data) ;;;
  update_provider B _nvidia_available requested.

End Update.

(** The states that ticks of non-negative duration and renders that
    capture their input reach from [s]. *)
Inductive runs (sqrtf : float -> float) (s : autoframing_instance)
    : autoframing_instance -> Prop :=
| runs_start : runs sqrtf s s
| runs_tick (s' : autoframing_instance) (width height : N) (seconds : float) :
    runs sqrtf s s' -> 0 <= seconds ->
    runs sqrtf s (video_tick s' width height seconds)
| runs_render (s' : autoframing_instance) (detections : list detection) :
    runs sqrtf s s' ->
    runs sqrtf s (video_render_track sqrtf s' detections).

(** The members of the instance that the callbacks below use besides those
    of [autoframing_instance]. *)
Record filter_members : Type := Members {
  inst : autoframing_instance;
  _out_size : N * N;
  _dirty : bool;
  _debug : bool
}.

Definition UINT32_MAX : N := 4294967295.

(** "Calculate output size for aspect ratio."  The operand of the
    [static_cast<uint32_t>] is a comma expression: the rounded product is
    evaluated and dropped, then 0, and the value of the cast is
    [std::numeric_limits<uint32_t>::max()]. *)
Definition output_size (_frame_aspect_ratio : float) (width height : N) : N * N :=
  let _out_size := (width, height) in
  if Qltb 0 _frame_aspect_ratio then
    if (height <? width)%N
    then (UINT32_MAX, snd _out_size)
    else (fst _out_size, UINT32_MAX)
  else _out_size.

(** [video_tick] on all the members. *)
Definition video_tick_members (m : filter_members) (width height : N) (seconds : float)
    : filter_members :=
  {| inst := video_tick (inst m) width height seconds;
     _out_size := output_size (_frame_aspect_ratio (inst m)) width height;
     _dirty := true;
     _debug := _debug m |}.

Definition get_width (m : filter_members) : N :=
  if _debug m then N.max (fst (_size (inst m))) 1 else N.max (fst (_out_size m)) 1.

Definition get_height (m : filter_members) : N :=
  if _debug m then N.max (snd (_size (inst m))) 1 else N.max (snd (_out_size m)) 1.

Inductive render_outcome : Type :=
| FILTER_SKIPPED (* [obs_source_skip_video_filter] and [return] *)
| FILTER_DRAWN.

(** [video_render] up to the drawing: [target], [width] and [height]
    describe the next filter in the chain, [captured] is the result of
    [obs_source_process_filter_begin], [detections] what the backend finds
    if it is asked. *)
Definition video_render (sqrtf : float -> float) (m : filter_members) (target : bool)
    (width height : N) (captured : bool) (detections : list detection)
    : filter_members * render_outcome :=
  if video_render_skips (inst m) target width height then (m, FILTER_SKIPPED)
  else if _dirty m then
    if captured then
      let s := video_render_track sqrtf (inst m) detections in
      if fge (Fin (_track_frequency_counter (inst m))) (_track_frequency (inst m))
         && negb (provider_eqb (_provider (inst m)) NVIDIA_FACEDETECTION)
      then ({| inst := s; _out_size := _out_size m; _dirty := _dirty m; _debug := _debug m |},
            FILTER_SKIPPED)
      else ({| inst := s; _out_size := _out_size m; _dirty := false; _debug := _debug m |},
            FILTER_DRAWN)
    else (m, FILTER_SKIPPED)
  else (m, FILTER_DRAWN).

(** The texture coordinates [x0], [x1], [y0], [y1] of the crop that
    [video_render] draws outside of debug mode. *)
Definition crop_uv (s : autoframing_instance) : float * float * float * float :=
  ((x (_frame_pos s) - x (_frame_size s) / 2) / uint_to_float (fst (_size s)),
   (x (_frame_pos s) + x (_frame_size s) / 2) / uint_to_float (fst (_size s)),
   (y (_frame_pos s) - y (_frame_size s) / 2) / uint_to_float (snd (_size s)),
   (y (_frame_pos s) + y (_frame_size s) / 2) / uint_to_float (snd (_size s))).

(** [two_tracks_instance] after an update to a tracking period of two
    seconds. *)
Definition slow_period_instance : autoframing_instance :=
  update sscanf_decimal lerp_linear two_tracks_instance
    {| Tracking_Mode := GROUP;
       Tracking_Frequency := Some "2 s"%string;
       Motion_Prediction := 200;
       Motion_Smoothing := 50;
       Framing_Stability := 10;
       Framing_Padding := ((true, true), vec2_set (- (1 # 3)) (- (1 # 3)));
       Framing_Offset := ((false, false), vec2_set 0 0);
       Framing_AspectRatio := 0 |}.

(** The aspected box of a predicted element lies within the bounds
    (min, max). *)
Definition box_within (mm : vec2 * vec2) (pred : pred_el) : Prop :=
  x (fst mm) <= x (offset_pos pred) - x (aspected_size pred) * (1 # 2) /\
  x (offset_pos pred) + x (aspected_size pred) * (1 # 2) <= x (snd mm) /\
  y (fst mm) <= y (offset_pos pred) - y (aspected_size pred) * (1 # 2) /\
  y (offset_pos pred) + y (aspected_size pred) * (1 # 2) <= y (snd mm).

(** A backend that loads and refuses every tracking limit. *)
Definition rejecting_backend : backend :=
  {| make_facedetection :=
       inr {| tracking_limit := 1; tracking_limit_range := (1, 8)%N; is_temporal := true |};
     destroy_facedetection := fun _ => None;
     set_tracking_limit := fun _ _ => inl (Std {| what := "Failed to set tracking limit." |}) |}.

(** Members around [two_tracks_instance]: after a render, after a tick of
    one second, and with an aspect ratio of 4:3 configured. *)
Definition rendered_members : filter_members :=
  {| inst := two_tracks_instance; _out_size := (1920, 1080)%N;
     _dirty := false; _debug := false |}.

Definition ticked_members : filter_members :=
  video_tick_members rendered_members 1920 1080 1.

Definition wide_members : filter_members :=
  {| inst := update sscanf_decimal lerp_linear two_tracks_instance
               {| Tracking_Mode := GROUP;
                  Tracking_Frequency := Some "20 Hz"%string;
                  Motion_Prediction := 200;
                  Motion_Smoothing := 50;
                  Framing_Stability := 10;
                  Framing_Padding := ((true, true), vec2_set (- (1 # 3)) (- (1 # 3)));
                  Framing_Offset := ((false, false), vec2_set 0 0);
                  Framing_AspectRatio := 4 # 3 |};
     _out_size := (1, 1)%N;
     _dirty := true;
     _debug := false |}.

(** Settings whose frequency text holds no number. *)
Definition garbled_settings : obs_data :=
  {| Tracking_Mode := GROUP;
     Tracking_Frequency := Some "often"%string;
     Motion_Prediction := 200;
     Motion_Smoothing := 50;
     Framing_Stability := 10;
     Framing_Padding := ((true, true), vec2_set (- (1 # 3)) (- (1 # 3)));
     Framing_Offset := ((false, false), vec2_set 0 0);
     Framing_AspectRatio := 0 |}.

(** The texts of the default settings, and texts with an aspect ratio. *)
Definition default_texts : framing_texts :=
  {| Padding_X := Some "33.333 %"%string;
     Padding_Y := Some "33.333 %"%string;
     Offset_X := Some " 0.00 %"%string;
     Offset_Y := Some "-7.50 %"%string;
     AspectRatio := Some EmptyString |}.

Definition wide_texts : framing_texts :=
  {| Padding_X := Some "25"%string;
     Padding_Y := Some "25"%string;
     Offset_X := None;
     Offset_Y := None;
     AspectRatio := Some "16:9"%string |}.

(** * Properties *)

(** ** Comparisons *)

Lemma Qltb_true (a b : Q) : Qltb a b = true <-> a < b.
Proof.
  unfold Qltb. rewrite negb_true_iff, <- not_true_iff_false, Qle_bool_iff.
  split; [apply Qnot_le_lt | apply Qlt_not_le].
Qed.

Lemma Qltb_false (a b : Q) : Qltb a b = false <-> b <= a.
Proof.
  unfold Qltb. rewrite negb_false_iff. apply Qle_bool_iff.
Qed.

Lemma Qle_bool_false (a b : Q) : Qle_bool a b = false <-> b < a.
Proof.
  rewrite <- not_true_iff_false, Qle_bool_iff.
  split; [apply Qnot_le_lt | apply Qlt_not_le].
Qed.

Lemma Qeq_bool_false (a b : Q) : Qeq_bool a b = false <-> ~ a == b.
Proof.
  rewrite <- not_true_iff_false, Qeq_bool_iff. reflexivity.
Qed.

(** Case analysis on the first comparison of the goal, leaving its meaning
    among the hypotheses. *)
Ltac by_comparison :=
  match goal with
  | |- context [Qltb ?a ?b] =>
      let H := fresh "Hcmp" in
      destruct (Qltb a b) eqn:H;
      [apply Qltb_true in H | apply Qltb_false in H]
  | |- context [Qle_bool ?a ?b] =>
      let H := fresh "Hcmp" in
      destruct (Qle_bool a b) eqn:H;
      [apply Qle_bool_iff in H | apply Qle_bool_false in H]
  | |- context [Qeq_bool ?a ?b] =>
      let H := fresh "Hcmp" in
      destruct (Qeq_bool a b) eqn:H;
      [apply Qeq_bool_iff in H | apply Qeq_bool_false in H]
  end.

Lemma Qdiv_cancel (a b : Q) : ~ b == 0 -> a / b * b == a.
Proof. intros Hb. field. exact Hb. Qed.

Lemma Qdiv_nonneg (a b : Q) : 0 <= a -> 0 < b -> 0 <= a / b.
Proof.
  intros Ha Hb. apply Qle_shift_div_l; [exact Hb | lra].
Qed.

Lemma Qdiv_grow (a b c : Q) : 0 < c -> b * c <= a -> b <= a / c.
Proof.
  intros Hc H. apply Qle_shift_div_l; assumption.
Qed.

Lemma Qdiv_shrink (a b c : Q) : 0 < c -> a <= b * c -> a / c <= b.
Proof.
  intros Hc H. apply Qle_shift_div_r; assumption.
Qed.

Lemma Qlt_div_mult (a b c : Q) : 0 < c -> a < b / c <-> a * c < b.
Proof.
  intros Hc. split; intros H.
  - assert (E : b / c * c == b) by (apply Qdiv_cancel; lra).
    rewrite <- E. apply Qmult_lt_compat_r; assumption.
  - apply Qlt_shift_div_l; assumption.
Qed.

Lemma Qle_div_mult (a b c : Q) : 0 < c -> a <= b / c <-> a * c <= b.
Proof.
  intros Hc. split; intros H.
  - assert (E : b / c * c == b) by (apply Qdiv_cancel; lra).
    rewrite <- E. apply Qmult_le_compat_r; [assumption | lra].
  - apply Qle_shift_div_l; assumption.
Qed.

Lemma uint_to_float_pos (n : N) : (0 < n)%N -> 0 < uint_to_float n.
Proof.
  intros H. unfold uint_to_float, Qlt. simpl. lia.
Qed.

Lemma frame_aspect_pos (sz : N * N) (ratio : float) :
  (0 < fst sz)%N -> (0 < snd sz)%N -> 0 < frame_aspect sz ratio.
Proof.
  intros Hw Hh. unfold frame_aspect. by_comparison; [assumption |].
  apply Qlt_shift_div_l; [apply uint_to_float_pos; assumption |].
  apply uint_to_float_pos in Hw. lra.
Qed.

Lemma clamp_bounds (v hi : float) : 0 <= hi -> 0 <= clamp v 0 hi <= hi.
Proof.
  intros H. unfold clamp. repeat by_comparison; lra.
Qed.

Lemma clamp_monotone (u v hi : float) : u <= v -> 0 <= hi -> clamp u 0 hi <= clamp v 0 hi.
Proof.
  intros Huv H. unfold clamp. repeat by_comparison; lra.
Qed.

Lemma aspect_contain_nonneg (a : float) (sz : vec2) :
  0 < a -> 0 <= x sz -> 0 <= y sz ->
  0 <= x (aspect_contain a sz) /\ 0 <= y (aspect_contain a sz).
Proof.
  intros Ha Hx Hy. unfold aspect_contain.
  destruct (flt _ _); cbn [x y]; split; try assumption.
  - apply Qdiv_nonneg; assumption.
  - apply Qmult_le_0_compat; lra.
Qed.

Lemma aspect_match_shrinks (a : float) (sz : vec2) :
  0 < a -> 0 <= x sz -> 0 <= y sz ->
  0 <= x (aspect_match a sz) <= x sz /\ 0 <= y (aspect_match a sz) <= y sz.
Proof.
  intros Ha Hx Hy. unfold aspect_match, fdiv.
  destruct (Qeq_bool (y sz) 0) eqn:Hz;
    [apply Qeq_bool_iff in Hz | apply Qeq_bool_false in Hz].
  - (* the height is zero *)
    assert (E : y sz * a == 0) by (rewrite Hz; ring).
    destruct (Qltb 0 (x sz)) eqn:Hpos;
      [apply Qltb_true in Hpos | apply Qltb_false in Hpos].
    + unfold flt; cbn [x y]. lra.
    + assert (E' : x sz / a == 0).
      { assert (E0 : x sz == 0) by lra. rewrite E0. reflexivity. }
      destruct (Qltb (x sz) 0); unfold flt; cbn [x y]; lra.
  - unfold flt.
    assert (Hy' : 0 < y sz) by lra.
    destruct (Qltb a (x sz / y sz)) eqn:Hlt;
      [apply Qltb_true in Hlt | apply Qltb_false in Hlt]; cbn [x y].
    + apply Qlt_div_mult in Hlt; [| lra]. nra.
    + assert (H : x sz <= a * y sz).
      { destruct (Qlt_le_dec (a * y sz) (x sz)) as [Hgt | Hle]; [| exact Hle].
        apply Qlt_div_mult in Hgt; lra. }
      repeat split; try lra.
      * apply Qdiv_nonneg; assumption.
      * apply Qdiv_shrink; lra.
Qed.

Lemma Qhalf_twice (a : Q) : a / 2 + a / 2 == a.
Proof. field. Qed.

Lemma clamp_to_frame_edges (sz : N * N) (p s : vec2) :
  0 <= x s -> 0 <= y s ->
  let r := clamp_to_frame sz p s in
  0 <= x (snd r) /\ 0 <= y (snd r) /\
  0 <= x (fst r) - x (snd r) / 2 /\ x (fst r) + x (snd r) / 2 <= uint_to_float (fst sz) /\
  0 <= y (fst r) - y (snd r) / 2 /\ y (fst r) + y (snd r) / 2 <= uint_to_float (snd sz).
Proof.
  intros Hx Hy. unfold clamp_to_frame. cbn [fst snd x y].
  assert (Hw : 0 <= uint_to_float (fst sz)).
  { unfold uint_to_float, Qle. simpl. lia. }
  assert (Hh : 0 <= uint_to_float (snd sz)).
  { unfold uint_to_float, Qle. simpl. lia. }
  assert (Hhx : 0 <= x s / 2) by (apply Qdiv_nonneg; lra).
  assert (Hhy : 0 <= y s / 2) by (apply Qdiv_nonneg; lra).
  pose proof (clamp_bounds (x p - x s / 2) _ Hw) as Hx0.
  pose proof (clamp_bounds (x p + x s / 2) _ Hw) as Hx1.
  pose proof (clamp_bounds (y p - y s / 2) _ Hh) as Hy0.
  pose proof (clamp_bounds (y p + y s / 2) _ Hh) as Hy1.
  assert (Hxm : clamp (x p - x s / 2) 0 (uint_to_float (fst sz))
                <= clamp (x p + x s / 2) 0 (uint_to_float (fst sz))).
  { apply clamp_monotone; lra. }
  assert (Hym : clamp (y p - y s / 2) 0 (uint_to_float (snd sz))
                <= clamp (y p + y s / 2) 0 (uint_to_float (snd sz))).
  { apply clamp_monotone; lra. }
  set (x0 := clamp (x p - x s / 2) 0 (uint_to_float (fst sz))) in *.
  set (x1 := clamp (x p + x s / 2) 0 (uint_to_float (fst sz))) in *.
  set (y0 := clamp (y p - y s / 2) 0 (uint_to_float (snd sz))) in *.
  set (y1 := clamp (y p + y s / 2) 0 (uint_to_float (snd sz))) in *.
  pose proof (Qhalf_twice (x0 + x1)) as Ex.
  pose proof (Qhalf_twice (x1 - x0)) as Ex'.
  pose proof (Qhalf_twice (y0 + y1)) as Ey.
  pose proof (Qhalf_twice (y1 - y0)) as Ey'.
  assert (Ecx : (x0 + x1) / 2 - (x1 - x0) / 2 == x0) by field.
  assert (Ecx' : (x0 + x1) / 2 + (x1 - x0) / 2 == x1) by field.
  assert (Ecy : (y0 + y1) / 2 - (y1 - y0) / 2 == y0) by field.
  assert (Ecy' : (y0 + y1) / 2 + (y1 - y0) / 2 == y1) by field.
  repeat split; lra.
Qed.

Lemma Qhalf_le (a b : Q) : a <= b -> a / 2 <= b / 2.
Proof.
  intros H. pose proof (Qhalf_twice a). pose proof (Qhalf_twice b). lra.
Qed.

(** ** binary32 comparisons *)

Lemma SFcompare_antisym (a b : binary32) (c : comparison) :
  SpecFloat.SFcompare a b = Some c -> SpecFloat.SFcompare b a = Some (CompOpp c).
Proof.
  destruct a as [sa | sa | | sa ma ea], b as [sb | sb | | sb mb eb];
    cbn [SpecFloat.SFcompare]; try discriminate;
    try (intros E; inversion E; subst; clear E);
    try (destruct sa; reflexivity); try (destruct sb; reflexivity);
    try (destruct sa, sb; reflexivity).
  destruct sa, sb; try reflexivity.
  - rewrite (Z.compare_antisym ea eb). destruct (ea ?= eb)%Z; cbn [CompOpp]; try reflexivity.
    rewrite (Pos.compare_cont_antisym ma mb Eq). reflexivity.
  - rewrite (Z.compare_antisym ea eb). destruct (ea ?= eb)%Z; cbn [CompOpp]; try reflexivity.
    rewrite (Pos.compare_cont_antisym ma mb Eq). reflexivity.
Qed.

Lemma b32_le_refl (a b : binary32) :
  b32_le a b = true -> b32_le a a = true /\ b32_le b b = true.
Proof.
  unfold b32_le, SpecFloat.SFleb.
  destruct a as [sa | sa | | sa ma ea], b as [sb | sb | | sb mb eb];
    cbn [SpecFloat.SFcompare]; try discriminate; intros _;
    repeat match goal with s : bool |- _ => destruct s end;
    rewrite ?Z.compare_refl, ?Pos.compare_cont_refl; split; reflexivity.
Qed.

Lemma b32_not_lt_le (a b : binary32) :
  b32_lt a b = false -> b32_is_nan a = false -> b32_is_nan b = false ->
  b32_le b a = true.
Proof.
  unfold b32_lt, b32_le, SpecFloat.SFltb, SpecFloat.SFleb. intros Hlt Ha Hb.
  destruct (SpecFloat.SFcompare a b) as [c |] eqn:E.
  - rewrite (SFcompare_antisym a b c E). destruct c; try reflexivity. discriminate.
  - destruct a, b; cbn in *; discriminate.
Qed.

(** [std::clamp] returns a value between its bounds, or the NaN it was
    given. *)
Lemma clamp32_within (v lo hi : binary32) :
  b32_le lo hi = true -> within32 lo hi (clamp32 v lo hi).
Proof.
  intros Hle. destruct (b32_le_refl lo hi Hle) as [Hlo Hhi].
  assert (Nlo : b32_is_nan lo = false)
    by (destruct lo; [reflexivity | reflexivity | discriminate | reflexivity]).
  assert (Nhi : b32_is_nan hi = false).
  { destruct hi; try reflexivity. destruct lo; discriminate. }
  unfold clamp32, within32.
  destruct (b32_lt v lo) eqn:E1; [right; split; assumption |].
  destruct (b32_lt hi v) eqn:E2; [right; split; assumption |].
  destruct (b32_is_nan v) eqn:Nv; [left; reflexivity | right].
  split; apply b32_not_lt_le; assumption.
Qed.

(** The conversion of an unsigned integer is not negative: the shifts and
    the rounding keep a mantissa that is not negative. *)
Lemma iter_pos_nonneg (n : positive) (mrs : SpecFloat.shr_record) :
  (0 <= SpecFloat.shr_m mrs)%Z ->
  (0 <= SpecFloat.shr_m (SpecFloat.iter_pos SpecFloat.shr_1 n mrs))%Z.
Proof.
  assert (H1 : forall mrs, (0 <= SpecFloat.shr_m mrs)%Z ->
                           (0 <= SpecFloat.shr_m (SpecFloat.shr_1 mrs))%Z).
  { intros [m r s]. cbn. destruct m as [| [p | p |] | p]; cbn; lia. }
  revert mrs. induction n as [n IH | n IH |]; intros mrs H; cbn [SpecFloat.iter_pos].
  - apply IH, IH, H1, H.
  - apply IH, IH, H.
  - apply H1, H.
Qed.

Lemma shr_fexp_nonneg (m e : Z) (l : SpecFloat.location) :
  (0 <= m)%Z -> (0 <= SpecFloat.shr_m (fst (SpecFloat.shr_fexp 24 128 m e l)))%Z.
Proof.
  intros H. unfold SpecFloat.shr_fexp, SpecFloat.shr.
  assert (H0 : (0 <= SpecFloat.shr_m (SpecFloat.shr_record_of_loc m l))%Z).
  { destruct l as [| []]; exact H. }
  destruct (_ - e)%Z; cbn [fst]; try exact H0.
  apply iter_pos_nonneg. exact H0.
Qed.

Lemma binary_round_aux_nonneg (m e : Z) (l : SpecFloat.location) :
  (0 <= m)%Z -> b32_le b32_zero (SpecFloat.binary_round_aux 24 128 false m e l) = true.
Proof.
  intros H. unfold SpecFloat.binary_round_aux.
  pose proof (shr_fexp_nonneg m e l H) as H1.
  destruct (SpecFloat.shr_fexp 24 128 m e l) as [mrs' e']. cbn [fst] in H1.
  assert (H2 : (0 <= SpecFloat.round_nearest_even (SpecFloat.shr_m mrs')
                      (SpecFloat.loc_of_shr_record mrs'))%Z).
  { unfold SpecFloat.round_nearest_even.
    destruct (SpecFloat.loc_of_shr_record mrs') as [| []]; try lia.
    destruct (Z.even _); lia. }
  pose proof (shr_fexp_nonneg _ e' SpecFloat.loc_Exact H2) as H3.
  destruct (SpecFloat.shr_fexp 24 128 _ e' SpecFloat.loc_Exact) as [mrs'' e''].
  cbn [fst] in H3.
  destruct (SpecFloat.shr_m mrs''); try lia; [reflexivity |].
  destruct (Z.leb _ _); reflexivity.
Qed.

Lemma b32_of_uint_nonneg (n : N) : b32_le b32_zero (b32_of_uint n) = true.
Proof.
  unfold b32_of_uint, SpecFloat.binary_normalize.
  destruct n as [| p]; cbn [Z.of_N]; [reflexivity |].
  unfold SpecFloat.binary_round.
  destruct (SpecFloat.shl_align _ _ _) as [mz ez].
  apply binary_round_aux_nonneg. lia.
Qed.

Lemma frame_rect32_in_frame (sz : N * N) (p s : vec2_32) :
  rect_in_frame32 sz (frame_rect32 sz p s).
Proof.
  unfold rect_in_frame32, frame_rect32. cbn [rect32_x rect32_y rect32_z rect32_w].
  repeat split; apply clamp32_within, b32_of_uint_nonneg.
Qed.

(** ** The three-step correction *)

(** C1 (amended).  Computed on rationals, without the rounding of
    [float], for every candidate rectangle of non-negative width and
    height, any positive frame dimensions and any configured aspect ratio
    that is a number, the three-step pass (inflate to the aspect, clamp the
    edges, shrink to the aspect) yields a rectangle whose four edges
    [center.x +- size.x / 2] and [center.y +- size.y / 2] lie in
    [0, width] and [0, height].  Computed on binary32, for every candidate
    and every configured ratio, the four edges that step 2 clamps lie in
    [0, width] and [0, height] unless they are NaN; the edges of the
    rectangle that step 3 recomputes from them are not covered. *)
Theorem frame_contained (sz : N * N) (ratio : float) (p s : vec2)
    (ratio32 : binary32) (p32 s32 : vec2_32) :
  (0 < fst sz)%N -> (0 < snd sz)%N -> 0 <= x s -> 0 <= y s ->
  edges_in_frame sz (fst (aspect_correction sz ratio p s))
    (snd (aspect_correction sz ratio p s)) /\
  rect_in_frame32 sz
    (frame_rect32 sz p32 (aspect_contain32 (frame_aspect32 sz ratio32) s32)).
Proof.
  intros Hw Hh Hx Hy. split; [| apply frame_rect32_in_frame].
  unfold aspect_correction.
  pose proof (frame_aspect_pos sz ratio Hw Hh) as Ha.
  set (a := frame_aspect sz ratio) in *.
  destruct (aspect_contain_nonneg a s Ha Hx Hy) as [Hx1 Hy1].
  pose proof (clamp_to_frame_edges sz p _ Hx1 Hy1) as H.
  destruct (clamp_to_frame sz p (aspect_contain a s)) as [p2 s2].
  cbn [fst snd] in *. destruct H as (Hx2 & Hy2 & Hl & Hr & Ht & Hb).
  destruct (aspect_match_shrinks a s2 Ha Hx2 Hy2) as [Hsx Hsy].
  unfold edges_in_frame. cbn [fst snd].
  assert (H0x : 0 <= x (aspect_match a s2) / 2) by (apply Qdiv_nonneg; lra).
  assert (H0y : 0 <= y (aspect_match a s2) / 2) by (apply Qdiv_nonneg; lra).
  assert (H1x : x (aspect_match a s2) / 2 <= x s2 / 2) by (apply Qhalf_le; lra).
  assert (H1y : y (aspect_match a s2) / 2 <= y s2 / 2) by (apply Qhalf_le; lra).
  assert (H2x : 0 <= x s2 / 2) by (apply Qdiv_nonneg; lra).
  assert (H2y : 0 <= y s2 / 2) by (apply Qdiv_nonneg; lra).
  repeat split; lra.
Qed.

Lemma frame_contained_witness :
  edges_in_frame (1920, 1080)%N
    (fst (aspect_correction (1920, 1080)%N 0 (Vec2 500 400) (Vec2 200 100)))
    (snd (aspect_correction (1920, 1080)%N 0 (Vec2 500 400) (Vec2 200 100))) /\
  rect_in_frame32 (1680, 800)%N
    (frame_rect32 (1680, 800)%N full_frame_pos
       (aspect_contain32 (frame_aspect32 (1680, 800)%N b32_zero) full_frame_size)).
Proof.
  split.
  - apply (frame_contained (1920, 1080)%N 0 (Vec2 500 400) (Vec2 200 100)
             b32_zero full_frame_pos full_frame_size).
    + reflexivity.
    + reflexivity.
    + unfold Qle; simpl; lia.
    + unfold Qle; simpl; lia.
  - apply (frame_contained (1680, 800)%N 0 (Vec2 840 400) (Vec2 1680 800)
             b32_zero full_frame_pos full_frame_size).
    + reflexivity.
    + reflexivity.
    + unfold Qle; simpl; lia.
    + unfold Qle; simpl; lia.
Defined.

(** On binary32 the rectangle that step 3 recomputes can leave the frame
    by a rounding error.  For a source of 1680 x 800 without a configured
    ratio and the whole source as the candidate, step 1 rounds the width
    to 1679.9999, step 2 restores the width 1680 and the height 800, and
    step 3 divides 1680 by the float nearest to 2.1: the height becomes
    800.00006 and the top edge -2^-15. *)
Example rounded_frame_leaves_frame32 :
  let r := aspect_correction32 (1680, 800)%N b32_zero full_frame_pos full_frame_size in
  y32 (snd r) = SpecFloat.S754_finite false 13107201 (-14) /\
  b32_sub (y32 (fst r)) (b32_div (y32 (snd r)) b32_two)
  = SpecFloat.S754_finite true 8388608 (-38) /\
  b32_lt (b32_sub (y32 (fst r)) (b32_div (y32 (snd r)) b32_two)) b32_zero = true.
Proof.
  vm_compute. repeat split.
Qed.

(** For the ratio that the text ["1:0"] stores, +infinity, and a
    candidate of height 0, step 1 multiplies 0 by the infinity: the width
    is NaN, and [std::clamp] hands the NaN edges on. *)
Example infinite_ratio_gives_nan32 :
  let r := aspect_correction32 (1680, 800)%N (b32_div (b32_of_uint 1) (b32_of_uint 0))
             full_frame_pos {| x32 := b32_of_uint 100; y32 := b32_of_uint 0 |} in
  b32_div (b32_of_uint 1) (b32_of_uint 0) = SpecFloat.S754_infinity false /\
  b32_is_nan (x32 (fst r)) = true /\ b32_is_nan (x32 (snd r)) = true.
Proof.
  vm_compute. repeat split.
Qed.

(** C1, as stated, fails on a candidate of negative size.  With a padding
    of -25 pixels the track of [shrunk_instance] (40 x 40) gives the
    candidate size (-10, -10); its offset position lies above the frame, so
    both horizontal edges are clamped to 0 and the final step restores the
    height -10 around the centre 0: one edge ends at -5. *)
Lemma shrunk_instance_leaves_frame :
  let s := tracking_tick shrunk_instance (1 # 60) in
  _size s = (100, 100)%N /\
  fs_size (frame_candidate (_size s) (_track_mode s) (_predicted_elements s)
             (frame_of shrunk_instance)) = vec2_set (-10) (-10) /\
  ~ edges_in_frame (_size s) (_frame_pos s) (_frame_size s).
Proof.
  split; [reflexivity |]. split; [reflexivity |].
  unfold edges_in_frame. vm_compute.
  intros (_ & _ & _ & H). destruct H as [H _]. apply H. reflexivity.
Qed.

(** C5 (amended).  Computed on rationals, without the rounding of
    [float], for a padded box of positive width and height and a target
    aspect ratio above 0, the per-element correction only inflates: neither
    side shrinks, the result has the target ratio, the height is grown when
    [pad_size.x / pad_size.y >= target] and the width otherwise.  Computed
    on binary32, for a target ratio above 0: when the rounded quotient
    [pad_size.x / pad_size.y] is at least the target, the width is kept as
    it is and the height becomes the rounded quotient of the width and the
    target; otherwise the height is kept and the width becomes the rounded
    product of the height and the target. *)
Theorem aspect_padded_inflates (ratio : float) (pad : vec2)
    (ratio32 : binary32) (pad32 : vec2_32) :
  0 < x pad -> 0 < y pad -> 0 < ratio ->
  b32_lt b32_zero ratio32 = true ->
  (x pad <= x (aspect_padded ratio pad) /\
   y pad <= y (aspect_padded ratio pad) /\
   x (aspect_padded ratio pad) / y (aspect_padded ratio pad) == ratio /\
   (ratio <= x pad / y pad ->
    aspect_padded ratio pad = {| x := x pad; y := x pad / ratio |}) /\
   (x pad / y pad < ratio ->
    aspect_padded ratio pad = {| x := y pad * ratio; y := y pad |})) /\
  (b32_le ratio32 (b32_div (x32 pad32) (y32 pad32)) = true ->
   aspect_padded32 ratio32 pad32
   = {| x32 := x32 pad32; y32 := b32_div (x32 pad32) ratio32 |}) /\
  (b32_le ratio32 (b32_div (x32 pad32) (y32 pad32)) = false ->
   aspect_padded32 ratio32 pad32
   = {| x32 := b32_mul (y32 pad32) ratio32; y32 := y32 pad32 |}).
Proof.
  intros Hx Hy Hr Hr32. split.
  - unfold aspect_padded, fdiv, fge.
    assert (E1 : Qltb 0 ratio = true) by (apply Qltb_true; exact Hr).
    assert (E2 : Qeq_bool (y pad) 0 = false) by (apply Qeq_bool_false; lra).
    rewrite E1, E2.
    destruct (Qle_bool ratio (x pad / y pad)) eqn:Hc;
      [apply Qle_bool_iff in Hc | apply Qle_bool_false in Hc]; cbn [x y].
    + assert (H : ratio * y pad <= x pad) by (apply Qle_div_mult in Hc; lra).
      repeat split.
      * lra.
      * apply Qdiv_grow; lra.
      * field. split; lra.
      * intros Hlt. lra.
    + assert (H : x pad < ratio * y pad).
      { destruct (Qlt_le_dec (x pad) (ratio * y pad)) as [Hlt | Hge]; [exact Hlt |].
        assert (Hge' : ratio * y pad <= x pad) by exact Hge.
        apply Qle_div_mult in Hge'; lra. }
      repeat split.
      * lra.
      * lra.
      * field. lra.
      * intros Hge. lra.
  - unfold aspect_padded32. rewrite Hr32.
    split; intros E; rewrite E; reflexivity.
Qed.

Lemma aspect_padded_inflates_witness :
  (200 <= x (aspect_padded 2 (Vec2 200 150)) /\
   150 <= y (aspect_padded 2 (Vec2 200 150)) /\
   x (aspect_padded 2 (Vec2 200 150)) / y (aspect_padded 2 (Vec2 200 150)) == 2) /\
  aspect_padded32 ratio_21_9 narrow_pad
  = {| x32 := x32 narrow_pad; y32 := b32_div (x32 narrow_pad) ratio_21_9 |}.
Proof.
  destruct (aspect_padded_inflates 2 (Vec2 200 150) ratio_21_9 narrow_pad)
    as ((H1 & H2 & H3 & _) & H4 & _).
  - reflexivity.
  - reflexivity.
  - reflexivity.
  - reflexivity.
  - split; [exact (conj H1 (conj H2 H3)) |]. apply H4. reflexivity.
Defined.

(** C5, as stated, fails on binary32.  For the ratio 21:9 (the float
    2.3333333) and the padded box [narrow_pad] of positive width 16.333332
    and height 7, the quotient 16.333332 / 7 rounds up to the ratio, so the
    height is recomputed, and 16.333332 / 2.3333333 rounds to 6.9999995
    (14680063 * 2^-21): the height shrinks. *)
Lemma padded_height_shrinks32 :
  b32_lt b32_zero (x32 narrow_pad) = true /\
  b32_lt b32_zero (y32 narrow_pad) = true /\
  b32_lt b32_zero ratio_21_9 = true /\
  y32 narrow_pad = SpecFloat.S754_finite false 14680064 (-21) /\
  y32 (aspect_padded32 ratio_21_9 narrow_pad) = SpecFloat.S754_finite false 14680063 (-21) /\
  b32_le (y32 narrow_pad) (y32 (aspect_padded32 ratio_21_9 narrow_pad)) = false.
Proof.
  vm_compute. repeat split.
Qed.

(** ** Ageing and eviction *)

Lemma flt_not_fge (a b : fval) : flt a b = true -> fge a b = false.
Proof.
  destruct a as [p | | |], b as [q | | |]; unfold flt, fge; try discriminate; try reflexivity.
  intros H. apply Qltb_true in H. apply Qle_bool_false. exact H.
Qed.

Lemma age_and_evict_tracked (dt : float) (thr : fval) (l : tracked_list)
    (m : predicted_map) :
  fst (age_and_evict dt thr l m)
  = List.filter (fun pt => negb (fge (Fin (age (snd pt))) thr))
      (map (fun pt => (fst pt, add_age (snd pt) dt)) l).
Proof.
  revert m. induction l as [| [q e] rest IH]; intros m; simpl.
  - reflexivity.
  - destruct (fge (Fin (age e + dt)) thr); simpl.
    + apply IH.
    + specialize (IH m). destruct (age_and_evict dt thr rest m) as [rest' m'].
      simpl in *. rewrite IH. reflexivity.
Qed.

Lemma age_and_evict_none (dt : float) (thr : fval) (l : tracked_list)
    (m : predicted_map) (p : ptr) :
  PtrMap.find p m = None -> PtrMap.find p (snd (age_and_evict dt thr l m)) = None.
Proof.
  revert m. induction l as [| [q e] rest IH]; intros m Hm; simpl.
  - exact Hm.
  - destruct (fge (Fin (age e + dt)) thr).
    + apply IH. destruct (N.eq_dec q p) as [E | E].
      * apply PtrMapFacts.remove_eq_o. exact E.
      * rewrite PtrMapFacts.remove_neq_o; assumption.
    + specialize (IH m Hm). destruct (age_and_evict dt thr rest m) as [rest' m'].
      exact IH.
Qed.

Lemma age_and_evict_kept (dt : float) (thr : fval) (l : tracked_list)
    (m : predicted_map) (p : ptr) :
  (forall el, In (p, el) l -> fge (Fin (age el + dt)) thr = false) ->
  PtrMap.find p (snd (age_and_evict dt thr l m)) = PtrMap.find p m.
Proof.
  revert m. induction l as [| [q e] rest IH]; intros m Hkeep; simpl.
  - reflexivity.
  - assert (Hrest : forall el, In (p, el) rest -> fge (Fin (age el + dt)) thr = false).
    { intros el Hin. apply Hkeep. right. exact Hin. }
    destruct (fge (Fin (age e + dt)) thr) eqn:Hq.
    + rewrite IH by exact Hrest.
      apply PtrMapFacts.remove_neq_o. intros E. subst q.
      rewrite (Hkeep e) in Hq; [discriminate | left; reflexivity].
    + specialize (IH m Hrest). destruct (age_and_evict dt thr rest m) as [rest' m'].
      exact IH.
Qed.

Lemma age_and_evict_erased (dt : float) (thr : fval) (l : tracked_list)
    (m : predicted_map) (p : ptr) (el : track_el) :
  In (p, el) l -> fge (Fin (age el + dt)) thr = true ->
  PtrMap.find p (snd (age_and_evict dt thr l m)) = None.
Proof.
  revert m. induction l as [| [q e] rest IH]; intros m Hin Hel; simpl.
  - destruct Hin.
  - destruct (fge (Fin (age e + dt)) thr) eqn:Hq.
    + destruct Hin as [E | Hin].
      * inversion E; subst q e. apply age_and_evict_none.
        apply PtrMapFacts.remove_eq_o. reflexivity.
      * apply IH; assumption.
    + destruct Hin as [E | Hin].
      * inversion E; subst q e. rewrite Hel in Hq. discriminate.
      * specialize (IH m Hin Hel). destruct (age_and_evict dt thr rest m) as [rest' m'].
        exact IH.
Qed.

Lemma survivors_sublist (dt : float) (thr : fval) (l : tracked_list)
    (m : predicted_map) (p : ptr) :
  In p (map fst (fst (age_and_evict dt thr l m))) -> In p (map fst l).
Proof.
  rewrite age_and_evict_tracked. intros H.
  apply in_map_iff in H. destruct H as ([q e] & E & H). simpl in E. subst q.
  apply filter_In in H. destruct H as [H _].
  apply in_map_iff in H. destruct H as ([q e0] & E & H). inversion E; subst.
  apply in_map_iff. exists (p, e0). split; [reflexivity | exact H].
Qed.

Lemma survivors_NoDup (dt : float) (thr : fval) (l : tracked_list) (m : predicted_map) :
  NoDup (map fst l) -> NoDup (map fst (fst (age_and_evict dt thr l m))).
Proof.
  revert m. induction l as [| [q e] rest IH]; intros m Hnd; simpl.
  - constructor.
  - inversion Hnd as [| ? ? Hq Hrest]; subst.
    destruct (fge (Fin (age e + dt)) thr).
    + apply IH. exact Hrest.
    + pose proof (survivors_sublist dt thr rest m q) as Hsub.
      specialize (IH m Hrest). destruct (age_and_evict dt thr rest m) as [rest' m'].
      simpl in *. constructor; [| exact IH].
      intros Hin. apply Hq, Hsub, Hin.
Qed.

(** ** The update of the predicted elements *)

Lemma update_predicted_other (s : autoframing_instance) (dt : float)
    (l : tracked_list) (m : predicted_map) (p : ptr) :
  ~ In p (map fst l) ->
  PtrMap.find p (update_predicted s dt l m) = PtrMap.find p m.
Proof.
  unfold update_predicted. revert m.
  induction l as [| [q e] rest IH]; intros m Hp; simpl.
  - reflexivity.
  - rewrite IH.
    + apply PtrMapFacts.add_neq_o. intros E. apply Hp. left. exact E.
    + intros Hin. apply Hp. right. exact Hin.
Qed.

Lemma update_predicted_found (s : autoframing_instance) (dt : float)
    (l : tracked_list) (m : predicted_map) (p : ptr) (el : track_el) :
  NoDup (map fst l) -> In (p, el) l ->
  PtrMap.find p (update_predicted s dt l m)
  = Some (predict_element s dt el (PtrMap.find p m)).
Proof.
  unfold update_predicted. revert m.
  induction l as [| [q e] rest IH]; intros m Hnd Hin; simpl.
  - destruct Hin.
  - inversion Hnd as [| ? ? Hq Hrest]; subst.
    destruct Hin as [E | Hin].
    + inversion E; subst q e.
      change (PtrMap.find p
                (update_predicted s dt rest
                   (PtrMap.add p (predict_element s dt el (PtrMap.find p m)) m))
              = Some (predict_element s dt el (PtrMap.find p m))).
      rewrite update_predicted_other by exact Hq.
      apply PtrMapFacts.add_eq_o. reflexivity.
    + rewrite IH by assumption.
      assert (Hne : q <> p).
      { intros E. subst q. apply Hq. apply in_map_iff.
        exists (p, el). split; [reflexivity | exact Hin]. }
      rewrite PtrMapFacts.add_neq_o by exact Hne. reflexivity.
Qed.

Lemma update_predicted_keys (s : autoframing_instance) (dt : float)
    (l : tracked_list) (m : predicted_map) (p : ptr) :
  PtrMap.In p (update_predicted s dt l m) <-> PtrMap.In p m \/ In p (map fst l).
Proof.
  unfold update_predicted. revert m.
  induction l as [| [q e] rest IH]; intros m; simpl.
  - tauto.
  - rewrite IH, PtrMapFacts.add_in_iff. tauto.
Qed.

Lemma tick_tracked (s : autoframing_instance) (dt : float) :
  _tracked_elements (tracking_tick s dt)
  = fst (age_and_evict dt (age_threshold (_track_frequency s))
           (_tracked_elements s) (_predicted_elements s)).
Proof.
  unfold tracking_tick, predicted_tick.
  destruct (age_and_evict _ _ _ _) as [l m]. reflexivity.
Qed.

Lemma tick_predicted (s : autoframing_instance) (dt : float) :
  _predicted_elements (tracking_tick s dt)
  = update_predicted s dt
      (fst (age_and_evict dt (age_threshold (_track_frequency s))
              (_tracked_elements s) (_predicted_elements s)))
      (snd (age_and_evict dt (age_threshold (_track_frequency s))
              (_tracked_elements s) (_predicted_elements s))).
Proof.
  unfold tracking_tick, predicted_tick.
  destruct (age_and_evict _ _ _ _) as [l m]. reflexivity.
Qed.

Lemma NoDup_fst_unique {A : Type} (l : list (ptr * A)) (p : ptr) (a b : A) :
  NoDup (map fst l) -> In (p, a) l -> In (p, b) l -> a = b.
Proof.
  induction l as [| [q c] rest IH]; intros Hnd Ha Hb.
  - destruct Ha.
  - simpl in Hnd. inversion Hnd as [| ? ? Hq Hrest]; subst.
    assert (Hout : forall d, In (q, d) rest -> False).
    { intros d Hd. apply Hq. apply in_map_iff. exists (q, d). split; [reflexivity | exact Hd]. }
    destruct Ha as [Ea | Ha], Hb as [Eb | Hb].
    + congruence.
    + inversion Ea; subst. exfalso. eapply Hout, Hb.
    + inversion Eb; subst. exfalso. eapply Hout, Ha.
    + apply IH; assumption.
Qed.

Lemma tick_evicts_at (s : autoframing_instance) (dt : float)
    (p : ptr) (el : track_el) :
  NoDup (map fst (_tracked_elements s)) ->
  In (p, el) (_tracked_elements s) ->
  (fge (Fin (age el + dt)) (age_threshold (_track_frequency s)) = true ->
   ~ In p (map fst (_tracked_elements (tracking_tick s dt))) /\
   ~ PtrMap.In p (_predicted_elements (tracking_tick s dt))) /\
  (flt (Fin (age el + dt)) (age_threshold (_track_frequency s)) = true ->
   In (p, add_age el dt) (_tracked_elements (tracking_tick s dt)) /\
   PtrMap.find p (_predicted_elements (tracking_tick s dt))
   = Some (predict_element s dt (add_age el dt)
             (PtrMap.find p (_predicted_elements s)))).
Proof.
  intros Hnd Hin. rewrite tick_tracked, tick_predicted.
  set (thr := age_threshold (_track_frequency s)).
  split.
  - intros Hold.
    assert (Hgone : ~ In p (map fst (fst (age_and_evict dt thr (_tracked_elements s)
                                            (_predicted_elements s))))).
    { rewrite age_and_evict_tracked. intros H.
      apply in_map_iff in H. destruct H as ([q e] & E & H). simpl in E. subst q.
      apply filter_In in H. destruct H as [H Hkeep].
      apply in_map_iff in H. destruct H as ([q e0] & E & H). inversion E; subst.
      rewrite (NoDup_fst_unique _ _ _ _ Hnd H Hin) in Hkeep.
      simpl in Hkeep. rewrite Hold in Hkeep. discriminate. }
    split; [exact Hgone |].
    rewrite PtrMapFacts.in_find_iff, update_predicted_other by exact Hgone.
    rewrite (age_and_evict_erased dt thr _ _ p el Hin Hold). congruence.
  - intros Hyoung. apply flt_not_fge in Hyoung.
    assert (Hstay : In (p, add_age el dt)
                      (fst (age_and_evict dt thr (_tracked_elements s)
                              (_predicted_elements s)))).
    { rewrite age_and_evict_tracked. apply filter_In. split.
      - apply in_map_iff. exists (p, el). split; [reflexivity | exact Hin].
      - simpl. rewrite Hyoung. reflexivity. }
    split; [exact Hstay |].
    rewrite (update_predicted_found s dt _ _ p (add_age el dt)).
    + rewrite age_and_evict_kept; [reflexivity |].
      intros e He. rewrite (NoDup_fst_unique _ _ _ _ Hnd He Hin). exact Hyoung.
    + apply survivors_NoDup. exact Hnd.
    + exact Hstay.
Qed.

(** C2.  A tick adds [dt] to the age of every tracked element.  An
    element whose age reaches the threshold
    [0.5 * (1 / (1 - _track_frequency))] is gone after the tick, and so is
    the predicted element under its key; an element whose age stays below
    the threshold is still tracked, with its age increased by [dt] and its
    other fields as they were, and the predicted element under its key is
    the tick's update of the one it had before.  The comparison is the
    source's, on the floating-point values (the quotient by zero at a
    frequency of 1 included); for a frequency [f] other than 1 it is the
    comparison of the age with the rational number [1/2 * (1 / (1 - f))]. *)
Theorem tick_ages_and_evicts (s : autoframing_instance) (dt : float)
    (p : ptr) (el : track_el) :
  NoDup (map fst (_tracked_elements s)) ->
  In (p, el) (_tracked_elements s) ->
  let aged := {| pos := pos el; size := size el; vel := vel el;
                 age := age el + dt; confidence := confidence el |} in
  let tracked' := _tracked_elements (tracking_tick s dt) in
  let predicted' := _predicted_elements (tracking_tick s dt) in
  (fge (Fin (age el + dt))
       (fmul (Fin (1 # 2)) (fdiv (Fin 1) (fsub (Fin 1) (_track_frequency s)))) = true ->
   ~ In p (map fst tracked') /\ ~ PtrMap.In p predicted') /\
  (flt (Fin (age el + dt))
       (fmul (Fin (1 # 2)) (fdiv (Fin 1) (fsub (Fin 1) (_track_frequency s)))) = true ->
   In (p, aged) tracked' /\
   PtrMap.find p predicted'
   = Some (predict_element s dt aged (PtrMap.find p (_predicted_elements s)))) /\
  (forall f : Q, _track_frequency s = Fin f -> ~ f == 1 ->
     ((1 # 2) * (1 / (1 - f)) <= age el + dt ->
      ~ In p (map fst tracked') /\ ~ PtrMap.In p predicted') /\
     (age el + dt < (1 # 2) * (1 / (1 - f)) ->
      In (p, aged) tracked' /\ PtrMap.In p predicted')).
Proof.
  intros Hnd Hin. cbv zeta.
  destruct (tick_evicts_at s dt p el Hnd Hin) as [Hold Hyoung].
  unfold age_threshold, add_age in Hold, Hyoung.
  split; [exact Hold |]. split; [exact Hyoung |].
  intros f Ef Hf. rewrite Ef in Hold, Hyoung.
  assert (E : Qeq_bool (1 - f) 0 = false) by (apply Qeq_bool_false; lra).
  unfold fsub, fdiv, fmul in Hold, Hyoung. rewrite E in Hold, Hyoung.
  split.
  - intros Hle. apply Hold. unfold fge. apply Qle_bool_iff. exact Hle.
  - intros Hlt. destruct Hyoung as [Hstay Hfind].
    + unfold flt. destruct (Qltb (age el + dt) ((1 # 2) * (1 / (1 - f)))) eqn:Hcmp.
      * reflexivity.
      * apply Qltb_false in Hcmp. lra.
    + split; [exact Hstay |].
      apply PtrMapFacts.in_find_iff. rewrite Hfind. discriminate.
Qed.

Lemma tick_ages_and_evicts_witness :
  (~ In 7%N (map fst (_tracked_elements (tracking_tick two_tracks_instance (1 # 60)))) /\
   ~ PtrMap.In 7%N (_predicted_elements (tracking_tick two_tracks_instance (1 # 60)))) /\
  In (3%N, {| pos := pos young_track; size := size young_track; vel := vel young_track;
              age := age young_track + (1 # 60); confidence := confidence young_track |})
    (_tracked_elements (tracking_tick two_tracks_instance (1 # 60))) /\
  PtrMap.In 3%N (_predicted_elements (tracking_tick two_tracks_instance (1 # 60))).
Proof.
  assert (Hnd : NoDup (map fst (_tracked_elements two_tracks_instance))).
  { simpl. repeat constructor; simpl; intuition discriminate. }
  split.
  - refine (proj1 (proj2 (proj2 (tick_ages_and_evicts two_tracks_instance (1 # 60) 7%N
                                   old_track Hnd _)) (1 # 20) _ _) _).
    + simpl. left. reflexivity.
    + reflexivity.
    + unfold Qeq; simpl; lia.
    + unfold Qle; simpl; lia.
  - refine (proj2 (proj2 (proj2 (tick_ages_and_evicts two_tracks_instance (1 # 60) 3%N
                                   young_track Hnd _)) (1 # 20) _ _) _).
    + simpl. right. left. reflexivity.
    + reflexivity.
    + unfold Qeq; simpl; lia.
    + unfold Qlt; simpl; lia.
Defined.

Lemma tick_survivor (s : autoframing_instance) (dt : float) (p : ptr) (el : track_el) :
  In (p, el) (_tracked_elements (tracking_tick s dt)) ->
  exists el0, In (p, el0) (_tracked_elements s) /\ el = add_age el0 dt /\
    fge (Fin (age el0 + dt)) (age_threshold (_track_frequency s)) = false.
Proof.
  rewrite tick_tracked, age_and_evict_tracked. intros H.
  apply filter_In in H. destruct H as [H Hkeep].
  apply in_map_iff in H. destruct H as ([q e0] & E & H). inversion E; subst.
  exists e0. repeat split; [exact H |].
  simpl in Hkeep. apply negb_true_iff in Hkeep. exact Hkeep.
Qed.

Lemma tick_companion (s : autoframing_instance) (dt : float) (p : ptr) (el : track_el) :
  NoDup (map fst (_tracked_elements s)) ->
  In (p, el) (_tracked_elements (tracking_tick s dt)) ->
  PtrMap.find p (_predicted_elements (tracking_tick s dt))
  = Some (predict_element s dt el (PtrMap.find p (_predicted_elements s))).
Proof.
  intros Hnd Hin.
  destruct (tick_survivor s dt p el Hin) as (el0 & Hin0 & -> & Hkeep).
  rewrite tick_predicted.
  rewrite (update_predicted_found s dt _ _ p (add_age el0 dt)).
  - rewrite age_and_evict_kept; [reflexivity |].
    intros e He. rewrite (NoDup_fst_unique _ _ _ _ Hnd He Hin0). exact Hkeep.
  - apply survivors_NoDup. exact Hnd.
  - rewrite <- tick_tracked. exact Hin.
Qed.

(** C4.  For every element that [tracking_tick] processes, with tick
    duration [dt]: per axis, the motion-predicted position stored in its
    predicted element is the previous motion-predicted position if
    [age > dt], the track's position otherwise, plus
    [velocity * motion prediction gain * dt]; the two position filters are
    then fed this stored value. *)
Theorem motion_prediction_stored (s : autoframing_instance) (dt : float)
    (p : ptr) (el : track_el) :
  NoDup (map fst (_tracked_elements s)) ->
  In (p, el) (_tracked_elements (tracking_tick s dt)) ->
  exists prev pred : pred_el,
    prev = match PtrMap.find p (_predicted_elements s) with
           | Some previous => previous
           | None => new_pred_el (_motion_smoothing_kalman_pnc s)
                       (_motion_smoothing_kalman_mnc s) el
           end /\
    PtrMap.find p (_predicted_elements (tracking_tick s dt)) = Some pred /\
    x (mp_pos pred)
    = (if Qltb dt (age el) then x (mp_pos prev) else x (pos el))
      + x (vel el) * _motion_prediction s * dt /\
    y (mp_pos pred)
    = (if Qltb dt (age el) then y (mp_pos prev) else y (pos el))
      + y (vel el) * _motion_prediction s * dt /\
    filter_pos_x pred = filter (filter_pos_x prev) (x (mp_pos pred)) /\
    filter_pos_y pred = filter (filter_pos_y prev) (y (mp_pos pred)).
Proof.
  intros Hnd Hin. eexists.
  exists (predict_element s dt el (PtrMap.find p (_predicted_elements s))).
  split; [reflexivity |].
  split; [exact (tick_companion s dt p el Hnd Hin) |].
  unfold predict_element, motion_predicted. cbn [mp_pos filter_pos_x filter_pos_y].
  destruct (Qltb dt (age el)); repeat split; reflexivity.
Qed.

Lemma motion_prediction_stored_witness :
  exists prev pred : pred_el,
    prev = match PtrMap.find 3%N (_predicted_elements two_tracks_instance) with
           | Some previous => previous
           | None => new_pred_el (_motion_smoothing_kalman_pnc two_tracks_instance)
                       (_motion_smoothing_kalman_mnc two_tracks_instance)
                       (add_age young_track (1 # 60))
           end /\
    PtrMap.find 3%N (_predicted_elements (tracking_tick two_tracks_instance (1 # 60)))
    = Some pred /\
    x (mp_pos pred)
    = (if Qltb (1 # 60) (age (add_age young_track (1 # 60)))
       then x (mp_pos prev) else x (pos (add_age young_track (1 # 60))))
      + x (vel (add_age young_track (1 # 60)))
        * _motion_prediction two_tracks_instance * (1 # 60) /\
    y (mp_pos pred)
    = (if Qltb (1 # 60) (age (add_age young_track (1 # 60)))
       then y (mp_pos prev) else y (pos (add_age young_track (1 # 60))))
      + y (vel (add_age young_track (1 # 60)))
        * _motion_prediction two_tracks_instance * (1 # 60) /\
    filter_pos_x pred = filter (filter_pos_x prev) (x (mp_pos pred)) /\
    filter_pos_y pred = filter (filter_pos_y prev) (y (mp_pos pred)).
Proof.
  apply (motion_prediction_stored two_tracks_instance (1 # 60) 3%N
           (add_age young_track (1 # 60))).
  - simpl. repeat constructor; simpl; intuition discriminate.
  - vm_compute. left. reflexivity.
Defined.

(** ** The last entry of the predicted map *)

Lemma max_elt_aux_last {A : Type} (l : list (ptr * A)) (kv : ptr * A) :
  PtrMapOrd.max_elt_aux l = Some kv -> exists before, l = before ++ [kv].
Proof.
  induction l as [| [k e] rest IH]; intros H.
  - discriminate.
  - destruct rest as [| kv' rest'].
    + simpl in H. inversion H; subst. exists []. reflexivity.
    + destruct (IH H) as [before E]. exists ((k, e) :: before).
      rewrite E. reflexivity.
Qed.

Lemma rbegin_nonempty (m : predicted_map) :
  (0 < PtrMap.cardinal m)%nat -> exists kv, rbegin m = Some kv.
Proof.
  intros Hc. destruct (rbegin m) as [kv |] eqn:E.
  - exists kv. reflexivity.
  - apply PtrMapOrd.max_elt_Empty in E.
    apply PtrMapOrd.P.cardinal_1 in E. lia.
Qed.

Lemma rbegin_greatest (m : predicted_map) (k : ptr) (pred : pred_el) :
  rbegin m = Some (k, pred) -> forall k', PtrMap.In k' m -> (k' <= k)%N.
Proof.
  intros E k' Hin. destruct (N.eq_dec k k') as [-> | Hne].
  - lia.
  - apply N.lt_le_incl.
    apply (PtrMapOrd.max_elt_Above E).
    apply PtrMapFacts.remove_in_iff. split; assumption.
Qed.

(** C6 (amended).  In Solo mode with at least one predicted element the
    composer takes one predicted element, the last in the iteration order
    of the predicted map, which is the entry with the greatest key; it
    feeds that element's offset position to the two frame-level position
    filters, reads the frame centre back from them and takes that element's
    aspected size, unfiltered, as the frame size; the frame-level size
    filters are left alone. *)
Theorem solo_frames_last_entry (sz : N * N) (m : predicted_map) (f : frame_state) :
  (0 < PtrMap.cardinal m)%nat ->
  exists (k : ptr) (pred : pred_el) (before : list (ptr * pred_el)),
    PtrMap.elements m = before ++ [(k, pred)] /\
    PtrMap.MapsTo k pred m /\
    (forall k', PtrMap.In k' m -> (k' <= k)%N) /\
    frame_candidate sz SOLO m f
    = {| fs_pos_x := filter (fs_pos_x f) (x (offset_pos pred));
         fs_pos_y := filter (fs_pos_y f) (y (offset_pos pred));
         fs_size_x := fs_size_x f;
         fs_size_y := fs_size_y f;
         fs_pos := vec2_set (get (filter (fs_pos_x f) (x (offset_pos pred))))
                     (get (filter (fs_pos_y f) (y (offset_pos pred))));
         fs_size := aspected_size pred |}.
Proof.
  intros Hc. destruct (rbegin_nonempty m Hc) as [[k pred] E].
  destruct (max_elt_aux_last _ _ E) as [before Hl].
  exists k, pred, before. split; [exact Hl |].
  split; [apply PtrMapOrd.max_elt_MapsTo; exact E |].
  split; [apply rbegin_greatest with (pred := pred); exact E |].
  unfold frame_candidate.
  apply Nat.ltb_lt in Hc. rewrite Hc, E. reflexivity.
Qed.

Lemma solo_frames_last_entry_witness :
  exists (k : ptr) (pred : pred_el) (before : list (ptr * pred_el)),
    PtrMap.elements (_predicted_elements (predicted_tick solo_pair_instance (1 # 60)))
    = before ++ [(k, pred)] /\
    PtrMap.MapsTo k pred (_predicted_elements (predicted_tick solo_pair_instance (1 # 60))) /\
    (forall k',
       PtrMap.In k' (_predicted_elements (predicted_tick solo_pair_instance (1 # 60))) ->
       (k' <= k)%N) /\
    frame_candidate (1920, 1080)%N SOLO
      (_predicted_elements (predicted_tick solo_pair_instance (1 # 60)))
      (frame_of solo_pair_instance)
    = {| fs_pos_x := filter (fs_pos_x (frame_of solo_pair_instance)) (x (offset_pos pred));
         fs_pos_y := filter (fs_pos_y (frame_of solo_pair_instance)) (y (offset_pos pred));
         fs_size_x := fs_size_x (frame_of solo_pair_instance);
         fs_size_y := fs_size_y (frame_of solo_pair_instance);
         fs_pos := vec2_set
                     (get (filter (fs_pos_x (frame_of solo_pair_instance))
                             (x (offset_pos pred))))
                     (get (filter (fs_pos_y (frame_of solo_pair_instance))
                             (y (offset_pos pred))));
         fs_size := aspected_size pred |}.
Proof.
  apply (solo_frames_last_entry (1920, 1080)%N
           (_predicted_elements (predicted_tick solo_pair_instance (1 # 60)))
           (frame_of solo_pair_instance)).
  vm_compute. lia.
Defined.

(** C6, as stated, fails on "the most recently inserted one".  The tick on
    [solo_pair_instance] inserts the companion of the track at address 5
    first and the companion of the track at address 3 last; the frame takes
    the size of the first, the entry with the greatest key. *)
Lemma solo_not_most_recently_inserted :
  let s := predicted_tick solo_pair_instance (1 # 60) in
  let first := predict_element solo_pair_instance (1 # 60)
                 (add_age left_track (1 # 60)) None in
  let second := predict_element solo_pair_instance (1 # 60)
                  (add_age right_track (1 # 60)) None in
  _predicted_elements s
  = PtrMap.add 3%N second (PtrMap.add 5%N first (PtrMap.empty pred_el)) /\
  fs_size (frame_candidate (_size s) (_track_mode s) (_predicted_elements s) (frame_of s))
  = aspected_size first /\
  aspected_size first = vec2_set 100 100 /\
  aspected_size second = vec2_set 200 200.
Proof.
  repeat split; vm_compute; reflexivity.
Qed.

(** ** The companion invariant *)

Section Keeps.

Context {X : Type} (proj : autoframing_instance -> X).

Lemma keeps_ret {A : Type} (a : A) : keeps proj (ret a).
Proof. intros s. reflexivity. Qed.

Lemma keeps_throw {A : Type} (ex : exception) : keeps proj (@throw A ex).
Proof. intros s. reflexivity. Qed.

Lemma keeps_lift {A : Type} (r : exception + A) : keeps proj (lift r).
Proof. intros s. reflexivity. Qed.

Lemma keeps_read : keeps proj read.
Proof. intros s. reflexivity. Qed.

Lemma keeps_bind {A B : Type} (c : M A) (k : A -> M B) :
  keeps proj c -> (forall a, keeps proj (k a)) -> keeps proj (bind c k).
Proof.
  intros Hc Hk s. unfold bind. specialize (Hc s).
  destruct (c s) as [[ex | a] s1]; simpl in *.
  - exact Hc.
  - rewrite (Hk a s1). exact Hc.
Qed.

Lemma keeps_try_catch (body : M unit) (handler : std_exception -> M unit) :
  keeps proj body -> (forall ex, keeps proj (handler ex)) ->
  keeps proj (try_catch body handler).
Proof.
  intros Hb Hh s. unfold try_catch. specialize (Hb s).
  destruct (body s) as [[[ex | ] | a] s1]; simpl in *.
  - rewrite (Hh ex s1). exact Hb.
  - exact Hb.
  - exact Hb.
Qed.

(** The backend calls only write [_nvidia_fx] and [_track_mode]. *)
Hypothesis keeps_set_nvidia_fx : forall fx, keeps proj (set_nvidia_fx fx).
Hypothesis keeps_set_track_mode : forall mode, keeps proj (set_track_mode mode).

Lemma keeps_update_fx (B : backend) : keeps proj (nvar_facedetection_update B).
Proof.
  unfold nvar_facedetection_update. apply keeps_bind; [apply keeps_read |].
  intros s. destruct (_nvidia_fx s) as [fx |]; [| apply keeps_ret].
  destruct (_track_mode s).
  - apply keeps_bind; [apply keeps_lift |]. intros fx'.
    apply keeps_bind; [apply keeps_set_nvidia_fx |]. intros _.
    destruct (negb (is_temporal fx')); [apply keeps_set_track_mode | apply keeps_ret].
  - apply keeps_bind; [apply keeps_lift |]. intros fx'. apply keeps_set_nvidia_fx.
Qed.

Lemma keeps_load (B : backend) : keeps proj (nvar_facedetection_load B).
Proof.
  unfold nvar_facedetection_load.
  apply keeps_bind; [apply keeps_lift |]. intros fx.
  apply keeps_bind; [apply keeps_set_nvidia_fx |]. intros _. apply keeps_update_fx.
Qed.

Lemma keeps_unload (B : backend) : keeps proj (nvar_facedetection_unload B).
Proof.
  unfold nvar_facedetection_unload. apply keeps_bind; [apply keeps_read |].
  intros s. destruct (_nvidia_fx s) as [fx |]; [| apply keeps_ret].
  apply keeps_bind; [apply keeps_set_nvidia_fx |]. intros _.
  destruct (destroy_facedetection B fx); [apply keeps_throw | apply keeps_ret].
Qed.

Lemma keeps_unload_and_load (B : backend) (old : tracking_provider) :
  keeps proj (unload_and_load B old).
Proof.
  unfold unload_and_load. apply keeps_bind.
  - destruct old; try apply keeps_ret. apply keeps_unload.
  - intros _. apply keeps_bind; [apply keeps_read |].
    intros s. destruct (_provider s); try apply keeps_ret. apply keeps_load.
Qed.

End Keeps.

Lemma tracking_kept_by_task (B : backend) (old : tracking_provider) :
  keeps tracking_of (task_switch_provider B old).
Proof.
  unfold task_switch_provider.
  apply keeps_bind; [intros s; reflexivity |]. intros _.
  apply keeps_try_catch; [| intros ex s; reflexivity].
  apply keeps_bind.
  - apply keeps_unload_and_load; intros ? s; reflexivity.
  - intros _. apply keeps_bind; [intros s; reflexivity |].
    intros _ s. reflexivity.
Qed.

Lemma keeps_switch (B : backend) (provider : tracking_provider) (s : autoframing_instance) :
  _tracked_elements (snd (switch_provider B provider s)) = _tracked_elements s /\
  _predicted_elements (snd (switch_provider B provider s)) = _predicted_elements s.
Proof.
  assert (H : keeps tracking_of (switch_provider B provider)).
  { unfold switch_provider. apply keeps_bind; [apply keeps_read |]. intros s0.
    assert (Hgo : keeps tracking_of
                    (write_log (LOG_INFO "is switching provider") ;;;
                     modify (fun s1 => set_provider_state s1 provider (_provider_ready s1)
                                         (_nvidia_fx s1) (_track_mode s1) (log s1)) ;;;
                     task_switch_provider B (_provider s0))).
    { apply keeps_bind; [intros s1; reflexivity |]. intros _.
      apply keeps_bind; [intros s1; reflexivity |]. intros _.
      apply tracking_kept_by_task. }
    destruct provider, (_provider s0); try exact Hgo; apply keeps_ret. }
  specialize (H s). unfold tracking_of in H. inversion H. split; reflexivity.
Qed.

(** *** The detection pass *)

Lemma erase_at_incl {A : Type} (idx : nat) (l : list A) (a : A) :
  In a (erase_at idx l) -> In a l.
Proof.
  revert idx. induction l as [| b rest IH]; intros idx H.
  - destruct idx; exact H.
  - destruct idx as [| idx]; simpl in H.
    + right. exact H.
    + destruct H as [E | H]; [left; exact E | right; exact (IH idx H)].
Qed.

Lemma erase_at_NoDup {A B : Type} (g : A -> B) (idx : nat) (l : list A) :
  NoDup (map g l) -> NoDup (map g (erase_at idx l)).
Proof.
  revert idx. induction l as [| b rest IH]; intros idx H.
  - destruct idx; exact H.
  - simpl in H. inversion H as [| ? ? Hb Hrest]; subst.
    destruct idx as [| idx]; simpl.
    + exact Hrest.
    + constructor; [| apply IH; exact Hrest].
      intros Hin. apply Hb. apply in_map_iff in Hin.
      destruct Hin as (a & E & Hin). apply in_map_iff.
      exists a. split; [exact E | exact (erase_at_incl idx rest a Hin)].
Qed.

Section DetectionFacts.

Variable sqrtf : float -> float.

Lemma match_element_pool (max_dst : fval) (el : track_el) (boxes : tracked_list) :
  (forall b, In b (snd (match_element sqrtf max_dst el boxes)) -> In b boxes) /\
  (NoDup (map fst boxes) ->
   NoDup (map fst (snd (match_element sqrtf max_dst el boxes)))).
Proof.
  unfold match_element.
  destruct (snd (scan_boxes sqrtf el max_dst boxes 0 (max_dst, None))) as [idx |];
    [| split; auto].
  destruct (nth_error boxes idx) as [m |]; [| split; auto].
  simpl. split.
  - intros b. apply erase_at_incl.
  - apply erase_at_NoDup.
Qed.

Lemma associate_pointers (max_dst : fval) (tracked boxes : tracked_list) :
  map fst (fst (associate sqrtf max_dst tracked boxes)) = map fst tracked.
Proof.
  revert boxes. induction tracked as [| [p el] rest IH]; intros boxes; simpl.
  - reflexivity.
  - destruct (match_element sqrtf max_dst el boxes) as [el' boxes'].
    specialize (IH boxes').
    destruct (associate sqrtf max_dst rest boxes') as [rest' boxes''].
    simpl in *. rewrite IH. reflexivity.
Qed.

Lemma associate_pool (max_dst : fval) (tracked boxes : tracked_list) :
  (forall b, In b (snd (associate sqrtf max_dst tracked boxes)) -> In b boxes) /\
  (NoDup (map fst boxes) ->
   NoDup (map fst (snd (associate sqrtf max_dst tracked boxes)))).
Proof.
  revert boxes. induction tracked as [| [p el] rest IH]; intros boxes; simpl.
  - split; auto.
  - pose proof (match_element_pool max_dst el boxes) as [Hin Hnd].
    destruct (match_element sqrtf max_dst el boxes) as [el' boxes'].
    specialize (IH boxes'). destruct IH as [IHin IHnd].
    destruct (associate sqrtf max_dst rest boxes') as [rest' boxes''].
    simpl in *. split.
    + intros b Hb. apply Hin, IHin, Hb.
    + intros H. apply IHnd, Hnd, H.
Qed.

Lemma collect_boxes_addresses (detections : list detection) (p : ptr) :
  In p (map fst (collect_boxes detections)) ->
  exists d, In d detections /\ det_addr d = p.
Proof.
  induction detections as [| d rest IH]; simpl; intros H.
  - destruct H.
  - destruct (Qltb (det_confidence d) (1 # 2)).
    + destruct (IH H) as (d' & Hd & E). exists d'. auto.
    + destruct H as [E | H].
      * exists d. split; [left; reflexivity | exact E].
      * destruct (IH H) as (d' & Hd & E). exists d'. auto.
Qed.

Lemma collect_boxes_NoDup (detections : list detection) :
  NoDup (map det_addr detections) -> NoDup (map fst (collect_boxes detections)).
Proof.
  induction detections as [| d rest IH]; simpl; intros H.
  - constructor.
  - inversion H as [| ? ? Hd Hrest]; subst.
    destruct (Qltb (det_confidence d) (1 # 2)); [apply IH; exact Hrest |].
    simpl. constructor; [| apply IH; exact Hrest].
    intros Hin. apply collect_boxes_addresses in Hin.
    destruct Hin as (d' & Hd' & E). apply Hd. rewrite <- E.
    apply in_map. exact Hd'.
Qed.

Lemma process_predicted (s : autoframing_instance) (detections : list detection) :
  _predicted_elements (nvar_facedetection_process sqrtf s detections)
  = _predicted_elements s.
Proof.
  unfold nvar_facedetection_process.
  destruct (_nvidia_fx s); [| reflexivity].
  destruct (0 <? length detections)%nat; [| reflexivity].
  destruct (associate _ _ _ _) as [tracked boxes]. reflexivity.
Qed.

Lemma process_keeps_tracks (s : autoframing_instance) (detections : list detection)
    (p : ptr) :
  In p (map fst (_tracked_elements s)) ->
  In p (map fst (_tracked_elements (nvar_facedetection_process sqrtf s detections))).
Proof.
  intros H. unfold nvar_facedetection_process.
  destruct (_nvidia_fx s); [| exact H].
  destruct (0 <? length detections)%nat; [| exact H].
  pose proof (associate_pointers (max_distance sqrtf (_size s) (_track_frequency s))
                (_tracked_elements s) (collect_boxes detections)) as E.
  destruct (associate _ _ _ _) as [tracked boxes]. simpl in *.
  rewrite map_app, E. apply in_or_app. left. exact H.
Qed.

Lemma process_NoDup (s : autoframing_instance) (detections : list detection) :
  NoDup (map fst (_tracked_elements s)) ->
  fresh_addresses s detections ->
  NoDup (map fst (_tracked_elements (nvar_facedetection_process sqrtf s detections))).
Proof.
  intros Hnd [Hfresh Hnew]. unfold nvar_facedetection_process.
  destruct (_nvidia_fx s); [| exact Hnd].
  destruct (0 <? length detections)%nat; [| exact Hnd].
  pose proof (associate_pointers (max_distance sqrtf (_size s) (_track_frequency s))
                (_tracked_elements s) (collect_boxes detections)) as E.
  pose proof (associate_pool (max_distance sqrtf (_size s) (_track_frequency s))
                (_tracked_elements s) (collect_boxes detections)) as [Hin Hpool].
  destruct (associate _ _ _ _) as [tracked boxes]. simpl in *.
  rewrite map_app, E. apply NoDup_app.
  { exact Hnd. }
  { apply Hpool, collect_boxes_NoDup, Hfresh. }
  intros p Hp Hb. apply in_map_iff in Hb. destruct Hb as (b & Eb & Hb).
  apply Hin in Hb.
  destruct (collect_boxes_addresses detections p) as (d & Hd & Ed).
  { rewrite <- Eb. apply in_map. exact Hb. }
  apply (Hnew d Hd). rewrite Ed. exact Hp.
Qed.

End DetectionFacts.

(** *** The invariant along the callbacks *)

Lemma tick_companions_exact (s : autoframing_instance) (dt : float) :
  no_dangling_prediction s -> companions_exact (tracking_tick s dt).
Proof.
  intros Hinv p. rewrite tick_tracked, tick_predicted, update_predicted_keys.
  set (thr := age_threshold (_track_frequency s)).
  split; [| intros H; right; exact H].
  intros [Hin | Hin]; [| exact Hin].
  apply PtrMapFacts.in_find_iff in Hin.
  assert (Hbefore : PtrMap.In p (_predicted_elements s)).
  { apply PtrMapFacts.in_find_iff. intros E. apply Hin.
    apply age_and_evict_none. exact E. }
  apply Hinv in Hbefore. apply in_map_iff in Hbefore.
  destruct Hbefore as ([q el] & E & Hel). simpl in E. subst q.
  destruct (fge (Fin (age el + dt)) thr) eqn:Hold.
  - exfalso. apply Hin. apply (age_and_evict_erased dt thr _ _ p el Hel Hold).
  - rewrite age_and_evict_tracked. apply in_map_iff.
    exists (p, add_age el dt). split; [reflexivity |].
    apply filter_In. split.
    + apply in_map_iff. exists (p, el). split; [reflexivity | exact Hel].
    + simpl. fold thr. rewrite Hold. reflexivity.
Qed.

Lemma video_tick_companions_exact (s : autoframing_instance) (width height : N)
    (dt : float) :
  no_dangling_prediction s -> companions_exact (video_tick s width height dt).
Proof.
  intros Hinv. unfold video_tick. apply tick_companions_exact. exact Hinv.
Qed.

Lemma exact_no_dangling (s : autoframing_instance) :
  companions_exact s -> no_dangling_prediction s.
Proof.
  intros H p Hp. apply H. exact Hp.
Qed.

Lemma render_no_dangling (sqrtf : float -> float) (s : autoframing_instance)
    (detections : list detection) :
  no_dangling_prediction s ->
  no_dangling_prediction (video_render_track sqrtf s detections).
Proof.
  intros Hinv. unfold video_render_track.
  destruct (fge _ _); [| exact Hinv].
  cbn [_provider set_size_counter].
  destruct (_provider s); try exact Hinv.
  intros p Hp. rewrite process_predicted in Hp.
  apply process_keeps_tracks. apply Hinv. exact Hp.
Qed.

Lemma step_no_dangling (sqrtf : float -> float) (sscanf_f : string -> option fval)
    (lerp : float -> float -> float -> float) (s s' : autoframing_instance) :
  step sqrtf sscanf_f lerp s s' ->
  no_dangling_prediction s -> no_dangling_prediction s'.
Proof.
  intros Hstep Hinv. destruct Hstep.
  - intros p Hp. apply Hinv. cbn [_predicted_elements update] in Hp.
    apply PtrMapFacts.map_in_iff in Hp. exact Hp.
  - destruct (keeps_switch B provider s) as [Ht Hp].
    intros p. rewrite Ht, Hp. apply Hinv.
  - apply exact_no_dangling, video_tick_companions_exact, Hinv.
  - apply render_no_dangling. exact Hinv.
Qed.

Lemma reachable_no_dangling (sqrtf : float -> float) (sscanf_f : string -> option fval)
    (lerp : float -> float -> float -> float) (s : autoframing_instance) :
  reachable sqrtf sscanf_f lerp s -> no_dangling_prediction s.
Proof.
  induction 1 as [| s s' _ IH Hstep].
  - intros p Hp. apply PtrMapFacts.empty_in_iff in Hp. destruct Hp.
  - exact (step_no_dangling _ _ _ s s' Hstep IH).
Qed.

(** The pointers of the tracked list stay distinct along the callbacks. *)
Lemma reachable_NoDup (sqrtf : float -> float) (sscanf_f : string -> option fval)
    (lerp : float -> float -> float -> float) (s : autoframing_instance) :
  reachable sqrtf sscanf_f lerp s -> NoDup (map fst (_tracked_elements s)).
Proof.
  induction 1 as [| s s' _ IH Hstep].
  - constructor.
  - destruct Hstep.
    + exact IH.
    + destruct (keeps_switch B provider s) as [Ht _]. rewrite Ht. exact IH.
    + unfold video_tick. rewrite tick_tracked. apply survivors_NoDup. exact IH.
    + unfold video_render_track. destruct (fge _ _); [| exact IH].
      cbn [_provider set_size_counter]. destruct (_provider s); try exact IH.
      apply process_NoDup; assumption.
Qed.

(** C7 (amended).  In every state the instance can be observed in, every
    key of the predicted map is a live tracked element: no predicted
    element outlives its track.  After every tick the key set of the
    predicted map equals the set of live tracked elements: a track gets its
    companion in the first tick after it was spawned, and an evicted track
    loses it in the tick that evicts it. *)
Theorem companions_follow_tracks (sqrtf : float -> float)
    (sscanf_f : string -> option fval) (lerp : float -> float -> float -> float)
    (s : autoframing_instance) :
  reachable sqrtf sscanf_f lerp s ->
  no_dangling_prediction s /\
  forall (width height : N) (dt : float),
    companions_exact (video_tick s width height dt).
Proof.
  intros Hs. pose proof (reachable_no_dangling _ _ _ s Hs) as Hinv.
  split; [exact Hinv |].
  intros width height dt. apply video_tick_companions_exact. exact Hinv.
Qed.

Lemma first_detection_reachable :
  reachable sqrtf_floor sscanf_decimal lerp_linear first_detection_state.
Proof.
  unfold first_detection_state.
  eapply reachable_step; [| apply step_render].
  - eapply reachable_step; [| apply step_tick].
    eapply reachable_step; [apply reachable_initial | apply step_switch].
  - split.
    + simpl. repeat constructor. simpl. tauto.
    + intros d Hd. vm_compute. tauto.
Qed.

Lemma companions_follow_tracks_witness :
  no_dangling_prediction first_detection_state /\
  companions_exact (video_tick first_detection_state 1920 1080 (1 # 60)).
Proof.
  destruct (companions_follow_tracks sqrtf_floor sscanf_decimal lerp_linear
              first_detection_state first_detection_reachable) as [H1 H2].
  split; [exact H1 | apply H2].
Defined.

(** C7, as stated, fails after a detection pass.  A provider switch, a
    tick of one second and a pass that detects one face lead to a state
    with one tracked element and no predicted element. *)
Lemma fresh_track_without_companion :
  reachable sqrtf_floor sscanf_decimal lerp_linear first_detection_state /\
  map fst (_tracked_elements first_detection_state) = [4096%N] /\
  PtrMap.elements (_predicted_elements first_detection_state) = [] /\
  ~ companions_exact first_detection_state.
Proof.
  split; [exact first_detection_reachable |].
  split; [vm_compute; reflexivity |].
  split; [vm_compute; reflexivity |].
  intros H. specialize (H 4096%N).
  assert (Hin : PtrMap.In 4096%N (_predicted_elements first_detection_state)).
  { apply H. vm_compute. left. reflexivity. }
  apply PtrMapFacts.in_find_iff in Hin. apply Hin. vm_compute. reflexivity.
Qed.

(** ** The association of detections *)

Lemma flt_separates (a c : Q) (t : fval) :
  flt (Fin a) t = true -> flt (Fin c) t = false -> a <= c.
Proof.
  destruct t as [m | | |]; unfold flt; try discriminate.
  intros Ha Hc. apply Qltb_true in Ha. apply Qltb_false in Hc. lra.
Qed.

Section AssociationFacts.

Variable sqrtf : float -> float.

Lemma scan_boxes_invariant (el : track_el) (max_dst : fval)
    (rest done : tracked_list) (m : fval * option nat) :
  scan_invariant sqrtf el max_dst done m ->
  scan_invariant sqrtf el max_dst (done ++ rest)
    (scan_boxes sqrtf el max_dst rest (length done) m).
Proof.
  revert done m. induction rest as [| b rest IH]; intros done m Hinv.
  - rewrite app_nil_r. exact Hinv.
  - cbn [scan_boxes].
    replace (done ++ b :: rest) with ((done ++ [b]) ++ rest)
      by (rewrite <- app_assoc; reflexivity).
    replace (S (length done)) with (length (done ++ [b]))
      by (rewrite length_app; simpl; lia).
    apply IH. clear IH.
    set (dst := vec2_dist sqrtf (pos (snd b)) (pos el)).
    destruct m as [match_dst match_iter]. unfold scan_invariant in *.
    cbn [fst snd] in *.
    destruct (flt (Fin dst) match_dst && flt (Fin dst) max_dst) eqn:Hcond.
    + (* the box is nearer than the match so far, and near enough *)
      apply andb_true_iff in Hcond. destruct Hcond as [Hnear Hmax].
      cbn [fst snd]. exists b. split.
      { rewrite nth_error_app2 by lia. rewrite Nat.sub_diag. reflexivity. }
      split; [reflexivity |]. split; [exact Hmax |].
      intros b' Hb'. apply in_app_or in Hb'. destruct Hb' as [Hb' | Hb'].
      * destruct match_iter as [idx |].
        -- destruct Hinv as (box & _ & E & _ & Hmin). rewrite E in Hnear.
           unfold flt in Hnear. apply Qltb_true in Hnear.
           specialize (Hmin b' Hb'). fold dst. lra.
        -- destruct Hinv as [_ Hfar]. fold dst.
           exact (flt_separates _ _ _ Hmax (Hfar b' Hb')).
      * destruct Hb' as [<- | []]. fold dst. lra.
    + (* the match stays *)
      cbn [fst snd]. destruct match_iter as [idx |].
      * destruct Hinv as (box & Hnth & E & Hmax & Hmin).
        exists box. split.
        { rewrite nth_error_app1; [exact Hnth |].
          apply nth_error_Some. rewrite Hnth. discriminate. }
        split; [exact E |]. split; [exact Hmax |].
        intros b' Hb'. apply in_app_or in Hb'. destruct Hb' as [Hb' | Hb'].
        -- exact (Hmin b' Hb').
        -- destruct Hb' as [<- | []]. fold dst.
           apply andb_false_iff in Hcond. destruct Hcond as [Hfar | Hfar].
           ++ rewrite E in Hfar. unfold flt in Hfar. apply Qltb_false in Hfar.
              exact Hfar.
           ++ exact (flt_separates _ _ _ Hmax Hfar).
      * destruct Hinv as [E Hfar]. split; [exact E |].
        intros b' Hb'. apply in_app_or in Hb'. destruct Hb' as [Hb' | Hb'].
        -- exact (Hfar b' Hb').
        -- destruct Hb' as [<- | []]. fold dst. subst match_dst.
           apply andb_false_iff in Hcond. destruct Hcond; assumption.
Qed.

Lemma scan_boxes_result (el : track_el) (max_dst : fval) (boxes : tracked_list) :
  scan_invariant sqrtf el max_dst boxes
    (scan_boxes sqrtf el max_dst boxes 0 (max_dst, None)).
Proof.
  apply (scan_boxes_invariant el max_dst boxes [] (max_dst, None)).
  split; [reflexivity | intros b []].
Qed.

Lemma associate_associated (max_dst : fval) (tracked boxes : tracked_list) :
  associated sqrtf max_dst tracked boxes
    (fst (associate sqrtf max_dst tracked boxes))
    (snd (associate sqrtf max_dst tracked boxes)).
Proof.
  revert boxes. induction tracked as [| [p el] rest IH]; intros boxes.
  - apply associated_done.
  - cbn [associate]. unfold match_element.
    pose proof (scan_boxes_result el max_dst boxes) as Hscan.
    unfold scan_invariant in Hscan.
    destruct (snd (scan_boxes sqrtf el max_dst boxes 0 (max_dst, None))) as [idx |].
    + destruct Hscan as (box & Hnth & _ & Hmax & Hmin). rewrite Hnth.
      specialize (IH (erase_at idx boxes)).
      destruct (associate sqrtf max_dst rest (erase_at idx boxes)) as [rest' pool'].
      cbn [fst snd] in *. unfold matched.
      eapply associated_accept; eassumption.
    + destruct Hscan as [_ Hfar]. specialize (IH boxes).
      destruct (associate sqrtf max_dst rest boxes) as [rest' pool'].
      cbn [fst snd] in *. apply associated_keep; assumption.
Qed.

Lemma collect_boxes_fresh (detections : list detection) (b : ptr * track_el) :
  In b (collect_boxes detections) ->
  (exists d, In d detections /\ b = potential_match d) /\
  age (snd b) = 0 /\ vel (snd b) = vec2_set 0 0.
Proof.
  induction detections as [| d rest IH]; simpl; intros H.
  - destruct H.
  - assert (Hrest : In b (collect_boxes rest) ->
                    (exists d0, (d = d0 \/ In d0 rest) /\ b = potential_match d0) /\
                    age (snd b) = 0 /\ vel (snd b) = vec2_set 0 0).
    { intros Hb. destruct (IH Hb) as ((d0 & Hd0 & E) & Hage & Hvel).
      split; [exists d0; auto | auto]. }
    destruct (Qltb (det_confidence d) (1 # 2)); [exact (Hrest H) |].
    destruct H as [<- | H]; [| exact (Hrest H)].
    split; [exists d; auto | split; reflexivity].
Qed.

Lemma collect_boxes_confident_map (detections : list detection) :
  collect_boxes detections = map potential_match (confident detections).
Proof.
  induction detections as [| d rest IH]; [reflexivity |].
  cbn [collect_boxes confident List.filter]. fold (confident rest).
  unfold Qltb. destruct (Qle_bool (1 # 2) (det_confidence d)); cbn [negb].
  - cbn [map]. rewrite IH. reflexivity.
  - exact IH.
Qed.

Lemma erase_at_middle {A : Type} (before after : list A) (a : A) :
  erase_at (length before) (before ++ a :: after) = before ++ after.
Proof.
  induction before as [| b rest IH]; [reflexivity |].
  cbn [length app erase_at]. rewrite IH. reflexivity.
Qed.

Lemma associated_assigned (max_dst : fval) (tracked boxes tracked' boxes' : tracked_list) :
  associated sqrtf max_dst tracked boxes tracked' boxes' ->
  forall pool, boxes = map potential_match pool ->
  exists pool', boxes' = map potential_match pool' /\
                assigned sqrtf max_dst tracked pool tracked' pool'.
Proof.
  induction 1 as [boxes | p el rest boxes idx box rest' boxes' Hnth Hmax Hmin _ IH
                 | p el rest boxes rest' boxes' Hfar _ IH]; intros pool E; subst.
  - exists pool. split; [reflexivity | apply assigned_done].
  - rewrite nth_error_map in Hnth.
    destruct (nth_error pool idx) as [d |] eqn:Hd; [| discriminate].
    cbn [option_map] in Hnth. inversion Hnth; subst box. clear Hnth.
    destruct (nth_error_split pool idx Hd) as (before & after & -> & Hlen). subst idx.
    destruct (IH (before ++ after)) as (pool' & E' & Hass).
    { rewrite !map_app. cbn [map]. rewrite <- (length_map potential_match before).
      apply erase_at_middle. }
    exists pool'. split; [exact E' |].
    apply (assigned_accept sqrtf max_dst p el rest before d after rest' pool').
    + exact Hmax.
    + intros d' Hd'. apply (Hmin (potential_match d')). apply in_map. exact Hd'.
    + exact Hass.
  - destruct (IH pool eq_refl) as (pool' & E' & Hass).
    exists pool'. split; [exact E' |].
    apply assigned_keep; [| exact Hass].
    intros d Hd. apply (Hfar (potential_match d)). apply in_map. exact Hd.
Qed.

(** C3.  In a detection pass the existing tracks are taken in order,
    each against the detections not yet matched: a track takes a
    detection at the smallest centroid distance when that distance is
    strictly below the maximum distance; its position and size become the
    detection's, its velocity the old position minus the new one, its age
    0, its confidence the detection's, and the detection leaves the pool.
    The detections left in the pool after the last track are appended to
    the tracked elements as new elements with age 0 and zero velocity.  The
    pool holds the detections with a confidence of at least one half. *)
Theorem detections_associated (s : autoframing_instance)
    (detections : list detection) (fx : facedetection) :
  _nvidia_fx s = Some fx ->
  detections <> [] ->
  exists (tracks : tracked_list) (unmatched : list detection),
    assigned sqrtf (max_distance sqrtf (_size s) (_track_frequency s))
      (_tracked_elements s) (confident detections) tracks unmatched /\
    _tracked_elements (nvar_facedetection_process sqrtf s detections)
    = tracks ++ map new_track unmatched.
Proof.
  intros Hfx Hdet. unfold nvar_facedetection_process. rewrite Hfx.
  destruct detections as [| d rest]; [congruence |].
  cbn [length Nat.ltb Nat.leb].
  set (max_dst := max_distance sqrtf (_size s) (_track_frequency s)).
  pose proof (associate_associated max_dst (_tracked_elements s)
                (collect_boxes (d :: rest))) as Hassoc.
  destruct (associate sqrtf max_dst (_tracked_elements s) (collect_boxes (d :: rest)))
    as [tracks boxes].
  cbn [fst snd] in Hassoc.
  destruct (associated_assigned max_dst _ _ _ _ Hassoc (confident (d :: rest))
              (collect_boxes_confident_map (d :: rest))) as (unmatched & E & Hass).
  exists tracks, unmatched. split; [exact Hass |].
  cbn [_tracked_elements set_tracking]. rewrite E. reflexivity.
Qed.

End AssociationFacts.

Lemma detections_associated_witness :
  exists (tracks : tracked_list) (unmatched : list detection),
    assigned sqrtf_floor
      (max_distance sqrtf_floor (_size two_tracks_instance)
         (_track_frequency two_tracks_instance))
      (_tracked_elements two_tracks_instance) (confident two_faces) tracks unmatched /\
    _tracked_elements (nvar_facedetection_process sqrtf_floor two_tracks_instance two_faces)
    = tracks ++ map new_track unmatched.
Proof.
  apply (detections_associated sqrtf_floor two_tracks_instance two_faces
           {| tracking_limit := 8; tracking_limit_range := (1, 8)%N; is_temporal := false |}).
  - reflexivity.
  - discriminate.
Defined.

(** ** The settings *)

Lemma strchr_app (a b : string) (c : ascii) :
  strchr (a ++ b) c
  = match strchr a c with
    | Some r => Some (r ++ b)%string
    | None => strchr b c
    end.
Proof.
  induction a as [| ch a IH]; simpl.
  - reflexivity.
  - destruct (Ascii.eqb ch c); [reflexivity | exact IH].
Qed.

Section SettingsFacts.

Variable sscanf_f : string -> option fval.
Variable lerp : float -> float -> float -> float.

(** C8.  For the frequency text that [update] processes: a text
    ["<N> Hz"] that converts to the number [N] sets the tracking period to
    [1 / N]; a text ["<N> s"] sets it to [N]; a text that does not convert
    to a number sets it to the default 0; no error reaches the caller
    ([update] always returns an instance). *)
Theorem frequency_text_parsed (s : autoframing_instance) (data : obs_data)
    (text : string) :
  Tracking_Frequency data = Some text ->
  (forall (num : string) (v : fval),
     text = (num ++ " Hz")%string -> strchr num "s" = None ->
     sscanf_f text = Some v ->
     _track_frequency (update sscanf_f lerp s data) = fdiv (Fin 1) v /\
     forall n : Q, v = Fin n -> ~ n == 0 ->
       _track_frequency (update sscanf_f lerp s data) = Fin (1 / n)) /\
  (forall (num : string) (v : fval),
     text = (num ++ " s")%string -> sscanf_f text = Some v ->
     _track_frequency (update sscanf_f lerp s data) = v) /\
  (sscanf_f text = None ->
   _track_frequency (update sscanf_f lerp s data) = Fin 0).
Proof.
  intros Htext. cbn [_track_frequency update]. rewrite Htext.
  unfold parse_frequency. split; [| split].
  - intros num v -> Hnum Hv. rewrite Hv, strchr_app, Hnum.
    split; [reflexivity |].
    intros n -> Hn. cbn [strchr Ascii.eqb].
    unfold fdiv. apply Qeq_bool_false in Hn. rewrite Hn. reflexivity.
  - intros num v -> Hv. rewrite Hv, strchr_app.
    destruct (strchr num "s"); reflexivity.
  - intros Hnone. rewrite Hnone. reflexivity.
Qed.

(** C10.  [update] regenerates the four filters of every predicted
    element and the four frame-level filters with the new noise
    parameters and the initial error covariance, seeded with the value
    that [get] gave before: the keys of the predicted map and every
    estimate are unchanged. *)
Theorem update_keeps_estimates (s : autoframing_instance) (data : obs_data) :
  let s' := update sscanf_f lerp s data in
  (forall p : ptr,
     option_map estimates (PtrMap.find p (_predicted_elements s'))
     = option_map estimates (PtrMap.find p (_predicted_elements s))) /\
  (forall p : ptr,
     option_map noises (PtrMap.find p (_predicted_elements s'))
     = option_map
         (fun _ => repeat (_motion_smoothing_kalman_pnc s',
                           _motion_smoothing_kalman_mnc s', ST_KALMAN_EEC) 4)
         (PtrMap.find p (_predicted_elements s))) /\
  (get (_frame_pos_x s'), get (_frame_pos_y s'),
   get (_frame_size_x s'), get (_frame_size_y s'))
  = (get (_frame_pos_x s), get (_frame_pos_y s),
     get (_frame_size_x s), get (_frame_size_y s)) /\
  [noise_of (_frame_pos_x s'); noise_of (_frame_pos_y s');
   noise_of (_frame_size_x s'); noise_of (_frame_size_y s')]
  = repeat (_frame_stability_kalman s', 1, ST_KALMAN_EEC) 4.
Proof.
  cbv zeta. cbn [update _predicted_elements _frame_pos_x _frame_pos_y _frame_size_x
                 _frame_size_y _motion_smoothing_kalman_pnc _motion_smoothing_kalman_mnc
                 _frame_stability_kalman].
  repeat split.
  - intros p. rewrite PtrMapFacts.map_o.
    destruct (PtrMap.find p (_predicted_elements s)); reflexivity.
  - intros p. rewrite PtrMapFacts.map_o.
    destruct (PtrMap.find p (_predicted_elements s)); reflexivity.
Qed.

End SettingsFacts.

Lemma frequency_text_parsed_witness :
  _track_frequency
    (update sscanf_decimal lerp_linear initial_instance
       default_settings)
  = Fin (1 / 20).
Proof.
  refine (proj2 (proj1 (frequency_text_parsed sscanf_decimal lerp_linear initial_instance
             default_settings
             "20 Hz"%string _) "20"%string (Fin 20) _ _ _) 20 _ _).
  - reflexivity.
  - reflexivity.
  - reflexivity.
  - reflexivity.
  - reflexivity.
  - discriminate.
Defined.

(** ** The provider switch *)





(** The switch of [initial_instance] to the backend whose construction
    throws. *)
Example failed_load_is_not_ready :
  let r := task_switch_provider failing_backend INVALID
             (set_provider_state initial_instance NVIDIA_FACEDETECTION false None SOLO []) in
  fst r = inr tt /\ _provider_ready (snd r) = false /\
  log (snd r) = [LOG_ERROR "failed switching provider with error: Failed to create feature."].
Proof.
  repeat split.
Qed.

(** * Further properties *)

(** ** The regimes of the eviction threshold *)

Lemma age_threshold_at_one (f : Q) : f == 1 -> age_threshold (Fin f) = PInf.
Proof.
  intros Hf. unfold age_threshold, fsub, fdiv, fmul.
  assert (E : Qeq_bool (1 - f) 0 = true) by (apply Qeq_bool_iff; lra).
  rewrite E. reflexivity.
Qed.

Lemma age_threshold_finite (f : Q) :
  ~ f == 1 -> age_threshold (Fin f) = Fin ((1 # 2) * (1 / (1 - f))).
Proof.
  intros Hf. unfold age_threshold, fsub, fdiv, fmul.
  assert (E : Qeq_bool (1 - f) 0 = false) by (apply Qeq_bool_false; lra).
  rewrite E. reflexivity.
Qed.

Lemma Qinv_below_one (f : Q) : 0 <= f -> f < 1 -> 1 <= 1 / (1 - f).
Proof.
  intros H0 H1. apply Qle_shift_div_l; lra.
Qed.

Lemma Qinv_negative (f : Q) : 1 < f -> 1 / (1 - f) < 0.
Proof.
  intros H. assert (Hpos : 0 < 1 / (f - 1)) by (apply Qlt_shift_div_l; lra).
  assert (E : 1 / (1 - f) == - (1 / (f - 1))) by (field; lra).
  lra.
Qed.

Lemma filter_all {A : Type} (f : A -> bool) (l : list A) :
  (forall a, In a l -> f a = true) -> List.filter f l = l.
Proof.
  induction l as [| a rest IH]; intros H; cbn [List.filter].
  - reflexivity.
  - rewrite (H a) by (left; reflexivity). rewrite IH; [reflexivity |].
    intros b Hb. apply H. right. exact Hb.
Qed.

Lemma filter_none {A : Type} (f : A -> bool) (l : list A) :
  (forall a, In a l -> f a = false) -> List.filter f l = [].
Proof.
  induction l as [| a rest IH]; intros H; cbn [List.filter].
  - reflexivity.
  - rewrite (H a) by (left; reflexivity). apply IH.
    intros b Hb. apply H. right. exact Hb.
Qed.

Lemma tick_tracked_exact (s : autoframing_instance) (dt : float) :
  _tracked_elements (tracking_tick s dt)
  = List.filter
      (fun pt => negb (fge (Fin (age (snd pt))) (age_threshold (_track_frequency s))))
      (map (fun pt => (fst pt, add_age (snd pt) dt)) (_tracked_elements s)).
Proof.
  rewrite tick_tracked. apply age_and_evict_tracked.
Qed.

(** X1.  A tick neither adds nor reorders tracked elements: the list after
    the tick holds, in their order, the elements whose age plus [dt] is not
    at the threshold, each with its age increased by [dt]. *)
Theorem tick_keeps_survivors_in_order (s : autoframing_instance) (dt : float) :
  _tracked_elements (tracking_tick s dt)
  = map (fun pt => (fst pt, add_age (snd pt) dt))
      (List.filter
         (fun pt => negb (fge (Fin (age (snd pt) + dt))
                            (age_threshold (_track_frequency s))))
         (_tracked_elements s)).
Proof.
  rewrite tick_tracked_exact.
  induction (_tracked_elements s) as [| [p el] rest IH]; simpl.
  - reflexivity.
  - destruct (fge (Fin (age el + dt)) (age_threshold (_track_frequency s))); simpl.
    + exact IH.
    + rewrite IH. reflexivity.
Qed.

(** X2.  At the tracking period 1 (the value the constructor sets) the
    threshold is infinite: a tick evicts nothing, whatever the ages. *)
Theorem period_one_never_evicts (s : autoframing_instance) (dt f : float) :
  _track_frequency s = Fin f -> f == 1 ->
  _tracked_elements (tracking_tick s dt)
  = map (fun pt => (fst pt, add_age (snd pt) dt)) (_tracked_elements s).
Proof.
  intros Hs Hf. rewrite tick_tracked_exact, Hs, (age_threshold_at_one f Hf).
  apply filter_all. intros a _. reflexivity.
Qed.

Lemma period_one_never_evicts_witness :
  _tracked_elements (tracking_tick shrunk_instance 1000)
  = map (fun pt => (fst pt, add_age (snd pt) 1000)) (_tracked_elements shrunk_instance).
Proof.
  apply (period_one_never_evicts shrunk_instance 1000 1); reflexivity.
Defined.

(** X3.  At a tracking period above 1 the threshold is negative: a tick
    of non-negative duration evicts every tracked element of non-negative
    age, and with them every predicted element. *)
Theorem long_period_evicts_all (s : autoframing_instance) (dt f : float) :
  _track_frequency s = Fin f -> 1 < f -> 0 <= dt ->
  (forall p el, In (p, el) (_tracked_elements s) -> 0 <= age el) ->
  no_dangling_prediction s ->
  _tracked_elements (tracking_tick s dt) = [] /\
  PtrMap.Empty (_predicted_elements (tracking_tick s dt)).
Proof.
  intros Hs Hf Hdt Hage Hinv.
  assert (Hnone : _tracked_elements (tracking_tick s dt) = []).
  { rewrite tick_tracked_exact, Hs, age_threshold_finite by lra.
    pose proof (Qinv_negative f Hf) as Hneg.
    apply filter_none. intros [p el'] Hin.
    apply in_map_iff in Hin. destruct Hin as ([q el] & E & Hin).
    inversion E; subst. cbn [snd add_age age].
    assert (Hel : 0 <= age el) by exact (Hage p el Hin).
    apply negb_false_iff. unfold fge. apply Qle_bool_iff. nra. }
  split; [exact Hnone |].
  intros p pred Hp.
  assert (Hin : PtrMap.In p (_predicted_elements (tracking_tick s dt))).
  { exists pred. exact Hp. }
  apply (tick_companions_exact s dt Hinv) in Hin.
  rewrite Hnone in Hin. destruct Hin.
Qed.

Lemma long_period_evicts_all_witness :
  _tracked_elements (tracking_tick slow_period_instance (1 # 60)) = [] /\
  PtrMap.Empty (_predicted_elements (tracking_tick slow_period_instance (1 # 60))).
Proof.
  apply (long_period_evicts_all slow_period_instance (1 # 60) 2).
  - reflexivity.
  - reflexivity.
  - unfold Qle; simpl; lia.
  - intros p el [E | [E | []]]; inversion E; subst; unfold Qle; simpl; lia.
  - intros p Hp. apply PtrMapFacts.in_find_iff in Hp.
    destruct (N.eq_dec p 7) as [-> | Hne].
    + simpl. left. reflexivity.
    + exfalso. apply Hp. unfold slow_period_instance. cbn [_predicted_elements update].
      rewrite PtrMapFacts.map_o. cbn [_predicted_elements two_tracks_instance].
      rewrite PtrMapFacts.add_neq_o by (intros E; apply Hne; symmetry; exact E).
      reflexivity.
Defined.

(** X4.  At a tracking period in [0, 1) the threshold is at least half a
    second: an element whose age after the tick is below 0.5 is kept. *)
Theorem short_period_keeps_half_second (s : autoframing_instance) (dt f : float)
    (p : ptr) (el : track_el) :
  _track_frequency s = Fin f -> 0 <= f -> f < 1 ->
  In (p, el) (_tracked_elements s) ->
  age el + dt < 1 # 2 ->
  In (p, add_age el dt) (_tracked_elements (tracking_tick s dt)).
Proof.
  intros Hs H0 H1 Hin Hyoung.
  rewrite tick_tracked_exact, Hs, age_threshold_finite by lra.
  apply filter_In. split.
  - apply in_map_iff. exists (p, el). split; [reflexivity | exact Hin].
  - cbn [snd add_age age]. apply negb_true_iff. unfold fge.
    apply Qle_bool_false. pose proof (Qinv_below_one f H0 H1). nra.
Qed.

Lemma short_period_keeps_half_second_witness :
  In (3%N, add_age young_track (1 # 60))
    (_tracked_elements (tracking_tick two_tracks_instance (1 # 60))).
Proof.
  apply (short_period_keeps_half_second two_tracks_instance (1 # 60) (1 # 20) 3%N young_track).
  - reflexivity.
  - unfold Qle; simpl; lia.
  - reflexivity.
  - simpl. right. left. reflexivity.
  - reflexivity.
Defined.

(** ** The final frame *)

Lemma aspect_match_ratio (a : float) (sz : vec2) :
  0 < a -> x (aspect_match a sz) == y (aspect_match a sz) * a.
Proof.
  intros Ha. unfold aspect_match.
  destruct (flt (Fin a) (fdiv (Fin (x sz)) (Fin (y sz)))); cbn [x y].
  - reflexivity.
  - symmetry. apply Qdiv_cancel. lra.
Qed.

(** X5.  For positive frame dimensions the frame that leaves the
    three-step correction has the target aspect exactly, for every
    candidate: its width is its height times the aspect (the configured
    ratio if it is above 0, the aspect of the source otherwise). *)
Theorem final_frame_has_target_aspect (sz : N * N) (ratio : float) (p s : vec2) :
  (0 < fst sz)%N -> (0 < snd sz)%N ->
  x (snd (aspect_correction sz ratio p s))
  == y (snd (aspect_correction sz ratio p s)) * frame_aspect sz ratio.
Proof.
  intros Hw Hh. unfold aspect_correction.
  destruct (clamp_to_frame sz p (aspect_contain (frame_aspect sz ratio) s)) as [p2 s2].
  cbn [snd]. apply aspect_match_ratio. apply frame_aspect_pos; assumption.
Qed.

Lemma final_frame_has_target_aspect_witness :
  x (snd (aspect_correction (1920, 1080)%N (4 # 3) (Vec2 1900 400) (Vec2 200 0)))
  == y (snd (aspect_correction (1920, 1080)%N (4 # 3) (Vec2 1900 400) (Vec2 200 0)))
     * frame_aspect (1920, 1080)%N (4 # 3).
Proof.
  apply (final_frame_has_target_aspect (1920, 1080)%N (4 # 3) (Vec2 1900 400) (Vec2 200 0));
    reflexivity.
Defined.

Lemma corrected_edges (sz : N * N) (ratio : float) (p s : vec2) :
  (0 < fst sz)%N -> (0 < snd sz)%N -> 0 <= x s -> 0 <= y s ->
  edges_in_frame sz (fst (aspect_correction sz ratio p s))
    (snd (aspect_correction sz ratio p s)) /\
  0 <= x (snd (aspect_correction sz ratio p s)) /\
  0 <= y (snd (aspect_correction sz ratio p s)).
Proof.
  intros Hw Hh Hx Hy. unfold aspect_correction.
  pose proof (frame_aspect_pos sz ratio Hw Hh) as Ha.
  set (a := frame_aspect sz ratio) in *.
  destruct (aspect_contain_nonneg a s Ha Hx Hy) as [Hx1 Hy1].
  pose proof (clamp_to_frame_edges sz p _ Hx1 Hy1) as H.
  destruct (clamp_to_frame sz p (aspect_contain a s)) as [p2 s2].
  cbn [fst snd] in *. destruct H as (Hx2 & Hy2 & Hl & Hr & Ht & Hb).
  destruct (aspect_match_shrinks a s2 Ha Hx2 Hy2) as [Hsx Hsy].
  unfold edges_in_frame. cbn [fst snd].
  assert (H0x : 0 <= x (aspect_match a s2) / 2) by (apply Qdiv_nonneg; lra).
  assert (H0y : 0 <= y (aspect_match a s2) / 2) by (apply Qdiv_nonneg; lra).
  assert (H1x : x (aspect_match a s2) / 2 <= x s2 / 2) by (apply Qhalf_le; lra).
  assert (H1y : y (aspect_match a s2) / 2 <= y s2 / 2) by (apply Qhalf_le; lra).
  repeat split; lra.
Qed.

Lemma tick_frame (s : autoframing_instance) (dt : float) :
  (_frame_pos (tracking_tick s dt), _frame_size (tracking_tick s dt))
  = aspect_correction (_size s) (_frame_aspect_ratio s)
      (fs_pos (frame_candidate (_size s) (_track_mode s)
                 (_predicted_elements (predicted_tick s dt)) (frame_of s)))
      (fs_size (frame_candidate (_size s) (_track_mode s)
                  (_predicted_elements (predicted_tick s dt)) (frame_of s))) /\
  _size (tracking_tick s dt) = _size s.
Proof.
  unfold tracking_tick, predicted_tick, corrected_frame.
  destruct (age_and_evict _ _ _ _) as [l m].
  cbn [_size _track_mode _predicted_elements _frame_aspect_ratio set_tracking].
  change (frame_of (set_tracking s l (update_predicted s dt l m))) with (frame_of s).
  destruct (aspect_correction _ _ _ _) as [p sz]. split; reflexivity.
Qed.

Lemma Qunit_interval (a w : Q) : 0 < w -> 0 <= a <= w -> 0 <= a / w <= 1.
Proof.
  intros Hw [H0 H1]. split.
  - apply Qdiv_nonneg; assumption.
  - apply Qdiv_shrink; lra.
Qed.

(** X6.  Computed on rationals, without the rounding of [float] and for
    a configured ratio that is a number: after a tick on a frame of
    positive dimensions whose candidate rectangle has non-negative width
    and height, the texture coordinates that [video_render] draws with lie
    in [0, 1], and the first of each axis is not above the second. *)
Theorem crop_in_unit_square (s : autoframing_instance) (dt : float) :
  (0 < fst (_size s))%N -> (0 < snd (_size s))%N ->
  0 <= x (fs_size (frame_candidate (_size s) (_track_mode s)
                     (_predicted_elements (predicted_tick s dt)) (frame_of s))) ->
  0 <= y (fs_size (frame_candidate (_size s) (_track_mode s)
                     (_predicted_elements (predicted_tick s dt)) (frame_of s))) ->
  let '(x0, x1, y0, y1) := crop_uv (tracking_tick s dt) in
  (0 <= x0 /\ x0 <= x1 /\ x1 <= 1) /\ (0 <= y0 /\ y0 <= y1 /\ y1 <= 1).
Proof.
  intros Hw Hh Hx Hy. unfold crop_uv.
  destruct (tick_frame s dt) as [E Esz]. rewrite Esz.
  pose proof (corrected_edges (_size s) (_frame_aspect_ratio s)
                (fs_pos (frame_candidate (_size s) (_track_mode s)
                           (_predicted_elements (predicted_tick s dt)) (frame_of s)))
                _ Hw Hh Hx Hy) as H.
  rewrite <- E in H. cbn [fst snd] in H.
  destruct H as ((Hl & Hr & Ht & Hb) & Hsx & Hsy).
  pose proof (uint_to_float_pos _ Hw) as Hwq.
  pose proof (uint_to_float_pos _ Hh) as Hhq.
  pose proof (Qunit_interval _ _ Hwq Hl) as Hx0.
  pose proof (Qunit_interval _ _ Hwq Hr) as Hx1.
  pose proof (Qunit_interval _ _ Hhq Ht) as Hy0.
  pose proof (Qunit_interval _ _ Hhq Hb) as Hy1.
  assert (Hhx : 0 <= x (_frame_size (tracking_tick s dt)) / 2)
    by (apply Qdiv_nonneg; lra).
  assert (Hhy : 0 <= y (_frame_size (tracking_tick s dt)) / 2)
    by (apply Qdiv_nonneg; lra).
  repeat split; try lra.
  - apply Qmult_le_compat_r; [lra |]. apply Qinv_le_0_compat. lra.
  - apply Qmult_le_compat_r; [lra |]. apply Qinv_le_0_compat. lra.
Qed.

Lemma crop_in_unit_square_witness :
  let '(x0, x1, y0, y1) := crop_uv (tracking_tick solo_pair_instance (1 # 60)) in
  (0 <= x0 /\ x0 <= x1 /\ x1 <= 1) /\ (0 <= y0 /\ y0 <= y1 /\ y1 <= 1).
Proof.
  apply (crop_in_unit_square solo_pair_instance (1 # 60)).
  - reflexivity.
  - reflexivity.
  - vm_compute. discriminate.
  - vm_compute. discriminate.
Defined.

(** ** The union of Group mode *)

Lemma grow_bounds_spec (mm : vec2 * vec2) (pred : pred_el) :
  box_within (grow_bounds mm pred) pred /\
  x (fst (grow_bounds mm pred)) <= x (fst mm) /\
  y (fst (grow_bounds mm pred)) <= y (fst mm) /\
  x (snd mm) <= x (snd (grow_bounds mm pred)) /\
  y (snd mm) <= y (snd (grow_bounds mm pred)).
Proof.
  destruct mm as [mn mx]. unfold box_within, grow_bounds, vec2_mulf, vec2_sub, vec2_add.
  cbn [fst snd x y].
  repeat match goal with
         | |- context [Qltb ?a ?b] =>
             let H := fresh "Hc" in
             destruct (Qltb a b) eqn:H; [apply Qltb_true in H | apply Qltb_false in H]
         end;
    repeat split; lra.
Qed.

Lemma fold_bounds_spec (l : list (ptr * pred_el)) (mm : vec2 * vec2) :
  let r := fold_left (fun acc (kv : ptr * pred_el) => grow_bounds acc (snd kv)) l mm in
  (x (fst r) <= x (fst mm) /\ y (fst r) <= y (fst mm) /\
   x (snd mm) <= x (snd r) /\ y (snd mm) <= y (snd r)) /\
  forall kv, In kv l -> box_within r (snd kv).
Proof.
  revert mm. induction l as [| kv rest IH]; intros mm; cbn [fold_left].
  - split; [repeat split; lra | intros kv []].
  - destruct (IH (grow_bounds mm (snd kv))) as [(H1 & H2 & H3 & H4) Hrest].
    destruct (grow_bounds_spec mm (snd kv)) as (Hbox & G1 & G2 & G3 & G4).
    split; [repeat split; lra |].
    intros kv' [<- | Hin]; [| exact (Hrest kv' Hin)].
    unfold box_within in *. destruct Hbox as (B1 & B2 & B3 & B4).
    repeat split; lra.
Qed.

(** X7.  In Group mode the bounds computed over the predicted elements
    contain the aspected box of every predicted element; the upper bounds
    are never below 0, since the maximum starts at the origin. *)
Theorem group_bounds_contain (m : predicted_map) (k : ptr) (pred : pred_el) :
  PtrMap.MapsTo k pred m ->
  box_within (group_bounds m) pred /\
  0 <= x (snd (group_bounds m)) /\ 0 <= y (snd (group_bounds m)).
Proof.
  intros Hm. unfold group_bounds.
  destruct (fold_bounds_spec (PtrMap.elements m) (vec2_set FLT_MAX FLT_MAX, vec2_set 0 0))
    as [(_ & _ & H3 & H4) Hall].
  cbn [fst snd x y vec2_set] in H3, H4. split; [| split; assumption].
  apply PtrMap.elements_1 in Hm. apply InA_alt in Hm.
  destruct Hm as ([k' pred'] & [Ek Ep] & Hin). cbn [fst snd] in Ek, Ep. subst pred'.
  exact (Hall (k', pred) Hin).
Qed.

Lemma group_bounds_contain_witness :
  box_within (group_bounds (_predicted_elements (predicted_tick solo_pair_instance (1 # 60))))
    (predict_element solo_pair_instance (1 # 60) (add_age right_track (1 # 60)) None).
Proof.
  apply (group_bounds_contain
           (_predicted_elements (predicted_tick solo_pair_instance (1 # 60))) 3%N).
  apply PtrMap.find_2. vm_compute. reflexivity.
Defined.

(** ** The detection pass *)

Lemma collect_boxes_confident (detections : list detection) (b : ptr * track_el) :
  In b (collect_boxes detections) ->
  age (snd b) = 0 /\ (1 # 2 <= confidence (snd b) <= 1) /\
  exists d, In d detections /\ det_addr d = fst b /\ 1 # 2 <= det_confidence d.
Proof.
  induction detections as [| d rest IH]; cbn [collect_boxes]; intros H.
  - destruct H.
  - assert (Hrest : In b (collect_boxes rest) ->
                    age (snd b) = 0 /\ (1 # 2 <= confidence (snd b) <= 1) /\
                    exists d0, In d0 (d :: rest) /\ det_addr d0 = fst b /\
                               1 # 2 <= det_confidence d0).
    { intros Hb. destruct (IH Hb) as (Ha & Hc & d0 & Hd0 & E & Hconf).
      split; [exact Ha |]. split; [exact Hc |].
      exists d0. split; [right; exact Hd0 | split; assumption]. }
    destruct (Qltb (det_confidence d) (1 # 2)) eqn:Hlow; [exact (Hrest H) |].
    apply Qltb_false in Hlow.
    destruct H as [<- | H]; [| exact (Hrest H)].
    unfold potential_match. cbn [fst snd age confidence].
    split; [reflexivity |]. split.
    + destruct (Qltb 1 (det_confidence d)) eqn:Hhigh;
        [apply Qltb_true in Hhigh | apply Qltb_false in Hhigh]; lra.
    + exists d. split; [left; reflexivity | split; [reflexivity | exact Hlow]].
Qed.

Section PassFacts.

Variable sqrtf : float -> float.

Lemma match_element_touch (max_dst : fval) (el : track_el) (boxes : tracked_list) :
  fst (match_element sqrtf max_dst el boxes) = el \/
  exists box, In box boxes /\
    fst (match_element sqrtf max_dst el boxes) = matched el (snd box).
Proof.
  unfold match_element.
  destruct (snd (scan_boxes sqrtf el max_dst boxes 0 (max_dst, None))) as [idx |];
    [| left; reflexivity].
  destruct (nth_error boxes idx) as [m |] eqn:E; [| left; reflexivity].
  right. exists m. split; [exact (nth_error_In _ _ E) | reflexivity].
Qed.

Lemma associate_touch (max_dst : fval) (tracked boxes : tracked_list)
    (p : ptr) (el : track_el) :
  In (p, el) (fst (associate sqrtf max_dst tracked boxes)) ->
  In (p, el) tracked \/
  exists el0 box, In (p, el0) tracked /\ In box boxes /\ el = matched el0 (snd box).
Proof.
  revert boxes. induction tracked as [| [q e] rest IH]; intros boxes; cbn [associate].
  - intros [].
  - pose proof (match_element_touch max_dst e boxes) as Htouch.
    pose proof (match_element_pool sqrtf max_dst e boxes) as [Hpool _].
    destruct (match_element sqrtf max_dst e boxes) as [e' boxes'].
    specialize (IH boxes').
    destruct (associate sqrtf max_dst rest boxes') as [rest' boxes''].
    cbn [fst snd] in *. intros [E | Hin].
    + inversion E; subst q e'. destruct Htouch as [-> | (box & Hbox & ->)].
      * left. left. reflexivity.
      * right. exists e, box. split; [left; reflexivity | split; [exact Hbox | reflexivity]].
    + destruct (IH Hin) as [H | (el0 & box & H0 & Hbox & ->)].
      * left. right. exact H.
      * right. exists el0, box.
        split; [right; exact H0 | split; [apply Hpool; exact Hbox | reflexivity]].
Qed.

Lemma associate_empty_pool (max_dst : fval) (tracked : tracked_list) :
  associate sqrtf max_dst tracked [] = (tracked, []).
Proof.
  induction tracked as [| [p el] rest IH]; cbn [associate].
  - reflexivity.
  - unfold match_element. cbn [scan_boxes snd]. rewrite IH. reflexivity.
Qed.

Lemma collect_boxes_none (detections : list detection) :
  (forall d, In d detections -> det_confidence d < 1 # 2) ->
  collect_boxes detections = [].
Proof.
  induction detections as [| d rest IH]; intros H; cbn [collect_boxes].
  - reflexivity.
  - assert (E : Qltb (det_confidence d) (1 # 2) = true).
    { apply Qltb_true. apply H. left. reflexivity. }
    rewrite E. apply IH. intros d' Hd'. apply H. right. exact Hd'.
Qed.

Lemma process_tracked (s : autoframing_instance) (detections : list detection)
    (fx : facedetection) :
  _nvidia_fx s = Some fx ->
  _tracked_elements (nvar_facedetection_process sqrtf s detections)
  = fst (associate sqrtf (max_distance sqrtf (_size s) (_track_frequency s))
           (_tracked_elements s) (collect_boxes detections))
    ++ snd (associate sqrtf (max_distance sqrtf (_size s) (_track_frequency s))
              (_tracked_elements s) (collect_boxes detections)).
Proof.
  intros Hfx. unfold nvar_facedetection_process. rewrite Hfx.
  destruct detections as [| d rest].
  - cbn [length Nat.ltb Nat.leb collect_boxes]. rewrite associate_empty_pool.
    cbn [fst snd]. rewrite app_nil_r. reflexivity.
  - cbn [length Nat.ltb Nat.leb].
    destruct (associate _ _ _ _) as [tracks pool]. reflexivity.
Qed.

(** X8.  After a detection pass every tracked element is either as it
    was before the pass, or has age 0 and a confidence between 0.5 and 1:
    no box below the confidence floor is matched or promoted, and a
    confidence above 1 is stored as 1. *)
Theorem pass_touches_with_confidence (s : autoframing_instance)
    (detections : list detection) (p : ptr) (el : track_el) :
  In (p, el) (_tracked_elements (nvar_facedetection_process sqrtf s detections)) ->
  In (p, el) (_tracked_elements s) \/
  (age el = 0 /\ 1 # 2 <= confidence el <= 1).
Proof.
  destruct (_nvidia_fx s) as [fx |] eqn:Hfx.
  - rewrite (process_tracked s detections fx Hfx). intros Hin.
    apply in_app_or in Hin. destruct Hin as [Hin | Hin].
    + apply associate_touch in Hin.
      destruct Hin as [H | (el0 & box & _ & Hbox & ->)]; [left; exact H |].
      right. destruct (collect_boxes_confident detections box Hbox) as (_ & Hc & _).
      split; [reflexivity | exact Hc].
    + right. apply (associate_pool sqrtf) in Hin.
      destruct (collect_boxes_confident detections (p, el) Hin) as (Ha & Hc & _).
      split; assumption.
  - unfold nvar_facedetection_process. rewrite Hfx. intros H. left. exact H.
Qed.

(** X9.  A detection pass changes nothing when the backend object is
    missing or when every box is below the confidence floor of 0.5 (in
    particular when there is no box). *)
Theorem pass_without_confident_box (s : autoframing_instance)
    (detections : list detection) :
  _nvidia_fx s = None \/ (forall d, In d detections -> det_confidence d < 1 # 2) ->
  nvar_facedetection_process sqrtf s detections = s.
Proof.
  intros [Hnone | Hlow]; unfold nvar_facedetection_process.
  - rewrite Hnone. reflexivity.
  - destruct (_nvidia_fx s); [| reflexivity].
    destruct (0 <? length detections)%nat; [| reflexivity].
    rewrite (collect_boxes_none detections Hlow), associate_empty_pool.
    rewrite app_nil_r. destruct s. reflexivity.
Qed.

(** X10.  A detection pass never drops or reorders the tracks: the
    pointers of the tracked list after the pass are those before it, in
    order, followed by pointers that belong to boxes of confidence 0.5 or
    more. *)
Theorem pass_keeps_tracks (s : autoframing_instance) (detections : list detection) :
  exists added : list ptr,
    map fst (_tracked_elements (nvar_facedetection_process sqrtf s detections))
    = map fst (_tracked_elements s) ++ added /\
    forall p, In p added ->
      exists d, In d detections /\ det_addr d = p /\ 1 # 2 <= det_confidence d.
Proof.
  destruct (_nvidia_fx s) as [fx |] eqn:Hfx.
  - rewrite (process_tracked s detections fx Hfx), map_app, associate_pointers.
    eexists. split; [reflexivity |].
    intros p Hp. apply in_map_iff in Hp. destruct Hp as (b & <- & Hb).
    apply (associate_pool sqrtf) in Hb.
    destruct (collect_boxes_confident detections b Hb) as (_ & _ & Hd). exact Hd.
  - exists []. unfold nvar_facedetection_process. rewrite Hfx, app_nil_r.
    split; [reflexivity | intros p []].
Qed.

Lemma no_match_below (max_dst : fval) (el : track_el) (boxes : tracked_list) :
  (forall d : float, 0 <= d -> flt (Fin d) max_dst = false) ->
  (forall q, 0 <= sqrtf q) ->
  match_element sqrtf max_dst el boxes = (el, boxes).
Proof.
  intros Hfar Hsqrt. unfold match_element.
  pose proof (scan_boxes_result sqrtf el max_dst boxes) as Hscan.
  unfold scan_invariant in Hscan.
  destruct (snd (scan_boxes sqrtf el max_dst boxes 0 (max_dst, None))) as [idx |];
    [| reflexivity].
  destruct Hscan as (box & _ & _ & Hnear & _).
  rewrite Hfar in Hnear; [discriminate | apply Hsqrt].
Qed.

Lemma associate_no_match (max_dst : fval) (tracked boxes : tracked_list) :
  (forall d : float, 0 <= d -> flt (Fin d) max_dst = false) ->
  (forall q, 0 <= sqrtf q) ->
  associate sqrtf max_dst tracked boxes = (tracked, boxes).
Proof.
  intros Hfar Hsqrt. induction tracked as [| [p el] rest IH]; cbn [associate].
  - reflexivity.
  - rewrite (no_match_below max_dst el boxes Hfar Hsqrt), IH. reflexivity.
Qed.

(** X11.  At a tracking period above 1 the maximum distance is not
    positive: the pass matches no box to any track, the tracks stay as they
    are and every box of confidence 0.5 or more becomes a new track. *)
Theorem long_period_matches_nothing (s : autoframing_instance)
    (detections : list detection) (fx : facedetection) (f : float) :
  (forall q, 0 <= sqrtf q) ->
  _nvidia_fx s = Some fx ->
  _track_frequency s = Fin f -> 1 < f ->
  _tracked_elements (nvar_facedetection_process sqrtf s detections)
  = _tracked_elements s ++ collect_boxes detections.
Proof.
  intros Hsqrt Hfx Hs Hf. rewrite (process_tracked s detections fx Hfx), Hs.
  rewrite associate_no_match; [reflexivity | | exact Hsqrt].
  intros d Hd. unfold max_distance, fsub, fdiv, fmul.
  assert (E : Qeq_bool (1 - f) 0 = false) by (apply Qeq_bool_false; lra).
  rewrite E. unfold flt. apply Qltb_false.
  pose proof (Qinv_negative f Hf) as Hneg.
  pose proof (Hsqrt (uint_to_float (uint32_mul (fst (_size s)) (fst (_size s)))
                     + uint_to_float (uint32_mul (snd (_size s)) (snd (_size s))))) as Hroot.
  nra.
Qed.

End PassFacts.

Lemma sqrtf_floor_nonneg (q : float) : 0 <= sqrtf_floor q.
Proof.
  unfold sqrtf_floor, Qle. cbn [Qnum Qden].
  pose proof (Z.sqrt_nonneg (Qnum q * Z.pos (Qden q) * 2 ^ 32)). lia.
Qed.

Lemma pass_touches_with_confidence_witness :
  In (8208%N, snd (potential_match
                     {| det_rect := {| rect_x := 40; rect_y := 900;
                                       rect_z := 100; rect_w := 100 |};
                        det_confidence := 7 # 10; det_addr := 8208%N |}))
    (_tracked_elements two_tracks_instance) \/
  (age (snd (potential_match
               {| det_rect := {| rect_x := 40; rect_y := 900;
                                 rect_z := 100; rect_w := 100 |};
                  det_confidence := 7 # 10; det_addr := 8208%N |})) = 0 /\
   1 # 2 <= confidence (snd (potential_match
               {| det_rect := {| rect_x := 40; rect_y := 900;
                                 rect_z := 100; rect_w := 100 |};
                  det_confidence := 7 # 10; det_addr := 8208%N |})) <= 1).
Proof.
  apply (pass_touches_with_confidence sqrtf_floor two_tracks_instance two_faces 8208%N).
  vm_compute. right. right. left. reflexivity.
Defined.

Lemma pass_without_confident_box_witness :
  nvar_facedetection_process sqrtf_floor two_tracks_instance
    [{| det_rect := {| rect_x := 10; rect_y := 10; rect_z := 20; rect_w := 20 |};
        det_confidence := 4 # 10; det_addr := 8216%N |}]
  = two_tracks_instance.
Proof.
  apply (pass_without_confident_box sqrtf_floor two_tracks_instance).
  right. intros d [<- | []]. reflexivity.
Defined.

Lemma long_period_matches_nothing_witness :
  _tracked_elements (nvar_facedetection_process sqrtf_floor slow_period_instance two_faces)
  = _tracked_elements slow_period_instance ++ collect_boxes two_faces.
Proof.
  apply (long_period_matches_nothing sqrtf_floor slow_period_instance two_faces
           {| tracking_limit := 8; tracking_limit_range := (1, 8)%N; is_temporal := false |} 2).
  - exact sqrtf_floor_nonneg.
  - reflexivity.
  - reflexivity.
  - reflexivity.
Defined.

Lemma erase_at_length {A : Type} (idx : nat) (l : list A) :
  (idx < length l)%nat -> S (length (erase_at idx l)) = length l.
Proof.
  revert idx. induction l as [| a rest IH]; intros idx H; simpl in H.
  - lia.
  - destruct idx as [| idx]; cbn [erase_at length].
    + reflexivity.
    + rewrite IH by lia. reflexivity.
Qed.

Lemma inverse_period_at_one (f : Q) :
  f == 1 -> fdiv (Fin 1) (fsub (Fin 1) (Fin f)) = PInf.
Proof.
  intros Hf. unfold fsub, fdiv.
  assert (E : Qeq_bool (1 - f) 0 = true) by (apply Qeq_bool_iff; lra).
  rewrite E. reflexivity.
Qed.

Lemma fmul_positive_infinite (m : Q) : 0 < m -> fmul (Fin m) PInf = PInf.
Proof.
  intros Hm. unfold fmul. apply Qltb_true in Hm. rewrite Hm. reflexivity.
Qed.

Section UnboundedFacts.

Variable sqrtf : float -> float.

Lemma match_element_unbounded (el : track_el) (boxes : tracked_list) :
  boxes <> [] ->
  exists idx box,
    nth_error boxes idx = Some box /\
    match_element sqrtf PInf el boxes = (matched el (snd box), erase_at idx boxes).
Proof.
  intros Hne. unfold match_element.
  pose proof (scan_boxes_result sqrtf el PInf boxes) as Hscan.
  unfold scan_invariant in Hscan.
  destruct (snd (scan_boxes sqrtf el PInf boxes 0 (PInf, None))) as [idx |].
  - destruct Hscan as (box & Hnth & _). exists idx, box. rewrite Hnth.
    split; reflexivity.
  - destruct Hscan as [_ Hfar]. destruct boxes as [| b rest]; [congruence |].
    specialize (Hfar b (or_introl eq_refl)). discriminate.
Qed.

Lemma associate_unbounded (tracked boxes : tracked_list) (p : ptr) (el : track_el) :
  (length tracked <= length boxes)%nat ->
  In (p, el) (fst (associate sqrtf PInf tracked boxes)) -> age el = 0.
Proof.
  revert boxes. induction tracked as [| [q e] rest IH]; intros boxes Hlen; cbn [associate].
  - intros [].
  - destruct (match_element_unbounded e boxes) as (idx & box & Hnth & E).
    { intros ->. simpl in Hlen. lia. }
    rewrite E.
    assert (Hidx : (idx < length boxes)%nat).
    { apply nth_error_Some. rewrite Hnth. discriminate. }
    pose proof (erase_at_length idx boxes Hidx) as Hl.
    specialize (IH (erase_at idx boxes)).
    destruct (associate sqrtf PInf rest (erase_at idx boxes)) as [rest' boxes''].
    cbn [fst] in *. intros [Eq | Hin].
    + inversion Eq; subst. reflexivity.
    + apply IH; [simpl in Hlen; lia | exact Hin].
Qed.

(** X12.  At the tracking period 1 (the value the constructor sets), on
    a frame where the square root of the squared dimensions is positive,
    the maximum distance is infinite: when there are at least as many
    boxes of confidence 0.5 or more as tracks, every track takes a box
    whatever its distance, and after the pass every tracked element has
    age 0. *)
Theorem period_one_matches_any_distance (s : autoframing_instance)
    (detections : list detection) (fx : facedetection) (f : float)
    (p : ptr) (el : track_el) :
  _nvidia_fx s = Some fx ->
  _track_frequency s = Fin f -> f == 1 ->
  0 < sqrtf (uint_to_float (uint32_mul (fst (_size s)) (fst (_size s)))
             + uint_to_float (uint32_mul (snd (_size s)) (snd (_size s)))) ->
  (length (_tracked_elements s) <= length (collect_boxes detections))%nat ->
  In (p, el) (_tracked_elements (nvar_facedetection_process sqrtf s detections)) ->
  age el = 0.
Proof.
  intros Hfx Hs Hf Hroot Hlen. rewrite (process_tracked sqrtf s detections fx Hfx), Hs.
  assert (Emax : max_distance sqrtf (_size s) (Fin f) = PInf).
  { unfold max_distance. rewrite (inverse_period_at_one f Hf).
    apply fmul_positive_infinite. lra. }
  rewrite Emax. intros Hin. apply in_app_or in Hin. destruct Hin as [Hin | Hin].
  - exact (associate_unbounded _ _ p el Hlen Hin).
  - apply (associate_pool sqrtf) in Hin.
    destruct (collect_boxes_confident detections (p, el) Hin) as (Ha & _). exact Ha.
Qed.

End UnboundedFacts.

Lemma period_one_matches_any_distance_witness :
  age (matched (snd (1%N, {| pos := vec2_set 50 30; size := vec2_set 40 40;
                             vel := vec2_set 0 0; age := 0; confidence := 1 |}))
         (snd (potential_match
                 {| det_rect := {| rect_x := 100; rect_y := 100;
                                   rect_z := 50; rect_w := 50 |};
                    det_confidence := 9 # 10; det_addr := 4096%N |}))) = 0.
Proof.
  apply (period_one_matches_any_distance sqrtf_floor shrunk_instance one_face
           {| tracking_limit := 1; tracking_limit_range := (1, 8)%N; is_temporal := true |}
           1 1%N).
  - reflexivity.
  - reflexivity.
  - reflexivity.
  - vm_compute. reflexivity.
  - simpl. lia.
  - vm_compute. left. reflexivity.
Defined.

(** ** The base of the motion prediction *)

(** X13.  Whether a tick extrapolates a track from its last prediction
    depends only on the age before the tick: a track of age 0 or less (one
    matched since the last tick) is predicted from its own position, a
    track of positive age from the motion-predicted position stored by the
    tick before. *)
Theorem prediction_base_by_age (s : autoframing_instance) (dt : float)
    (p : ptr) (el : track_el) :
  NoDup (map fst (_tracked_elements s)) ->
  In (p, el) (_tracked_elements s) ->
  fge (Fin (age el + dt)) (age_threshold (_track_frequency s)) = false ->
  exists prev pred : pred_el,
    prev = match PtrMap.find p (_predicted_elements s) with
           | Some previous => previous
           | None => new_pred_el (_motion_smoothing_kalman_pnc s)
                       (_motion_smoothing_kalman_mnc s) (add_age el dt)
           end /\
    PtrMap.find p (_predicted_elements (tracking_tick s dt)) = Some pred /\
    (age el <= 0 ->
     mp_pos pred
     = vec2_add (pos el) (vec2_mulf (vec2_mulf (vel el) (_motion_prediction s)) dt)) /\
    (0 < age el ->
     mp_pos pred
     = vec2_add (mp_pos prev) (vec2_mulf (vec2_mulf (vel el) (_motion_prediction s)) dt)).
Proof.
  intros Hnd Hin Hkeep.
  assert (Hstay : In (p, add_age el dt) (_tracked_elements (tracking_tick s dt))).
  { rewrite tick_tracked_exact. apply filter_In. split.
    - apply in_map_iff. exists (p, el). split; [reflexivity | exact Hin].
    - cbn [snd add_age age]. rewrite Hkeep. reflexivity. }
  eexists.
  exists (predict_element s dt (add_age el dt) (PtrMap.find p (_predicted_elements s))).
  split; [reflexivity |].
  split; [exact (tick_companion s dt p (add_age el dt) Hnd Hstay) |].
  unfold predict_element, motion_predicted. cbn [mp_pos add_age age pos vel].
  split; intros Hage.
  - assert (E : Qltb dt (age el + dt) = false) by (apply Qltb_false; lra).
    rewrite E. reflexivity.
  - assert (E : Qltb dt (age el + dt) = true) by (apply Qltb_true; lra).
    rewrite E. reflexivity.
Qed.

Lemma prediction_base_by_age_witness :
  exists prev pred : pred_el,
    prev = match PtrMap.find 3%N (_predicted_elements two_tracks_instance) with
           | Some previous => previous
           | None => new_pred_el (_motion_smoothing_kalman_pnc two_tracks_instance)
                       (_motion_smoothing_kalman_mnc two_tracks_instance)
                       (add_age young_track (1 # 60))
           end /\
    PtrMap.find 3%N (_predicted_elements (tracking_tick two_tracks_instance (1 # 60)))
    = Some pred /\
    (age young_track <= 0 ->
     mp_pos pred
     = vec2_add (pos young_track)
         (vec2_mulf (vec2_mulf (vel young_track) (_motion_prediction two_tracks_instance))
            (1 # 60))) /\
    (0 < age young_track ->
     mp_pos pred
     = vec2_add (mp_pos prev)
         (vec2_mulf (vec2_mulf (vel young_track) (_motion_prediction two_tracks_instance))
            (1 # 60))).
Proof.
  apply (prediction_base_by_age two_tracks_instance (1 # 60) 3%N young_track).
  - simpl. repeat constructor; simpl; intuition discriminate.
  - simpl. right. left. reflexivity.
  - vm_compute. reflexivity.
Defined.

(** ** Providers *)

Lemma provider_kept_by_task (B : backend) (old : tracking_provider) :
  keeps _provider (task_switch_provider B old).
Proof.
  unfold task_switch_provider.
  apply keeps_bind; [intros s; reflexivity |]. intros _.
  apply keeps_try_catch; [| intros ex s; reflexivity].
  apply keeps_bind.
  - apply keeps_unload_and_load; intros ? s; reflexivity.
  - intros _. apply keeps_bind; [intros s; reflexivity |].
    intros _ s. reflexivity.
Qed.

Lemma provider_eqb_eq (a b : tracking_provider) : provider_eqb a b = true <-> a = b.
Proof.
  destruct a, b; simpl; split; intros H; try reflexivity; discriminate.
Qed.

Lemma switch_provider_same (B : backend) (s : autoframing_instance) :
  switch_provider B (_provider s) s = (inr tt, s).
Proof.
  unfold switch_provider, bind, read. destruct (_provider s); reflexivity.
Qed.

Lemma switch_provider_records (B : backend) (provider : tracking_provider)
    (s : autoframing_instance) :
  _provider (snd (switch_provider B provider s)) = provider.
Proof.
  destruct (provider_eqb provider (_provider s)) eqn:E.
  - apply provider_eqb_eq in E. subst provider.
    rewrite switch_provider_same. reflexivity.
  - assert (Hgo : switch_provider B provider s
                  = (write_log (LOG_INFO "is switching provider") ;;;
                     modify (fun s0 => set_provider_state s0 provider (_provider_ready s0)
                                         (_nvidia_fx s0) (_track_mode s0) (log s0)) ;;;
                     task_switch_provider B (_provider s)) s).
    { unfold switch_provider at 1. unfold bind at 1. unfold read.
      destruct provider, (_provider s); try reflexivity; discriminate. }
    rewrite Hgo. unfold bind at 1. unfold write_log at 1. unfold modify at 1.
    unfold bind at 1. unfold modify at 1.
    rewrite (provider_kept_by_task B (_provider s)). reflexivity.
Qed.

(** X14.  [switch_provider] records the requested provider whether or
    not the switch succeeds, and a request for the provider already
    recorded does nothing: after a switch, also a failed one, the same
    request is refused and leaves the instance as it is, not ready if the
    switch had failed. *)
Theorem switch_is_not_retried (B B' : backend) (provider : tracking_provider)
    (s : autoframing_instance) :
  _provider (snd (switch_provider B provider s)) = provider /\
  switch_provider B' provider (snd (switch_provider B provider s))
  = (inr tt, snd (switch_provider B provider s)).
Proof.
  split; [apply switch_provider_records |].
  pose proof (switch_provider_records B provider s) as E.
  pose proof (switch_provider_same B' (snd (switch_provider B provider s))) as H.
  rewrite E in H. exact H.
Qed.

Lemma first_available_spec (available : bool) (priority : list tracking_provider) :
  first_available available priority <> AUTOMATIC /\
  (first_available available priority <> INVALID ->
   In (first_available available priority) priority /\
   is_provider_available available (first_available available priority) = true) /\
  (first_available available priority = INVALID ->
   forall v, In v priority -> is_provider_available available v = false).
Proof.
  induction priority as [| v rest IH]; cbn [first_available].
  - split; [discriminate |]. split; [congruence | intros _ v []].
  - destruct (is_provider_available available v) eqn:E.
    + split; [intros ->; discriminate |]. split.
      * intros _. split; [left; reflexivity | exact E].
      * intros ->. discriminate.
    + destruct IH as (H1 & H2 & H3). split; [exact H1 |]. split.
      * intros Hne. destruct (H2 Hne) as [Hin Hav]. split; [right; exact Hin | exact Hav].
      * intros Hinv v' [<- | Hin]; [exact E | exact (H3 Hinv v' Hin)].
Qed.

(** X15.  The loop of [find_ideal_provider] over a priority list
    returns the first entry that is available, all entries before it being
    unavailable, and INVALID when no entry is available; it never returns
    AUTOMATIC.  With the priority list of the factory the result is the
    face detection when the factory has it and INVALID otherwise. *)
Theorem ideal_provider_is_available (available : bool)
    (priority : list tracking_provider) :
  first_available available priority <> AUTOMATIC /\
  ((exists before after : list tracking_provider,
      priority = before ++ first_available available priority :: after /\
      (forall u, In u before -> is_provider_available available u = false) /\
      is_provider_available available (first_available available priority) = true) \/
   (first_available available priority = INVALID /\
    forall u, In u priority -> is_provider_available available u = false)) /\
  find_ideal_provider available
  = (if available then NVIDIA_FACEDETECTION else INVALID) /\
  find_ideal_provider available <> AUTOMATIC.
Proof.
  split; [apply first_available_spec |]. split.
  - induction priority as [| v rest IH]; cbn [first_available].
    + right. split; [reflexivity | intros u []].
    + destruct (is_provider_available available v) eqn:E.
      * left. exists [], rest. split; [reflexivity |]. split; [intros u [] | exact E].
      * destruct IH as [(before & after & Hsplit & Hbefore & Hav) | [Hinv Hnone]].
        -- left. exists (v :: before), after. split.
           ++ cbn [app]. rewrite <- Hsplit. reflexivity.
           ++ split; [| exact Hav].
              intros u [<- | Hu]; [exact E | exact (Hbefore u Hu)].
        -- right. split; [exact Hinv |].
           intros u [<- | Hu]; [exact E | exact (Hnone u Hu)].
  - split; [destruct available; reflexivity |].
    destruct available; discriminate.
Qed.

Lemma provider_kept_by_update_fx (B : backend) :
  keeps _provider (nvar_facedetection_update B).
Proof.
  apply keeps_update_fx; intros ? s; reflexivity.
Qed.

(** X16.  The provider block of [update] resolves AUTOMATIC before it
    switches: if the active provider is not AUTOMATIC before [update], it is
    not AUTOMATIC after it, whatever is requested and whatever the backend
    does. *)
Theorem automatic_is_never_active (B : backend) (available : bool)
    (requested : tracking_provider) (s : autoframing_instance) :
  _provider s <> AUTOMATIC ->
  _provider (snd (update_provider B available requested s)) <> AUTOMATIC.
Proof.
  intros Hs. unfold update_provider.
  set (provider := match requested with
                   | AUTOMATIC => find_ideal_provider available
                   | _ => requested
                   end).
  assert (Hp : provider <> AUTOMATIC).
  { unfold provider. destruct requested; try discriminate.
    apply first_available_spec. }
  unfold bind at 1. unfold read at 1. unfold bind at 1.
  assert (H1 : _provider (snd ((if provider_eqb provider (_provider s)
                                then ret tt else switch_provider B provider) s))
               <> AUTOMATIC).
  { destruct (provider_eqb provider (_provider s)).
    - exact Hs.
    - rewrite switch_provider_records. exact Hp. }
  destruct ((if provider_eqb provider (_provider s)
             then ret tt else switch_provider B provider) s) as [[ex | []] s1];
    cbn [snd] in *; [exact H1 |].
  unfold bind, read. destruct (_provider_ready s1); [| exact H1].
  destruct (_provider s1) eqn:E; try (cbn [snd ret]; congruence).
  rewrite (provider_kept_by_update_fx B s1). congruence.
Qed.

Lemma automatic_is_never_active_witness :
  _provider (snd (update_provider working_backend true AUTOMATIC initial_instance))
  <> AUTOMATIC.
Proof.
  apply (automatic_is_never_active working_backend true AUTOMATIC initial_instance).
  discriminate.
Defined.

(** X17.  [update] has no handler around its provider block: when the
    provider is ready, loaded and already the requested one, what
    [set_tracking_limit] throws for the tracking mode of the new settings
    leaves [update] as it was thrown.  The settings are stored by then:
    the instance is left as the part of [update] before the provider block
    made it, with the backend as it was. *)
Theorem update_propagates_backend_error (sscanf_f : string -> option fval)
    (lerp : float -> float -> float -> float) (B : backend) (available : bool)
    (s : autoframing_instance) (data : obs_data) (fx : facedetection) (ex : exception) :
  _provider s = NVIDIA_FACEDETECTION ->
  _provider_ready s = true ->
  _nvidia_fx s = Some fx ->
  set_tracking_limit B fx
    (match Tracking_Mode data with SOLO => 1 | GROUP => snd (tracking_limit_range fx) end)%N
  = inl ex ->
  update_all sscanf_f lerp B available data NVIDIA_FACEDETECTION s
  = (inl ex, update sscanf_f lerp s data) /\
  _track_mode (update sscanf_f lerp s data) = Tracking_Mode data /\
  _nvidia_fx (update sscanf_f lerp s data) = Some fx.
Proof.
  intros Hp Hr Hfx Hthrow. split; [| split; [reflexivity | exact Hfx]].
  unfold update_all, bind at 1. unfold modify at 1.
  set (s1 := update sscanf_f lerp s data).
  assert (Hp1 : _provider s1 = NVIDIA_FACEDETECTION) by exact Hp.
  assert (Hr1 : _provider_ready s1 = true) by exact Hr.
  assert (Hfx1 : _nvidia_fx s1 = Some fx) by exact Hfx.
  assert (Hm1 : _track_mode s1 = Tracking_Mode data) by reflexivity.
  clearbody s1.
  unfold update_provider, bind, read.
  rewrite Hp1. cbn [provider_eqb ret]. rewrite Hr1, Hp1.
  unfold nvar_facedetection_update, bind, read, lift. rewrite Hfx1, Hm1.
  destruct (Tracking_Mode data); rewrite Hthrow; reflexivity.
Qed.

Lemma update_propagates_backend_error_witness :
  update_all sscanf_decimal lerp_linear rejecting_backend true default_settings
    NVIDIA_FACEDETECTION two_tracks_instance
  = (inl (Std {| what := "Failed to set tracking limit." |}),
     update sscanf_decimal lerp_linear two_tracks_instance default_settings).
Proof.
  refine (proj1 (update_propagates_backend_error sscanf_decimal lerp_linear
                   rejecting_backend true two_tracks_instance default_settings
                   {| tracking_limit := 8; tracking_limit_range := (1, 8)%N;
                      is_temporal := false |}
                   (Std {| what := "Failed to set tracking limit." |}) _ _ _ _));
    reflexivity.
Defined.

(** X18.  A switch from no provider to the face detection whose backend
    loads and accepts the limit 1 ends ready with the backend stored; Solo
    mode is kept for a temporal backend and becomes Group mode for a
    backend that is not temporal. *)
Theorem solo_needs_temporal_backend (B : backend) (s : autoframing_instance)
    (fx fx' : facedetection) :
  _provider s = INVALID ->
  _track_mode s = SOLO ->
  make_facedetection B = inr fx ->
  set_tracking_limit B fx 1 = inr fx' ->
  let s' := snd (switch_provider B NVIDIA_FACEDETECTION s) in
  _provider_ready s' = true /\
  _nvidia_fx s' = Some fx' /\
  _track_mode s' = (if is_temporal fx' then SOLO else GROUP).
Proof.
  intros Hp Hm Hmake Hlimit. cbv zeta.
  unfold switch_provider, bind, read. rewrite Hp.
  unfold write_log, modify, task_switch_provider, bind, try_catch, set_provider_ready,
    modify, unload_and_load, bind, ret, read.
  cbn [_provider set_provider_state].
  unfold nvar_facedetection_load, bind, lift. rewrite Hmake.
  unfold set_nvidia_fx, modify, nvar_facedetection_update, bind, read.
  cbn [_nvidia_fx _track_mode set_provider_state]. rewrite Hm.
  unfold lift. rewrite Hlimit. unfold set_track_mode, modify, ret.
  destruct (is_temporal fx'); cbn; repeat split; reflexivity.
Qed.

Lemma solo_needs_temporal_backend_witness :
  _provider_ready (snd (switch_provider working_backend NVIDIA_FACEDETECTION
                          initial_instance)) = true /\
  _nvidia_fx (snd (switch_provider working_backend NVIDIA_FACEDETECTION initial_instance))
  = Some {| tracking_limit := 1; tracking_limit_range := (1, 8)%N; is_temporal := true |} /\
  _track_mode (snd (switch_provider working_backend NVIDIA_FACEDETECTION initial_instance))
  = SOLO.
Proof.
  apply (solo_needs_temporal_backend working_backend initial_instance
           {| tracking_limit := 1; tracking_limit_range := (1, 8)%N; is_temporal := true |}
           {| tracking_limit := 1; tracking_limit_range := (1, 8)%N; is_temporal := true |});
    reflexivity.
Defined.

(** ** Rendering *)

Lemma set_tracking_same (s : autoframing_instance) :
  set_tracking s (_tracked_elements s) (_predicted_elements s) = s.
Proof. destruct s. reflexivity. Qed.

Lemma process_only_tracks (sqrtf : float -> float) (s : autoframing_instance)
    (detections : list detection) :
  nvar_facedetection_process sqrtf s detections
  = set_tracking s
      (_tracked_elements (nvar_facedetection_process sqrtf s detections))
      (_predicted_elements s).
Proof.
  unfold nvar_facedetection_process.
  destruct (_nvidia_fx s); [| symmetry; apply set_tracking_same].
  destruct (0 <? length detections)%nat; [| symmetry; apply set_tracking_same].
  destruct (associate _ _ _ _) as [tracks pool]. reflexivity.
Qed.

Lemma render_track_only_tracks (sqrtf : float -> float) (s : autoframing_instance)
    (detections : list detection) :
  _predicted_elements (video_render_track sqrtf s detections) = _predicted_elements s /\
  frame_of (video_render_track sqrtf s detections) = frame_of s.
Proof.
  unfold video_render_track. destruct (fge _ _); [| split; reflexivity].
  cbn [_provider set_size_counter]. destruct (_provider s); try (split; reflexivity).
  rewrite process_only_tracks. split; reflexivity.
Qed.

Lemma render_track_idle (sqrtf : float -> float) (s : autoframing_instance)
    (detections : list detection) :
  fge (Fin (_track_frequency_counter s)) (_track_frequency s) = false \/
  _provider s <> NVIDIA_FACEDETECTION ->
  _tracked_elements (video_render_track sqrtf s detections) = _tracked_elements s.
Proof.
  unfold video_render_track. intros [H | H].
  - rewrite H. reflexivity.
  - destruct (fge _ _); [| reflexivity].
    cbn [_provider set_size_counter]. destruct (_provider s); try reflexivity.
    congruence.
Qed.

(** X19.  [video_render] never touches the predicted elements, the
    frame-level filters or the frame rectangle, and it leaves the tracked
    elements alone unless the provider is ready, a target of non-zero size
    exists, the tick has marked the instance dirty, the input was captured,
    the counter has reached the tracking period and the provider is the
    face detection. *)
Theorem render_detects_only_when_due (sqrtf : float -> float) (m : filter_members)
    (target : bool) (width height : N) (captured : bool) (detections : list detection) :
  _provider_ready (inst m) = false \/ target = false \/ width = 0%N \/ height = 0%N \/
  _dirty m = false \/ captured = false \/
  fge (Fin (_track_frequency_counter (inst m))) (_track_frequency (inst m)) = false \/
  _provider (inst m) <> NVIDIA_FACEDETECTION ->
  _tracked_elements
    (inst (fst (video_render sqrtf m target width height captured detections)))
  = _tracked_elements (inst m) /\
  _predicted_elements
    (inst (fst (video_render sqrtf m target width height captured detections)))
  = _predicted_elements (inst m) /\
  frame_of (inst (fst (video_render sqrtf m target width height captured detections)))
  = frame_of (inst m).
Proof.
  intros H. unfold video_render, video_render_skips.
  destruct (_provider_ready (inst m)) eqn:Hr; cbn [negb orb]; [| repeat split].
  destruct target; cbn [negb orb]; [| repeat split].
  destruct (width =? 0)%N eqn:Hw; cbn [orb]; [repeat split |].
  destruct (height =? 0)%N eqn:Hh; cbn [orb]; [repeat split |].
  destruct (_dirty m) eqn:Hd; [| repeat split].
  destruct captured; [| repeat split].
  apply N.eqb_neq in Hw, Hh.
  assert (Hidle : fge (Fin (_track_frequency_counter (inst m)))
                    (_track_frequency (inst m)) = false \/
                  _provider (inst m) <> NVIDIA_FACEDETECTION).
  { destruct H as [H | [H | [H | [H | [H | [H | H]]]]]]; try discriminate;
      try contradiction; exact H. }
  destruct (render_track_only_tracks sqrtf (inst m) detections) as [Hp Hf].
  pose proof (render_track_idle sqrtf (inst m) detections Hidle) as Ht.
  destruct (_ && _); cbn [fst inst]; repeat split; assumption.
Qed.

Lemma render_detects_only_when_due_witness :
  _tracked_elements
    (inst (fst (video_render sqrtf_floor rendered_members true 1920 1080 true two_faces)))
  = _tracked_elements (inst rendered_members).
Proof.
  apply (render_detects_only_when_due sqrtf_floor rendered_members true 1920 1080 true
           two_faces).
  do 4 right. left. reflexivity.
Defined.

(** X20.  Between two ticks at most one render runs the detection: once
    [video_render] has drawn, a further [video_render] leaves all members
    as they are, whatever it is given. *)
Theorem render_detects_once_per_tick (sqrtf : float -> float) (m : filter_members)
    (target target' : bool) (width height width' height' : N) (captured captured' : bool)
    (detections detections' : list detection) :
  snd (video_render sqrtf m target width height captured detections) = FILTER_DRAWN ->
  fst (video_render sqrtf
         (fst (video_render sqrtf m target width height captured detections))
         target' width' height' captured' detections')
  = fst (video_render sqrtf m target width height captured detections).
Proof.
  intros Hdrawn.
  assert (Hclean : _dirty (fst (video_render sqrtf m target width height captured
                                  detections)) = false).
  { revert Hdrawn. unfold video_render.
    destruct (video_render_skips _ _ _ _); [discriminate |].
    destruct (_dirty m) eqn:Hd; [| intros _; exact Hd].
    destruct captured; [| discriminate].
    destruct (_ && _); [discriminate | reflexivity]. }
  set (m1 := fst (video_render sqrtf m target width height captured detections)) in *.
  unfold video_render at 1.
  destruct (video_render_skips _ _ _ _); [reflexivity |].
  rewrite Hclean. reflexivity.
Qed.

Lemma render_detects_once_per_tick_witness :
  fst (video_render sqrtf_floor
         (fst (video_render sqrtf_floor ticked_members true 1920 1080 true two_faces))
         true 1920 1080 true one_face)
  = fst (video_render sqrtf_floor ticked_members true 1920 1080 true two_faces).
Proof.
  apply (render_detects_once_per_tick sqrtf_floor ticked_members true true
           1920 1080 1920 1080 true true two_faces one_face).
  vm_compute. reflexivity.
Defined.

(** X21.  The sizes reported to the host are never 0.  After a tick, in
    debug mode they are the size of the source; otherwise, without a
    configured aspect ratio they are the size of the source, and with a
    configured ratio above 0 the longer side of the source (the height
    when the sides are equal) is reported as 4294967295 whatever the ratio,
    the other side as it is. *)
Theorem reported_size_after_tick (m : filter_members) (width height : N) (dt : float) :
  (1 <= width)%N -> (1 <= height)%N ->
  let m' := video_tick_members m width height dt in
  (1 <= get_width m' /\ 1 <= get_height m')%N /\
  (_debug m = true \/ _frame_aspect_ratio (inst m) <= 0 ->
   get_width m' = width /\ get_height m' = height) /\
  (_debug m = false -> 0 < _frame_aspect_ratio (inst m) ->
   (height < width)%N -> get_width m' = UINT32_MAX /\ get_height m' = height) /\
  (_debug m = false -> 0 < _frame_aspect_ratio (inst m) ->
   (width <= height)%N -> get_width m' = width /\ get_height m' = UINT32_MAX).
Proof.
  intros Hw Hh. cbv zeta.
  assert (Esz : _size (inst (video_tick_members m width height dt)) = (width, height)).
  { unfold video_tick_members, video_tick. cbn [inst].
    destruct (tick_frame (set_size_counter (inst m) (width, height)
                            (_track_frequency_counter (inst m))) dt) as [_ E].
    rewrite E. reflexivity. }
  unfold get_width, get_height. rewrite Esz.
  change (_debug (video_tick_members m width height dt)) with (_debug m).
  change (_out_size (video_tick_members m width height dt))
    with (output_size (_frame_aspect_ratio (inst m)) width height).
  unfold output_size, UINT32_MAX. cbn [fst snd].
  split; [| split; [| split]].
  - destruct (_debug m); [split; lia |].
    destruct (Qltb 0 (_frame_aspect_ratio (inst m)));
      [destruct (height <? width)%N |]; cbn [fst snd]; split; lia.
  - intros [Hd | Hr].
    + rewrite Hd. split; lia.
    + apply Qltb_false in Hr. rewrite Hr. destruct (_debug m); cbn [fst snd]; split; lia.
  - intros Hd Hr Hlt. rewrite Hd. apply Qltb_true in Hr. rewrite Hr.
    apply N.ltb_lt in Hlt. rewrite Hlt. cbn [fst snd]. split; lia.
  - intros Hd Hr Hle. rewrite Hd. apply Qltb_true in Hr. rewrite Hr.
    apply N.ltb_ge in Hle. rewrite Hle. cbn [fst snd]. split; lia.
Qed.

Lemma reported_size_after_tick_witness :
  get_width (video_tick_members wide_members 1920 1080 (1 # 60)) = UINT32_MAX /\
  get_height (video_tick_members wide_members 1920 1080 (1 # 60)) = 1080%N.
Proof.
  refine (proj1 (proj2 (proj2 (reported_size_after_tick wide_members 1920 1080 (1 # 60)
                                 _ _))) _ _ _).
  - vm_compute. discriminate.
  - vm_compute. discriminate.
  - reflexivity.
  - reflexivity.
  - reflexivity.
Defined.

(** ** The texts of the framing settings *)

Section FramingFacts.

Variable sscanf_f : string -> option fval.
Variable lerp : float -> float -> float -> float.

Lemma finite_Some (v : fval) (q : float) : finite v = Some q -> v = Fin q.
Proof.
  destruct v; cbn [finite]; intros E; inversion E; reflexivity.
Qed.

(** What [update_texts] stores for the framing texts. *)
Lemma update_texts_stores (s s' : autoframing_instance) (data : obs_data)
    (texts : framing_texts) :
  update_texts sscanf_f lerp s data texts = Some s' ->
  framing_block sscanf_f (fst (_frame_padding_prc s)) (x (_frame_padding s))
    (Padding_X texts)
  = (fst (_frame_padding_prc s'), Fin (x (_frame_padding s'))) /\
  parse_aspect_ratio sscanf_f (_size s) (AspectRatio texts)
  = Fin (_frame_aspect_ratio s') /\
  _size s' = _size s.
Proof.
  unfold update_texts, framing_settings.
  destruct (framing_block sscanf_f (fst (_frame_padding_prc s)) (x (_frame_padding s))
              (Padding_X texts)) as [prc_x vx].
  cbn [fst snd].
  destruct (finite vx) as [px |] eqn:Epx; [| discriminate].
  destruct (finite (snd (framing_block sscanf_f _ _ (Padding_Y texts)))); [| discriminate].
  destruct (finite (snd (framing_block sscanf_f _ _ (Offset_X texts)))); [| discriminate].
  destruct (finite (snd (framing_block sscanf_f _ _ (Offset_Y texts)))); [| discriminate].
  destruct (finite (parse_aspect_ratio sscanf_f (_size s) (AspectRatio texts)))
    as [ratio |] eqn:Er; [| discriminate].
  cbn [option_map]. intros E. inversion E; subst s'. clear E.
  cbn [update _frame_padding_prc _frame_padding _frame_aspect_ratio _size
         Framing_Padding Framing_AspectRatio fst snd x].
  rewrite (finite_Some _ _ Epx), (finite_Some _ _ Er). repeat split.
Qed.

(** X22.  [update] stores a horizontal padding text that converts to the
    number [v] negated and divided by 100, with the percent flag set, when
    the text holds a percent sign, and as it is, with the flag cleared,
    otherwise; the tick takes the sign back, so that a percent padding adds
    [v] percent of the smoothed size on both sides of the track and a
    pixel padding adds [v] pixels on both sides. *)
Theorem padding_text_grows_box (s s' : autoframing_instance) (data : obs_data)
    (texts : framing_texts) (text : string) (v : Q)
    (dt : float) (trck : track_el) (found : option pred_el) :
  update_texts sscanf_f lerp s data texts = Some s' ->
  Padding_X texts = Some text ->
  sscanf_f text = Some (Fin v) ->
  match strchr text "%" with
  | Some _ =>
      fst (_frame_padding_prc s') = true /\
      x (_frame_padding s') = - (v / 100) /\
      x (pad_size (predict_element s' dt trck found))
      == x (size trck)
         + 2 * (get (filter_size_x (predict_element s' dt trck found)) * (v / 100))
  | None =>
      fst (_frame_padding_prc s') = false /\
      x (_frame_padding s') = v /\
      x (pad_size (predict_element s' dt trck found)) == x (size trck) + 2 * v
  end.
Proof.
  intros Hup Htext Hv.
  destruct (update_texts_stores s s' data texts Hup) as (Hpad & _ & _).
  rewrite Htext in Hpad. cbn [framing_block] in Hpad.
  unfold parse_framing_value in Hpad. rewrite Hv in Hpad.
  unfold predict_element. cbv zeta. cbn [pad_size x filter_size_x].
  destruct (strchr text "%").
  - change (fneg (fdiv (Fin v) (Fin 100))) with (Fin (- (v / 100))) in Hpad.
    injection Hpad as Eprc Eval. rewrite <- Eprc, <- Eval.
    split; [reflexivity |]. split; [reflexivity |]. ring.
  - injection Hpad as Eprc Eval. rewrite <- Eprc, <- Eval.
    split; [reflexivity |]. split; [reflexivity |]. ring.
Qed.

(** X23.  [update] stores for an aspect-ratio text of the form ["W:H"]
    the quotient of the two numbers it converts to, when the second is not
    0; for a text without a colon the number it converts to; and 0 for a
    text that converts to no number, for which the tick corrects the frame
    to the aspect of the source. *)
Theorem aspect_text_parsed (s s' : autoframing_instance) (data : obs_data)
    (texts : framing_texts) (text : string) :
  update_texts sscanf_f lerp s data texts = Some s' ->
  AspectRatio texts = Some text ->
  (forall (w h : string) (a b : Q),
     text = (w ++ ":" ++ h)%string -> strchr w ":" = None ->
     sscanf_f text = Some (Fin a) -> sscanf_f h = Some (Fin b) -> ~ b == 0 ->
     _frame_aspect_ratio s' = a / b) /\
  (forall a : Q,
     strchr text ":" = None -> sscanf_f text = Some (Fin a) ->
     _frame_aspect_ratio s' = a) /\
  (sscanf_f text = None ->
   _frame_aspect_ratio s' = 0 /\
   frame_aspect (_size s') (_frame_aspect_ratio s')
   = uint_to_float (fst (_size s)) / uint_to_float (snd (_size s))).
Proof.
  intros Hup Htext.
  destruct (update_texts_stores s s' data texts Hup) as (_ & Hratio & Hsize).
  rewrite Htext in Hratio. unfold parse_aspect_ratio in Hratio.
  split; [| split].
  - intros w h a b -> Hw Ha Hb Hb0.
    rewrite strchr_app, Hw in Hratio.
    change (strchr (":" ++ h)%string ":") with (Some (String ":" h)) in Hratio.
    cbn [string_tail] in Hratio. rewrite Ha, Hb in Hratio.
    unfold fdiv in Hratio. apply Qeq_bool_false in Hb0. rewrite Hb0 in Hratio.
    inversion Hratio. reflexivity.
  - intros a Hcolon Ha. rewrite Hcolon, Ha in Hratio.
    inversion Hratio. reflexivity.
  - intros Hnone. rewrite Hnone in Hratio.
    assert (E : _frame_aspect_ratio s' = 0).
    { destruct (strchr text ":"); inversion Hratio; reflexivity. }
    split; [exact E |]. rewrite E, Hsize. reflexivity.
Qed.

End FramingFacts.

Lemma padding_text_grows_box_witness :
  match update_texts sscanf_decimal lerp_linear two_tracks_instance default_settings
          default_texts with
  | Some s' =>
      fst (_frame_padding_prc s') = true /\
      x (_frame_padding s') = - ((33333 # 1000) / 100) /\
      x (pad_size (predict_element s' (1 # 60) young_track None))
      == x (size young_track)
         + 2 * (get (filter_size_x (predict_element s' (1 # 60) young_track None))
                * ((33333 # 1000) / 100))
  | None => False
  end.
Proof.
  destruct (update_texts sscanf_decimal lerp_linear two_tracks_instance default_settings
              default_texts) as [s' |] eqn:E; [| vm_compute in E; discriminate E].
  apply (padding_text_grows_box sscanf_decimal lerp_linear two_tracks_instance s'
           default_settings default_texts "33.333 %" (33333 # 1000) (1 # 60)
           young_track None).
  - exact E.
  - reflexivity.
  - reflexivity.
Defined.

Lemma aspect_text_parsed_witness :
  match update_texts sscanf_decimal lerp_linear two_tracks_instance default_settings
          wide_texts with
  | Some s' => _frame_aspect_ratio s' = 16 / 9
  | None => False
  end.
Proof.
  destruct (update_texts sscanf_decimal lerp_linear two_tracks_instance default_settings
              wide_texts) as [s' |] eqn:E; [| vm_compute in E; discriminate E].
  refine (proj1 (aspect_text_parsed sscanf_decimal lerp_linear two_tracks_instance s'
                   default_settings wide_texts "16:9" E _)
            "16"%string "9"%string 16 9 _ _ _ _ _).
  - reflexivity.
  - reflexivity.
  - reflexivity.
  - reflexivity.
  - reflexivity.
  - discriminate.
Defined.

(** ** Distinct pointers *)

(** X24.  In every state that the callbacks reach from the constructed
    instance, with the allocator handing out addresses that no live track
    has, no pointer occurs twice in the tracked list. *)
Theorem tracked_pointers_distinct (sqrtf : float -> float)
    (sscanf_f : string -> option fval) (lerp : float -> float -> float -> float)
    (s : autoframing_instance) :
  reachable sqrtf sscanf_f lerp s -> NoDup (map fst (_tracked_elements s)).
Proof.
  apply reachable_NoDup.
Qed.

Lemma tracked_pointers_distinct_witness :
  NoDup (map fst (_tracked_elements first_detection_state)).
Proof.
  apply (tracked_pointers_distinct sqrtf_floor sscanf_decimal lerp_linear
           first_detection_state).
  exact first_detection_reachable.
Defined.

(** ** The detection throttle *)

Lemma tick_throttle (s : autoframing_instance) (width height : N) (dt : float) :
  _track_frequency (video_tick s width height dt) = _track_frequency s /\
  _provider (video_tick s width height dt) = _provider s /\
  _track_frequency_counter (video_tick s width height dt)
  = _track_frequency_counter s + dt /\
  _size (video_tick s width height dt) = (width, height).
Proof.
  unfold video_tick, tracking_tick, predicted_tick.
  destruct (age_and_evict _ _ _ _) as [l m].
  cbn [_track_frequency _provider _track_frequency_counter _size set_frame set_tracking
         set_size_counter].
  repeat split.
Qed.

Lemma render_track_throttle (sqrtf : float -> float) (s : autoframing_instance)
    (detections : list detection) :
  _track_frequency (video_render_track sqrtf s detections) = _track_frequency s /\
  _provider (video_render_track sqrtf s detections) = _provider s /\
  (_track_frequency_counter (video_render_track sqrtf s detections) = 0 \/
   _track_frequency_counter (video_render_track sqrtf s detections)
   = _track_frequency_counter s).
Proof.
  unfold video_render_track. destruct (fge _ _); [| repeat split; right; reflexivity].
  cbn [_provider set_size_counter].
  destruct (_provider s) eqn:Ep; try (repeat split; [exact Ep | left; reflexivity]).
  rewrite process_only_tracks. repeat split; [exact Ep | left; reflexivity].
Qed.

Lemma runs_throttle (sqrtf : float -> float) (s s' : autoframing_instance) :
  runs sqrtf s s' ->
  0 <= _track_frequency_counter s ->
  _track_frequency s' = _track_frequency s /\
  _provider s' = _provider s /\
  0 <= _track_frequency_counter s'.
Proof.
  intros Hruns H0. induction Hruns as [| s' width height dt _ IH Hdt | s' detections _ IH].
  - repeat split. exact H0.
  - destruct IH as (Ef & Ep & Hc).
    destruct (tick_throttle s' width height dt) as (Ef' & Ep' & Ec' & _).
    rewrite Ef', Ep', Ec'. repeat split; [exact Ef | exact Ep | lra].
  - destruct IH as (Ef & Ep & Hc).
    destruct (render_track_throttle sqrtf s' detections) as (Ef' & Ep' & Ec').
    rewrite Ef', Ep'. repeat split; [exact Ef | exact Ep |].
    destruct Ec' as [-> | ->]; [lra | exact Hc].
Qed.

(** X25.  A frequency text that converts to no number makes the period
    0: from such an update on, after any ticks of non-negative duration and
    renders, every tick is followed by a detection pass at the next render
    that captures its input. *)
Theorem malformed_frequency_detects_every_tick (sqrtf : float -> float)
    (sscanf_f : string -> option fval) (lerp : float -> float -> float -> float)
    (s s' : autoframing_instance) (data : obs_data) (text : string)
    (width height : N) (dt : float) (detections : list detection) :
  Tracking_Frequency data = Some text ->
  sscanf_f text = None ->
  _provider s = NVIDIA_FACEDETECTION ->
  runs sqrtf (update sscanf_f lerp s data) s' ->
  0 <= dt ->
  video_render_track sqrtf (video_tick s' width height dt) detections
  = nvar_facedetection_process sqrtf
      (set_size_counter (video_tick s' width height dt) (width, height) 0)
      detections.
Proof.
  intros Htext Hnone Hp Hruns Hdt.
  destruct (runs_throttle sqrtf _ s' Hruns) as (Ef & Ep & Hc).
  { cbn [_track_frequency_counter update]. lra. }
  assert (Ef0 : _track_frequency s' = Fin 0).
  { rewrite Ef. cbn [_track_frequency update]. rewrite Htext.
    unfold parse_frequency. rewrite Hnone. reflexivity. }
  assert (Ep0 : _provider s' = NVIDIA_FACEDETECTION) by (rewrite Ep; exact Hp).
  destruct (tick_throttle s' width height dt) as (Ef' & Ep' & Ec' & Esz).
  unfold video_render_track. rewrite Ef', Ec', Ef0.
  assert (Edue : fge (Fin (_track_frequency_counter s' + dt)) (Fin 0) = true).
  { unfold fge. apply Qle_bool_iff. lra. }
  rewrite Edue. cbn [_provider set_size_counter]. rewrite Ep', Ep0, Esz. reflexivity.
Qed.

Lemma malformed_frequency_detects_every_tick_witness :
  let s' :=
    video_render_track sqrtf_floor
      (video_tick (update sscanf_decimal lerp_linear two_tracks_instance garbled_settings)
         1920 1080 (1 # 60))
      two_faces in
  video_render_track sqrtf_floor (video_tick s' 1920 1080 (1 # 60)) two_faces
  = nvar_facedetection_process sqrtf_floor
      (set_size_counter (video_tick s' 1920 1080 (1 # 60)) (1920, 1080)%N 0)
      two_faces.
Proof.
  cbv zeta.
  apply (malformed_frequency_detects_every_tick sqrtf_floor sscanf_decimal lerp_linear
           two_tracks_instance _ garbled_settings "often"%string).
  - reflexivity.
  - reflexivity.
  - reflexivity.
  - apply runs_render. apply runs_tick; [apply runs_start |].
    unfold Qle; simpl; lia.
  - unfold Qle; simpl; lia.
Defined.

(** ** No provider *)

(** X26.  When the factory has no provider available, an instance
    without provider stays as it is on an [update] that requests the
    automatic provider: nothing is switched, the backend is not called, and
    [video_render] keeps skipping the filter. *)
Theorem no_provider_stays_inert (B : backend) (s : autoframing_instance) :
  _provider s = INVALID ->
  _provider_ready s = false ->
  update_provider B false AUTOMATIC s = (inr tt, s) /\
  forall (target : bool) (width height : N),
    video_render_skips s target width height = true.
Proof.
  intros Hp Hr. split.
  - unfold update_provider, bind, read. cbn [find_ideal_provider first_available
      provider_priority is_provider_available]. rewrite Hp. cbn [provider_eqb ret].
    rewrite Hr. reflexivity.
  - intros target width height. unfold video_render_skips. rewrite Hr. reflexivity.
Qed.

Lemma no_provider_stays_inert_witness :
  update_provider working_backend false AUTOMATIC initial_instance
  = (inr tt, initial_instance) /\
  forall (target : bool) (width height : N),
    video_render_skips initial_instance target width height = true.
Proof.
  apply (no_provider_stays_inert working_backend initial_instance); reflexivity.
Defined.
